(** * AdaptiveAI: credential rotation, retry engine and channel context

    A shallow embedding of the core of [adaptiveai.py] (the [AdaptiveAI]
    cog): the per-guild credential pool kept in the persisted [Config]
    store, the per-channel bounded message history, and the retry loop of
    [generate_response].

    Conventions of the embedding.
    - Guild and channel identifiers are Python integers: [Z].
    - [current_key_index] is a natural number: the only values ever
      written to it are the registered default [0], the literal [0]
      (clamp, reset) and [(current_index + 1) % len(keys)] with
      [len(keys) >= 2], which is never negative in Python.
    - Strings are byte strings, the UTF-8 encodings of Python's [str];
      [str.lower] is modelled on the ASCII letters, which is where the
      three searched words live; [len] and slices of a key count
      characters (code points), not bytes.
    - The coroutines are run one at a time: a method is a computation in
      a state monad over the cog, which also records the observable
      actions (backend invocations and index writes) it performs.
    - The text-generation backend and the bot framework's user lookup are
      external: they are variables of the section. *)

From Stdlib Require Import String Ascii DecimalString.
From stdpp Require Import gmap strings list.

Module AdaptiveAI.

(** ** Strings *)

(** ["\n"] *)
Definition newline : string := String "010"%char EmptyString.

(** [str(n)] for a non-negative integer. *)
Definition str_of_nat (n : nat) : string :=
  NilEmpty.string_of_uint (Nat.to_uint n).

Definition lower_char (c : ascii) : ascii :=
  let n := nat_of_ascii c in
  if (65 <=? n) && (n <=? 90) then ascii_of_nat (n + 32) else c.

(** [s.lower()] *)
Fixpoint lower (s : string) : string :=
  match s with
  | EmptyString => EmptyString
  | String c s' => String (lower_char c) (lower s')
  end.

(** [needle in s] for strings: [needle] occurs as a substring of [s]. *)
Fixpoint contains (needle s : string) : bool :=
  String.prefix needle s ||
  match s with
  | EmptyString => false
  | String _ s' => contains needle s'
  end.

(** [sep.join(parts)] *)
Definition join (sep : string) (parts : list string) : string :=
  String.concat sep parts.

(** Python truthiness of an [Optional[str]]: [None] and [""] are falsy. *)
Definition truthy (o : option string) : bool :=
  match o with
  | Some (String _ _) => true
  | _ => false
  end.

(** ** Data model *)

(** The values registered per guild ([default_guild]). *)
Record GuildConfig : Type := MkGuildConfig {
  freeroom_channel : option Z;
  api_keys : list string;
  current_key_index : nat
}.

Definition default_guild : GuildConfig :=
  {| freeroom_channel := None; api_keys := []; current_key_index := 0 |}.

(** Writing one registered value leaves the others as they are. *)
Definition with_api_keys (c : GuildConfig) (keys : list string) : GuildConfig :=
  {| freeroom_channel := freeroom_channel c;
     api_keys := keys;
     current_key_index := current_key_index c |}.

Definition with_current_key_index (c : GuildConfig) (i : nat) : GuildConfig :=
  {| freeroom_channel := freeroom_channel c;
     api_keys := api_keys c;
     current_key_index := i |}.

(** [f"{author}: {content}"] *)
Definition history_line (author content : string) : string :=
  author +:+ ": " +:+ content.

(** [deque(maxlen=50)]: a list, oldest entry first. *)
Definition history_maxlen : nat := 50.

(** [deque.append] on a bounded deque: the item goes to the right end and,
    if the deque is then longer than [maxlen], the leftmost one is
    dropped. *)
Definition deque_append (maxlen : nat) (d : list string) (x : string)
  : list string :=
  let d' := d ++ [x] in
  if decide (maxlen < length d') then drop 1 d' else d'.

(** [l[-n:]] for [n > 0]: the last [n] items, or all of them when there
    are fewer. *)
Definition last_n {A} (n : nat) (l : list A) : list A :=
  drop (length l - n) l.

(** One [client.chat.complete] request. *)
Record Request : Type := MkRequest {
  req_api_key : option string;
  req_model : string;
  req_system : string;
  req_user : string;
  req_max_tokens : nat
}.

(** What the [try] block yields: the completion text, or an exception
    [e], kept as [str(e)]. *)
Inductive Response : Type :=
  | Completion (content : string)
  | Raised (message : string).

(** Observable actions of the cog, in the order they happen. *)
Inductive Event : Type :=
  | EvCall (req : Request) (resp : Response)
      (* client.chat.complete(...) in generate_response *)
  | EvClamp (guild : Z)
      (* current_key_index.set(0) in get_current_api_key *)
  | EvSwitch (guild : Z) (next_index : nat)
      (* current_key_index.set(next_index) in switch_to_next_key *)
  | EvReset (guild : Z).
      (* current_key_index.set(0) in remove_api_key *)

(** The backend attempts of a trace, oldest first. *)
Fixpoint attempts (t : list Event) : list (Request * Response) :=
  match t with
  | [] => []
  | EvCall req resp :: t' => (req, resp) :: attempts t'
  | _ :: t' => attempts t'
  end.

(** How many times the pool was rotated in a trace. *)
Fixpoint rotations (t : list Event) : nat :=
  match t with
  | [] => 0
  | EvSwitch _ _ :: t' => S (rotations t')
  | _ :: t' => rotations t'
  end.

(** The indices the rotations of a trace stored, oldest first. *)
Fixpoint switched_to (t : list Event) : list nat :=
  match t with
  | [] => []
  | EvSwitch _ next_index :: t' => next_index :: switched_to t'
  | _ :: t' => switched_to t'
  end.

(** ** Fixed texts *)

Definition no_history_message : string := "No previous messages available.".

Definition no_key_message : string :=
  "❌ No API key configured! Use `/aiaddkey` to set one up.".

Definition error_prefix : string := "❌ Error generating AI response: ".

Definition all_keys_exhausted_message : string :=
  "❌ All API keys have reached their limit. Please try again later.".

Definition max_keys_message : string := "❌ Maximum of 8 API keys reached!".

Definition duplicate_key_message : string :=
  "❌ This API key is already added!".

Definition model_name : string := "mistral-large-latest".

Definition key_added_message (n : nat) : string :=
  "✅ API key #" +:+ str_of_nat n +:+ " has been added! (Total: " +:+
  str_of_nat n +:+ "/8)".

Definition invalid_key_number_message (n : nat) : string :=
  "❌ Invalid key number! (1-" +:+ str_of_nat n +:+ ")".

(** [key_number] is any Python integer; only valid ones (positive) reach
    this message. *)
Definition key_removed_message (key_number : Z) (remaining : nat) : string :=
  "✅ API key #" +:+ str_of_nat (Z.to_nat key_number) +:+
  " has been removed! (Remaining: " +:+ str_of_nat remaining +:+ ")".

(** The system prompt of [generate_response]. *)
Definition system_prompt (owner_name chat_context : string) : string :=
  join newline [
    "You are a Discord bot on a server and you adapt to the server slang.";
    "";
    "IMPORTANT RULES:";
    "";
    "- Learn from the users’ chat style and adapt to it";
    "- Use similar expressions, emojis, and slang as the users";
    "- Don’t write too long messages (1-3 sentences are ideal)";
    "- Be authentic and natural";
    "- If asked about the bot owner: The owner is " +:+ owner_name;
    "";
    "CHAT CONTEXT (recent messages):";
    chat_context;
    "";
    "Analyze the writing style and respond in the same style."
  ].

(** [error_msg = str(e).lower()] followed by the three substring tests. *)
Definition is_rate_limit_error (e : string) : bool :=
  let error_msg := lower e in
  contains "rate" error_msg || contains "limit" error_msg ||
  contains "quota" error_msg.

(** ** Messages, replies and embeds *)

(** [str(n)] for any integer. *)
Definition str_of_Z (z : Z) : string :=
  if (z <? 0)%Z then "-" +:+ str_of_nat (Z.to_nat (- z))
  else str_of_nat (Z.to_nat z).

(** [s.replace(old, new)] for a non-empty [old], scanning from the left:
    at a position where [old] starts, [new] is emitted and the rest of
    that occurrence ([skip] characters) is passed over. *)
Fixpoint replace_from (old new : string) (skip : nat) (s : string) : string :=
  match s with
  | EmptyString => EmptyString
  | String c s' =>
    match skip with
    | S skip' => replace_from old new skip' s'
    | 0 =>
      if String.prefix old s
      then new +:+ replace_from old new (String.length old - 1) s'
      else String c (replace_from old new 0 s')
    end
  end.

(** With an empty [old], Python puts [new] before every character and at
    the end. *)
Fixpoint replace_empty (new s : string) : string :=
  match s with
  | EmptyString => new
  | String c s' => new +:+ String c (replace_empty new s')
  end.

Definition replace (old new s : string) : string :=
  match old with
  | EmptyString => replace_empty new s
  | String _ _ => replace_from old new 0 s
  end.

(** A [str] is held as its UTF-8 encoding, so a character (a code point)
    is a lead byte followed by its continuation bytes, the bytes
    [10xxxxxx]. The encoding of a [str] never begins with a continuation
    byte: it is [char_aligned]. *)
Definition is_continuation (c : ascii) : bool :=
  let n := nat_of_ascii c in
  (128 <=? n) && (n <? 192).

Definition char_aligned (s : string) : bool :=
  match s with
  | EmptyString => true
  | String c _ => negb (is_continuation c)
  end.

(** [len(s)]: the number of characters. *)
Fixpoint str_len (s : string) : nat :=
  match s with
  | EmptyString => 0
  | String c s' => (if is_continuation c then 0 else 1) + str_len s'
  end.

(** The rest of a string behind the continuation bytes at its front. *)
Fixpoint skip_continuation (s : string) : string :=
  match s with
  | EmptyString => EmptyString
  | String c s' => if is_continuation c then skip_continuation s' else s
  end.

(** [s[k:]]: [s] without its first [k] characters. *)
Fixpoint drop_chars (k : nat) (s : string) : string :=
  match k, s with
  | 0, _ => s
  | S _, EmptyString => EmptyString
  | S k', String _ s' => drop_chars k' (skip_continuation s')
  end.

(** [s[-n:]] for [n > 0]: the last [n] characters, or all of [s] when it
    has fewer. *)
Definition str_last (n : nat) (s : string) : string :=
  drop_chars (str_len s - n) s.

(** The two forms of a user mention: [f'<@{id}>'] and [f'<@!{id}>']. *)
Definition mention_token (user_id : Z) : string :=
  "<@" +:+ str_of_Z user_id +:+ ">".

Definition nick_mention_token (user_id : Z) : string :=
  "<@!" +:+ str_of_Z user_id +:+ ">".

(** What [on_message] reads of a [discord.Message]. *)
Record Message : Type := MkMessage {
  author_bot : bool;          (* message.author.bot *)
  msg_guild : option Z;       (* message.guild, by its id *)
  msg_channel : Z;            (* message.channel.id *)
  display_name : string;      (* message.author.display_name *)
  content : string;           (* message.content *)
  mentions_bot : bool         (* self.bot.user in message.mentions *)
}.

(** What [on_message] sends: nothing, [message.channel.send(text)] or
    [message.reply(text)]. *)
Inductive Outgoing : Type :=
  | NoReply
  | ChannelSend (channel_id : Z) (text : string)
  | MessageReply (text : string).

(** What a command reads of a [discord.TextChannel]. *)
Record TextChannel : Type := MkTextChannel {
  channel_id_of : Z;          (* channel.id *)
  mention : string            (* channel.mention *)
}.

(** A [discord.Embed] as [list_api_keys] builds it; the colour is always
    [discord.Color.blue()]. A field is its name, its value and its
    [inline] flag. *)
Record Embed : Type := MkEmbed {
  embed_title : string;
  embed_description : string;
  embed_fields : list (string * string * bool)
}.

(** What a command sends with [ctx.send]: a text or an embed. *)
Inductive Sent : Type :=
  | SentText (text : string)
  | SentEmbed (embed : Embed).

(** [f"...{key[-4:]}" if len(key) > 4 else "****"] *)
Definition masked_key (key : string) : string :=
  if 4 <? str_len key then "..." +:+ str_last 4 key else "****".

(** [status] and the field name [f"Key #{i} {status}"] of [list_api_keys]. *)
Definition key_status (active : bool) : string :=
  if active then "🟢 ACTIVE" else "⚪".

Definition key_field_name (i : nat) (active : bool) : string :=
  "Key #" +:+ str_of_nat i +:+ " " +:+ key_status active.

(** The field of the key at position [j] (from 0), [i = j + 1] being its
    number in [enumerate(keys, 1)]. *)
Definition key_field (current_index : nat) (j : nat) (key : string)
  : string * string * bool :=
  (key_field_name (j + 1) (bool_decide (j + 1 - 1 = current_index)),
   "`" +:+ masked_key key +:+ "`", true).

Definition with_freeroom_channel (c : GuildConfig) (ch : option Z)
  : GuildConfig :=
  {| freeroom_channel := ch;
     api_keys := api_keys c;
     current_key_index := current_key_index c |}.

(** Truthiness of an [Optional[int]]: [None] and [0] are falsy. *)
Definition truthy_id (o : option Z) : bool :=
  match o with
  | Some z => negb (z =? 0)%Z
  | None => false
  end.

Definition freeroom_set_message (mention : string) : string :=
  "✅ Free-room channel has been set to " +:+ mention +:+ "!" +:+ newline +:+
  "The bot will now respond to every message in this channel.".

Definition freeroom_removed_message : string :=
  "✅ Free-room channel has been removed!".

Definition no_keys_listed_message : string := "❌ No API keys configured!".

(** ** Vocabulary of the properties *)

(** The lines a run of messages leaves for a channel, oldest first. *)
Definition lines_of (channel_id : Z) (msgs : list (Z * string * string))
  : list string :=
  (λ m, history_line m.1.2 m.2) <$> filter (λ m, m.1.1 = channel_id) msgs.

(** The index a call of [generate_response] starts from: the stored one,
    or [0] when the stored one is past the end. *)
Definition start_index (c : GuildConfig) : nat :=
  if decide (length (api_keys c) ≤ current_key_index c) then 0
  else current_key_index c.

(** An attempt that ended in a rate-limit-classified error. *)
Definition rate_limited (a : Request * Response) : Prop :=
  ∃ e, a.2 = Raised e ∧ is_rate_limit_error e = true.

(** The credential each attempt was made with. *)
Definition keys_used (t : list Event) : list (option string) :=
  (λ a, req_api_key a.1) <$> attempts t.

(** [needle] occurs in [s]. *)
Definition occurs (needle s : string) : Prop :=
  ∃ pre suf, s = pre +:+ needle +:+ suf.

(** The error text, lowered, mentions one of the three words. *)
Definition mentions_limit (e : string) : Prop :=
  occurs "rate" (lower e) ∨ occurs "limit" (lower e) ∨
  occurs "quota" (lower e).

(** At most 8 credentials; no duplicates. *)
Definition pool_size_ok (c : GuildConfig) : Prop := length (api_keys c) ≤ 8.

Definition pool_unique (c : GuildConfig) : Prop := NoDup (api_keys c).

(** The invariant of a pool in the data model: at most 8 credentials, no
    duplicates, an index that designates a credential (or is [0] in an
    empty pool). *)
Definition pool_inv (c : GuildConfig) : Prop :=
  length (api_keys c) ≤ 8 ∧ NoDup (api_keys c) ∧
  (current_key_index c < length (api_keys c) ∨
   (api_keys c = [] ∧ current_key_index c = 0)).

(** A history, once created, holds between 1 and 50 lines, none of them
    empty. *)
Definition history_inv (d : list string) : Prop :=
  d ≠ [] ∧ length d ≤ history_maxlen ∧ Forall (λ l, l ≠ "") d.

(** ** The cog *)

(** The cog: the persisted per-guild configuration, the in-memory
    [message_history] dictionary, and the world it talks to, which is the
    state of the backend service. *)
Record Cog (World : Type) : Type := MkCog {
  config : gmap Z GuildConfig;
  message_history : gmap Z (list string);
  backend : World
}.

Arguments MkCog {World} _ _ _.
Arguments config {World} _.
Arguments message_history {World} _.
Arguments backend {World} _.

(** ** Sample cogs and backends for the worked instances *)

(** A guild with the given credentials and stored index, no history, and a
    backend that has served no call yet. *)
Definition demo_guild : Z := 7.
Definition demo_channel : Z := 42.

Definition demo_cog (keys : list string) (index : nat) : Cog nat :=
  {| config :=
       {[ demo_guild := {| freeroom_channel := None;
                           api_keys := keys;
                           current_key_index := index |} ]};
     message_history := ∅;
     backend := 0 |}.

(** A backend that serves only the credential ["key-c"] and answers every
    other one with a rate-limit error; one that is out of quota for all;
    one that rejects every call for another reason. The world counts the
    calls. *)
Definition demo_backend (w : nat) (req : Request) : Response * nat :=
  (if decide (req_api_key req = Some "key-c") then Completion "sure thing"
   else Raised "429: Rate limit exceeded", S w).

Definition limited_backend (w : nat) (req : Request) : Response * nat :=
  (Raised "Monthly QUOTA used up", S w).

Definition broken_backend (w : nat) (req : Request) : Response * nat :=
  (Raised "401 Unauthorized", S w).

Definition eight_keys : list string :=
  ["k1"; "k2"; "k3"; "k4"; "k5"; "k6"; "k7"; "k8"].

Definition three_keys : list string := ["key-a"; "key-b"; "key-c"].

(** A [strip] for the worked instances: it removes leading and trailing
    ASCII white space. *)
Definition is_ascii_space (c : ascii) : bool :=
  let n := nat_of_ascii c in
  ((9 <=? n) && (n <=? 13)) || ((28 <=? n) && (n <=? 32)).

Fixpoint lstrip_ascii (s : string) : string :=
  match s with
  | EmptyString => EmptyString
  | String c s' => if is_ascii_space c then lstrip_ascii s' else s
  end.

Fixpoint rstrip_ascii (s : string) : string :=
  match s with
  | EmptyString => EmptyString
  | String c s' =>
    match rstrip_ascii s' with
    | EmptyString => if is_ascii_space c then EmptyString else String c EmptyString
    | r => String c r
    end
  end.

Definition strip_ascii (s : string) : string := rstrip_ascii (lstrip_ascii s).

Definition demo_bot_id : Z := 99.

Definition demo_message (text : string) (mentioned : bool) : Message :=
  {| author_bot := false;
     msg_guild := Some demo_guild;
     msg_channel := demo_channel;
     display_name := "ann";
     content := text;
     mentions_bot := mentioned |}.

Definition demo_text_channel : TextChannel :=
  {| channel_id_of := demo_channel; mention := "<#42>" |}.

Section Cog.

(** One [chat.complete] round trip on the state of the backend service;
    [bot_owner] is [self.bot.get_user(self.bot.owner_id)], rendered with
    [str] when present. *)
Context {World : Type}.
Variable chat_complete : World → Request → Response * World.
Variable bot_owner : option string.

(** ** The monad of cog methods *)

Definition M (A : Type) : Type := Cog World → A * Cog World * list Event.

Definition ret {A} (a : A) : M A := λ s, (a, s, []).

Definition bind {A B} (m : M A) (k : A → M B) : M B :=
  λ s, let '(a, s1, t1) := m s in
       let '(b, s2, t2) := k a s1 in
       (b, s2, t1 ++ t2).

Notation "'let*' x ':=' m 'in' k" := (bind m (λ x, k))
  (at level 10, x name, m at level 100, k at level 200, only parsing).

Notation "m '>>' k" := (bind m (λ _, k))
  (at level 100, k at level 200, right associativity, only parsing).

Definition emit (e : Event) : M unit := λ s, (tt, s, [e]).

Definition result_of {A} (r : A * Cog World * list Event) : A := r.1.1.
Definition state_of {A} (r : A * Cog World * list Event) : Cog World := r.1.2.
Definition trace_of {A} (r : A * Cog World * list Event) : list Event := r.2.

(** ** The [Config] store *)

(** [self.config.guild(guild)]: unset guilds read as the defaults. *)
Definition guild_conf (guild : Z) (s : Cog World) : GuildConfig :=
  default default_guild (config s !! guild).

Definition put_guild_conf (guild : Z) (c : GuildConfig) (s : Cog World)
  : Cog World :=
  {| config := <[guild := c]> (config s);
     message_history := message_history s;
     backend := backend s |}.

(** [await self.config.guild(guild).api_keys()] *)
Definition cfg_api_keys (guild : Z) : M (list string) :=
  λ s, (api_keys (guild_conf guild s), s, []).

(** [await self.config.guild(guild).current_key_index()] *)
Definition cfg_current_key_index (guild : Z) : M nat :=
  λ s, (current_key_index (guild_conf guild s), s, []).

(** [await self.config.guild(guild).api_keys.set(keys)] *)
Definition cfg_set_api_keys (guild : Z) (keys : list string) : M unit :=
  λ s, (tt, put_guild_conf guild (with_api_keys (guild_conf guild s) keys) s,
        []).

(** [await self.config.guild(guild).current_key_index.set(i)] *)
Definition cfg_set_current_key_index (guild : Z) (i : nat) : M unit :=
  λ s, (tt,
        put_guild_conf guild (with_current_key_index (guild_conf guild s) i) s,
        []).

(** ** The credential pool *)

Definition get_api_keys (guild : Z) : M (list string) := cfg_api_keys guild.

(** After the clamp the index is below [len(keys)], so [keys[current_index]]
    never raises: the lookup is [None] only through the first [return]. *)
Definition get_current_api_key (guild : Z) : M (option string) :=
  let* keys := get_api_keys guild in
  match keys with
  | [] => ret None
  | _ :: _ =>
    let* current_index := cfg_current_key_index guild in
    let* current_index :=
      (if decide (length keys ≤ current_index)
       then cfg_set_current_key_index guild 0 >> emit (EvClamp guild) >> ret 0
       else ret current_index) in
    ret (keys !! current_index)
  end.

Definition switch_to_next_key (guild : Z) : M bool :=
  let* keys := get_api_keys guild in
  if decide (length keys ≤ 1) then ret false
  else
    let* current_index := cfg_current_key_index guild in
    let next_index := (current_index + 1) `mod` length keys in
    cfg_set_current_key_index guild next_index >>
    emit (EvSwitch guild next_index) >>
    ret true.

(** ** The channel history *)

Definition add_message_to_history (channel_id : Z) (author content : string)
  : M unit :=
  λ s, let d := default [] (message_history s !! channel_id) in
       (tt,
        {| config := config s;
           message_history :=
             <[channel_id := deque_append history_maxlen d
                               (history_line author content)]>
               (message_history s);
           backend := backend s |}, []).

Definition get_channel_context (channel_id : Z) : M string :=
  λ s, match message_history s !! channel_id with
       | None => (no_history_message, s, [])
       | Some d => (join newline (last_n 30 d), s, [])
       end.

(** The [aiclear] command; the value is the text it sends. *)
Definition clear_history (channel_id : Z) : M string :=
  λ s, match message_history s !! channel_id with
       | Some _ =>
         ("✅ Message history for this channel has been cleared!",
          {| config := config s;
             message_history := delete channel_id (message_history s);
             backend := backend s |}, [])
       | None => ("ℹ️ No history available for this channel.", s, [])
       end.

(** ** Credential commands; the value is the text sent with [ctx.send] *)

Definition add_api_key (guild : Z) (api_key : string) : M string :=
  let* keys := get_api_keys guild in
  if decide (8 ≤ length keys) then ret max_keys_message
  else if decide (api_key ∈ keys) then ret duplicate_key_message
  else
    let keys := keys ++ [api_key] in
    cfg_set_api_keys guild keys >>
    ret (key_added_message (length keys)).

Definition remove_api_key (guild : Z) (key_number : Z) : M string :=
  let* keys := get_api_keys guild in
  if bool_decide (key_number < 1)%Z ||
     bool_decide (Z.of_nat (length keys) < key_number)%Z
  then ret (invalid_key_number_message (length keys))
  else
    let keys := delete (Z.to_nat (key_number - 1)) keys in
    cfg_set_api_keys guild keys >>
    let* current_index := cfg_current_key_index guild in
    (if bool_decide (length keys ≤ current_index) &&
        bool_decide (0 < length keys)
     then cfg_set_current_key_index guild 0 >> emit (EvReset guild)
     else ret tt) >>
    ret (key_removed_message key_number (length keys)).

(** The [aiswitchkey] command. *)
Definition switch_key (guild : Z) : M string :=
  let* switched := switch_to_next_key guild in
  if switched then
    let* current_index := cfg_current_key_index guild in
    ret ("✅ Switched to API key #" +:+ str_of_nat (current_index + 1))
  else ret "❌ Only one API key available, cannot switch!".

(** ** The response engine *)

(** [client.chat.complete(...)]: one round trip to the backend. *)
Definition put_backend (w : World) (s : Cog World) : Cog World :=
  {| config := config s;
     message_history := message_history s;
     backend := w |}.

Definition call_backend (req : Request) : M Response :=
  λ s, let '(resp, w) := chat_complete (backend s) req in
       (resp, put_backend w s, [EvCall req resp]).

(** The body of the [try] block. *)
Definition attempt (api_key : option string) (channel_id : Z)
    (user_message author_name : string) : M Response :=
  let owner_name := match bot_owner with Some o => o | None => "Unknown" end in
  let* chat_context := get_channel_context channel_id in
  call_backend
    {| req_api_key := api_key;
       req_model := model_name;
       req_system := system_prompt owner_name chat_context;
       req_user := author_name +:+ " asks: " +:+ user_message;
       req_max_tokens := 300 |}.

(** The [while retry_count < len(max_retries)] loop. [remaining] is
    [len(max_retries) - retry_count]: it is [len(max_retries)] on entry,
    goes down by one with each [retry_count += 1], and the loop condition
    is false exactly when it is [0]. *)
Fixpoint retry_loop (remaining : nat) (guild channel_id : Z)
    (user_message author_name : string) (api_key : option string)
  : M string :=
  match remaining with
  | 0 => ret all_keys_exhausted_message
  | S remaining' =>
    let* resp := attempt api_key channel_id user_message author_name in
    match resp with
    | Completion content => ret content
    | Raised e =>
      if is_rate_limit_error e then
        let* switched := switch_to_next_key guild in
        if switched then
          let* api_key := get_current_api_key guild in
          retry_loop remaining' guild channel_id user_message author_name
            api_key
        else ret (error_prefix +:+ e)
      else ret (error_prefix +:+ e)
    end
  end.

Definition generate_response (guild channel_id : Z)
    (user_message author_name : string) : M string :=
  let* api_key := get_current_api_key guild in
  if negb (truthy api_key) then ret no_key_message
  else
    let* max_retries := cfg_api_keys guild in
    retry_loop (length max_retries) guild channel_id user_message author_name
      api_key.

(** ** Runs of operations *)

(** The request an attempt sends from state [s] with credential
    [api_key]. *)
Definition request_of (s : Cog World) (api_key : option string)
    (channel_id : Z) (user_message author_name : string) : Request :=
  {| req_api_key := api_key;
     req_model := model_name;
     req_system :=
       system_prompt (match bot_owner with Some o => o | None => "Unknown" end)
         (result_of (get_channel_context channel_id s));
     req_user := author_name +:+ " asks: " +:+ user_message;
     req_max_tokens := 300 |}.

(** [n] successive rotations, and a sequence of [aiaddkey] commands, each
    with its guild. *)
Definition rotate_times (n : nat) (guild : Z) (s : Cog World) : Cog World :=
  Nat.iter n (λ s, state_of (switch_to_next_key guild s)) s.

Definition add_all (adds : list (Z * string)) (s : Cog World) : Cog World :=
  foldl (λ s a, state_of (add_api_key a.1 a.2 s)) s adds.

(** A run of recorded messages, each with its channel, author and text. *)
Definition record_all (msgs : list (Z * string * string)) (s : Cog World)
  : Cog World :=
  foldl (λ s m, state_of (add_message_to_history m.1.1 m.1.2 m.2 s)) s msgs.

(** What can happen to a cog: a message is recorded, a history is
    cleared, a credential command is run, a response is generated. *)
Inductive Op : Type :=
  | OpMessage (channel_id : Z) (author content : string)
  | OpClear (channel_id : Z)
  | OpAddKey (guild : Z) (api_key : string)
  | OpRemoveKey (guild : Z) (key_number : Z)
  | OpSwitchKey (guild : Z)
  | OpGenerate (guild channel_id : Z) (user_message author_name : string).

Definition run_op (op : Op) (s : Cog World) : Cog World :=
  match op with
  | OpMessage channel_id author content =>
    state_of (add_message_to_history channel_id author content s)
  | OpClear channel_id => state_of (clear_history channel_id s)
  | OpAddKey guild api_key => state_of (add_api_key guild api_key s)
  | OpRemoveKey guild key_number => state_of (remove_api_key guild key_number s)
  | OpSwitchKey guild => state_of (switch_key guild s)
  | OpGenerate guild channel_id user_message author_name =>
    state_of (generate_response guild channel_id user_message author_name s)
  end.

Definition run_ops (ops : list Op) (s : Cog World) : Cog World :=
  foldl (λ s op, run_op op s) s ops.

(** The cog right after [__init__], with nothing stored for any guild. *)
Definition fresh_cog (w : World) : Cog World :=
  {| config := ∅; message_history := ∅; backend := w |}.

(** Every pool and every history of the cog satisfies its invariant. *)
Definition cog_inv (s : Cog World) : Prop :=
  (∀ guild, pool_inv (guild_conf guild s)) ∧
  (∀ channel_id d, message_history s !! channel_id = Some d → history_inv d).

(** ** Free-room commands, key listing and the message listener *)

(** [await self.config.guild(guild).freeroom_channel()] and its [set]. *)
Definition cfg_freeroom_channel (guild : Z) : M (option Z) :=
  λ s, (freeroom_channel (guild_conf guild s), s, []).

Definition cfg_set_freeroom_channel (guild : Z) (ch : option Z) : M unit :=
  λ s, (tt,
        put_guild_conf guild (with_freeroom_channel (guild_conf guild s) ch) s,
        []).

(** The [aisetfreeroom] and [airemovefreeroom] commands. *)
Definition set_freeroom (guild : Z) (channel : TextChannel) : M string :=
  cfg_set_freeroom_channel guild (Some (channel_id_of channel)) >>
  ret (freeroom_set_message (mention channel)).

Definition remove_freeroom (guild : Z) : M string :=
  cfg_set_freeroom_channel guild None >>
  ret freeroom_removed_message.

(** The [ailistkeys] command. *)
Definition list_api_keys (guild : Z) : M Sent :=
  let* keys := get_api_keys guild in
  let* current_index := cfg_current_key_index guild in
  match keys with
  | [] => ret (SentText no_keys_listed_message)
  | _ :: _ =>
    ret (SentEmbed
           {| embed_title := "🔑 API Keys Overview";
              embed_description :=
                "Total: " +:+ str_of_nat (length keys) +:+ "/8 Keys";
              embed_fields := imap (key_field current_index) keys |})
  end.

(** The two lines that remove the mention from the text. [str.strip] is
    Python's own and is left open: it is the argument [strip], as
    [self.bot.user.id] is the argument [bot_user_id]. *)
Definition strip_mention (strip : string → string) (bot_user_id : Z)
    (text : string) : string :=
  let content := strip (replace (mention_token bot_user_id) "" text) in
  strip (replace (nick_mention_token bot_user_id) "" content).

(** The [on_message] listener; the value is what it sends. *)
Definition on_message (strip : string → string) (bot_user_id : Z)
    (message : Message) : M Outgoing :=
  if author_bot message then ret NoReply
  else
    match msg_guild message with
    | None => ret NoReply
    | Some guild =>
      add_message_to_history (msg_channel message) (display_name message)
        (content message) >>
      let* freeroom_id := cfg_freeroom_channel guild in
      if truthy_id freeroom_id &&
         bool_decide (Some (msg_channel message) = freeroom_id)
      then
        let* response :=
          generate_response guild (msg_channel message) (content message)
            (display_name message) in
        ret (ChannelSend (msg_channel message) response)
      else if mentions_bot message then
        let content := strip_mention strip bot_user_id (content message) in
        match content with
        | String _ _ =>
          let* response :=
            generate_response guild (msg_channel message) content
              (display_name message) in
          ret (MessageReply response)
        | EmptyString => ret NoReply
        end
      else ret NoReply
    end.

(** Everything the platform can ask of the cog: a message event or one of
    the commands. *)
Inductive Action : Type :=
  | ActMessage (message : Message)
  | ActSetFreeroom (guild : Z) (channel : TextChannel)
  | ActRemoveFreeroom (guild : Z)
  | ActAddKey (guild : Z) (api_key : string)
  | ActRemoveKey (guild : Z) (key_number : Z)
  | ActListKeys (guild : Z)
  | ActSwitchKey (guild : Z)
  | ActClear (channel_id : Z).

Definition handle (strip : string → string) (bot_user_id : Z) (a : Action)
    (s : Cog World) : Cog World :=
  match a with
  | ActMessage message => state_of (on_message strip bot_user_id message s)
  | ActSetFreeroom guild channel => state_of (set_freeroom guild channel s)
  | ActRemoveFreeroom guild => state_of (remove_freeroom guild s)
  | ActAddKey guild api_key => state_of (add_api_key guild api_key s)
  | ActRemoveKey guild key_number =>
    state_of (remove_api_key guild key_number s)
  | ActListKeys guild => state_of (list_api_keys guild s)
  | ActSwitchKey guild => state_of (switch_key guild s)
  | ActClear channel_id => state_of (clear_history channel_id s)
  end.

Definition handle_all (strip : string → string) (bot_user_id : Z)
    (actions : list Action) (s : Cog World) : Cog World :=
  foldl (λ s a, handle strip bot_user_id a s) s actions.

(** The guild whose configuration an action may write, and the channel
    whose history it may write. *)
Definition action_guild (a : Action) : option Z :=
  match a with
  | ActMessage message => msg_guild message
  | ActSetFreeroom guild _ | ActRemoveFreeroom guild | ActAddKey guild _
  | ActRemoveKey guild _ | ActListKeys guild | ActSwitchKey guild => Some guild
  | ActClear _ => None
  end.

Definition action_channel (a : Action) : option Z :=
  match a with
  | ActMessage message => Some (msg_channel message)
  | ActClear channel_id => Some channel_id
  | _ => None
  end.

(** The credential that is current after [j] rotations. *)
Definition current_after (j : nat) (guild : Z) (s : Cog World)
  : option string :=
  result_of (get_current_api_key guild (rotate_times j guild s)).

(** * Properties *)

(** ** Substring search *)

Lemma append_String a p s : String a p +:+ s = String a (p +:+ s).
Proof. reflexivity. Qed.

Lemma prefix_spec p s : String.prefix p s = true ↔ ∃ suf, s = p +:+ suf.
Proof.
  revert s. induction p as [|a p IH]; intros s; simpl.
  - destruct s; split; eauto.
  - destruct s as [|b s]; simpl.
    + split; [done|]. by intros [suf Hsuf].
    + destruct (ascii_dec a b) as [->|Hne].
      * rewrite IH. split; intros [suf Hsuf]; exists suf;
          rewrite append_String in *; congruence.
      * split; [done|]. intros [suf Hsuf]. rewrite append_String in Hsuf.
        congruence.
Qed.

Lemma contains_spec needle s : contains needle s = true ↔ occurs needle s.
Proof.
  unfold occurs. split.
  - induction s as [|a s IH].
    + cbn [contains]. rewrite orb_false_r. intros [suf Hsuf]%prefix_spec.
      by exists "", suf.
    + cbn [contains]. intros [[suf Hsuf]%prefix_spec|Hin]%orb_true_iff.
      * by exists "", suf.
      * destruct (IH Hin) as (pre & suf & ->). by exists (String a pre), suf.
  - intros (pre & suf & ->). induction pre as [|a pre IH].
    + assert (String.prefix needle (needle +:+ suf) = true) as Hp
        by (apply prefix_spec; eauto).
      change ("" +:+ needle +:+ suf) with (needle +:+ suf).
      destruct (needle +:+ suf); cbn [contains]; by rewrite Hp.
    + rewrite append_String. cbn [contains]. rewrite IH. apply orb_true_r.
Qed.

Lemma is_rate_limit_error_spec e :
  is_rate_limit_error e = true ↔ mentions_limit e.
Proof.
  unfold is_rate_limit_error, mentions_limit. cbv zeta.
  rewrite !orb_true_iff, !contains_spec. tauto.
Qed.

Lemma is_rate_limit_error_false e :
  is_rate_limit_error e = false ↔ ¬ mentions_limit e.
Proof.
  rewrite <- is_rate_limit_error_spec. by destruct (is_rate_limit_error e).
Qed.

(** ** The store *)

Lemma guild_conf_put_eq guild c s :
  guild_conf guild (put_guild_conf guild c s) = c.
Proof. unfold guild_conf, put_guild_conf; simpl. by rewrite lookup_insert_eq. Qed.

Lemma guild_conf_put_ne guild guild' c s :
  guild ≠ guild' →
  guild_conf guild' (put_guild_conf guild c s) = guild_conf guild' s.
Proof.
  intros Hne. unfold guild_conf, put_guild_conf; simpl.
  by rewrite lookup_insert_ne.
Qed.

Lemma guild_conf_put_backend guild w s :
  guild_conf guild (put_backend w s) = guild_conf guild s.
Proof. reflexivity. Qed.

Local Arguments guild_conf : simpl never.
Local Arguments put_guild_conf : simpl never.

(** ** Closed forms of the pool operations *)

Lemma get_current_api_key_run guild s :
  get_current_api_key guild s =
  let c := guild_conf guild s in
  match api_keys c with
  | [] => (None, s, [])
  | _ :: _ =>
    if decide (length (api_keys c) ≤ current_key_index c)
    then (api_keys c !! 0,
          put_guild_conf guild (with_current_key_index c 0) s,
          [EvClamp guild])
    else (api_keys c !! current_key_index c, s, [])
  end.
Proof.
  unfold get_current_api_key, bind, get_api_keys, cfg_api_keys; simpl.
  destruct (api_keys (guild_conf guild s)) as [|k keys] eqn:Hkeys; [done|].
  unfold cfg_current_key_index.
  destruct (decide (length (k :: keys) ≤ current_key_index (guild_conf guild s)));
    reflexivity.
Qed.

Lemma switch_to_next_key_run guild s :
  switch_to_next_key guild s =
  let c := guild_conf guild s in
  if decide (length (api_keys c) ≤ 1) then (false, s, [])
  else
    let next_index := (current_key_index c + 1) `mod` length (api_keys c) in
    (true, put_guild_conf guild (with_current_key_index c next_index) s,
     [EvSwitch guild next_index]).
Proof.
  unfold switch_to_next_key, bind, get_api_keys, cfg_api_keys; simpl.
  destruct (decide (length (api_keys (guild_conf guild s)) ≤ 1)); reflexivity.
Qed.

Lemma add_api_key_run guild api_key s :
  add_api_key guild api_key s =
  let c := guild_conf guild s in
  if decide (8 ≤ length (api_keys c)) then (max_keys_message, s, [])
  else if decide (api_key ∈ api_keys c) then (duplicate_key_message, s, [])
  else (key_added_message (length (api_keys c ++ [api_key])),
        put_guild_conf guild (with_api_keys c (api_keys c ++ [api_key])) s,
        []).
Proof.
  unfold add_api_key, bind, get_api_keys, cfg_api_keys; simpl.
  destruct (decide (8 ≤ length (api_keys (guild_conf guild s)))); [done|].
  destruct (decide (api_key ∈ api_keys (guild_conf guild s))); reflexivity.
Qed.

Lemma remove_api_key_run guild key_number s :
  remove_api_key guild key_number s =
  let c := guild_conf guild s in
  if bool_decide (key_number < 1)%Z ||
     bool_decide (Z.of_nat (length (api_keys c)) < key_number)%Z
  then (invalid_key_number_message (length (api_keys c)), s, [])
  else
    let keys := delete (Z.to_nat (key_number - 1)) (api_keys c) in
    let s1 := put_guild_conf guild (with_api_keys c keys) s in
    if bool_decide (length keys ≤ current_key_index c) &&
       bool_decide (0 < length keys)
    then (key_removed_message key_number (length keys),
          put_guild_conf guild
            (with_current_key_index (with_api_keys c keys) 0) s1,
          [EvReset guild])
    else (key_removed_message key_number (length keys), s1, []).
Proof.
  unfold remove_api_key, bind, get_api_keys, cfg_api_keys; simpl.
  destruct (bool_decide (key_number < 1)%Z ||
            bool_decide (Z.of_nat (length (api_keys (guild_conf guild s)))
                         < key_number)%Z); [done|].
  unfold cfg_set_api_keys, cfg_current_key_index, cfg_set_current_key_index.
  rewrite !guild_conf_put_eq; simpl.
  destruct (bool_decide _ && bool_decide _); simpl;
    rewrite ?guild_conf_put_eq; reflexivity.
Qed.

(** ** Reading and rotating the current credential *)

Lemma with_current_key_index_id c :
  with_current_key_index c (current_key_index c) = c.
Proof. by destruct c. Qed.

Lemma rotate_times_conf n guild s :
  2 ≤ length (api_keys (guild_conf guild s)) →
  current_key_index (guild_conf guild s) < length (api_keys (guild_conf guild s)) →
  guild_conf guild (rotate_times n guild s) =
  with_current_key_index (guild_conf guild s)
    ((current_key_index (guild_conf guild s) + n)
       `mod` length (api_keys (guild_conf guild s))).
Proof.
  intros Hk Hi. induction n as [|n IH].
  - simpl. rewrite Nat.add_0_r, Nat.mod_small by done.
    by rewrite with_current_key_index_id.
  - unfold rotate_times in *. simpl. rewrite switch_to_next_key_run.
    cbv zeta. rewrite IH. simpl.
    destruct (decide (length (api_keys (guild_conf guild s)) ≤ 1)); [lia|].
    unfold state_of; simpl. rewrite guild_conf_put_eq.
    unfold with_current_key_index; simpl. f_equal.
    rewrite Nat.Div0.add_mod_idemp_l. f_equal. lia.
Qed.

(** C6. [get_current_api_key]: with an empty pool the result is [None] and
    nothing is touched; with the index in range the result is the
    credential at [current_key_index] and nothing is touched; with the
    index out of range the index is set to [0] in the store and the result
    is the credential at position [0]. *)
Theorem get_current_api_key_correct guild s :
  let c := guild_conf guild s in
  let r := get_current_api_key guild s in
  (api_keys c = [] → r = (None, s, [])) ∧
  (current_key_index c < length (api_keys c) →
     r = (api_keys c !! current_key_index c, s, []) ∧
     is_Some (api_keys c !! current_key_index c)) ∧
  (api_keys c ≠ [] → length (api_keys c) ≤ current_key_index c →
     result_of r = api_keys c !! 0 ∧
     is_Some (api_keys c !! 0) ∧
     state_of r = put_guild_conf guild (with_current_key_index c 0) s ∧
     guild_conf guild (state_of r) = with_current_key_index c 0 ∧
     trace_of r = [EvClamp guild]).
Proof.
  intros c r. subst r c. rewrite get_current_api_key_run. cbv zeta.
  set (c := guild_conf guild s).
  repeat split.
  - by intros ->.
  - destruct (api_keys c) as [|k keys]; simpl in *; [lia|].
    destruct (decide _); [lia|done].
  - by apply lookup_lt_is_Some_2.
  - destruct (api_keys c) as [|k keys]; [done|].
    destruct (decide _); [done|simpl in *; lia].
  - destruct (api_keys c) as [|k keys]; [done|]. by eexists.
  - destruct (api_keys c) as [|k keys]; [done|].
    destruct (decide _); [done|simpl in *; lia].
  - destruct (api_keys c) as [|k keys]; [done|].
    destruct (decide _); [|simpl in *; lia].
    unfold state_of; simpl. by rewrite guild_conf_put_eq.
  - destruct (api_keys c) as [|k keys]; [done|].
    destruct (decide _); [done|simpl in *; lia].
Qed.

(** C7. [switch_to_next_key]: with fewer than 2 credentials it returns
    [False] and writes nothing; with [k >= 2] credentials it returns
    [True] and stores [(current_key_index + 1) mod k], leaving the
    credentials as they are; and from an index that designates a
    credential, [k] successive rotations bring the stored index back to
    where it was. *)
Theorem switch_to_next_key_correct guild s :
  let c := guild_conf guild s in
  let k := length (api_keys c) in
  let r := switch_to_next_key guild s in
  (k < 2 → r = (false, s, [])) ∧
  (2 ≤ k →
     result_of r = true ∧
     state_of r =
       put_guild_conf guild
         (with_current_key_index c ((current_key_index c + 1) `mod` k)) s ∧
     current_key_index (guild_conf guild (state_of r)) =
       (current_key_index c + 1) `mod` k ∧
     api_keys (guild_conf guild (state_of r)) = api_keys c) ∧
  (2 ≤ k → current_key_index c < k →
     guild_conf guild (rotate_times k guild s) = c).
Proof.
  intros c k r. subst r k c. rewrite switch_to_next_key_run. cbv zeta.
  set (c := guild_conf guild s). set (k := length (api_keys c)).
  split; [|split].
  - intros Hk. destruct (decide (k ≤ 1)); [done|lia].
  - intros Hk. destruct (decide (k ≤ 1)); [lia|].
    unfold result_of, state_of; simpl. rewrite guild_conf_put_eq. done.
  - intros Hk Hi. rewrite rotate_times_conf by done. fold c k.
    replace (current_key_index c + k) with (current_key_index c + 1 * k) by lia.
    rewrite Nat.Div0.mod_add, Nat.mod_small by done.
    apply with_current_key_index_id.
Qed.

(** ** Adding and removing credentials *)

Lemma add_api_key_conf guild guild' api_key s :
  let c' := guild_conf guild' (state_of (add_api_key guild api_key s)) in
  c' = guild_conf guild' s ∨
  (guild' = guild ∧
   length (api_keys (guild_conf guild' s)) < 8 ∧
   (api_key ∉ api_keys (guild_conf guild' s)) ∧
   c' = with_api_keys (guild_conf guild' s)
          (api_keys (guild_conf guild' s) ++ [api_key])).
Proof.
  rewrite add_api_key_run. cbv zeta.
  destruct (decide (8 ≤ _)); [by left|].
  destruct (decide (api_key ∈ _)); [by left|].
  unfold state_of; simpl.
  destruct (decide (guild = guild')) as [->|Hne].
  - right. rewrite guild_conf_put_eq. repeat split; [lia|done].
  - left. by apply guild_conf_put_ne.
Qed.

Lemma add_api_key_preserves guild guild' api_key s :
  let c := guild_conf guild' s in
  let c' := guild_conf guild' (state_of (add_api_key guild api_key s)) in
  (pool_size_ok c → pool_size_ok c') ∧ (pool_unique c → pool_unique c') ∧
  current_key_index c' = current_key_index c.
Proof.
  intros c c'. subst c c'.
  destruct (add_api_key_conf guild guild' api_key s) as [->|(_ & Hlen & Hin & ->)];
    [done|].
  unfold pool_size_ok, pool_unique; simpl. repeat split.
  - intros _. rewrite length_app; simpl. lia.
  - intros Hnd. apply NoDup_app. repeat split; [done| |apply NoDup_singleton].
    intros x Hx ->%list_elem_of_singleton. done.
Qed.

Lemma add_all_preserves adds guild s :
  (pool_size_ok (guild_conf guild s) →
   pool_size_ok (guild_conf guild (add_all adds s))) ∧
  (pool_unique (guild_conf guild s) →
   pool_unique (guild_conf guild (add_all adds s))).
Proof.
  revert s. induction adds as [|[g k] adds IH]; intros s; [done|].
  simpl. destruct (IH (state_of (add_api_key g k s))) as [IHs IHu].
  destruct (add_api_key_preserves g guild k s) as (Hs & Hu & _).
  split; intros H; [apply IHs, Hs, H|apply IHu, Hu, H].
Qed.

(** C8. [add_api_key]: with 8 (or more) credentials stored it answers
    that the maximum is reached and changes nothing; otherwise, with the
    credential already stored, it answers that the key is already added
    and changes nothing; otherwise it stores the credentials with the new
    one appended at the end. A credential already stored is rejected in
    every case, with one of the two answers. Whatever sequence of
    additions is run, in any guilds, a pool of at most 8 credentials stays
    at most 8 and a pool without duplicates stays without duplicates; so
    does in particular the pool of a guild that starts with nothing
    stored. *)
Theorem add_api_key_correct guild api_key s :
  let c := guild_conf guild s in
  let r := add_api_key guild api_key s in
  (8 ≤ length (api_keys c) → r = (max_keys_message, s, [])) ∧
  (length (api_keys c) < 8 → api_key ∈ api_keys c →
     r = (duplicate_key_message, s, [])) ∧
  (length (api_keys c) < 8 → api_key ∉ api_keys c →
     r = (key_added_message (S (length (api_keys c))),
          put_guild_conf guild (with_api_keys c (api_keys c ++ [api_key])) s,
          []) ∧
     api_keys (guild_conf guild (state_of r)) = api_keys c ++ [api_key]) ∧
  (api_key ∈ api_keys c →
     state_of r = s ∧ trace_of r = [] ∧
     (result_of r = duplicate_key_message ∨ result_of r = max_keys_message)) ∧
  (∀ adds : list (Z * string),
     let c' := guild_conf guild (add_all adds s) in
     (length (api_keys c) ≤ 8 → length (api_keys c') ≤ 8) ∧
     (NoDup (api_keys c) → NoDup (api_keys c')) ∧
     (config s !! guild = None →
        length (api_keys c') ≤ 8 ∧ NoDup (api_keys c'))).
Proof.
  intros c r. subst r c. rewrite add_api_key_run. cbv zeta.
  set (c := guild_conf guild s).
  split; [|split; [|split; [|split]]].
  - intros Hlen. destruct (decide (8 ≤ _)); [done|lia].
  - intros Hlen Hin. destruct (decide (8 ≤ _)); [lia|].
    destruct (decide (api_key ∈ _)); done.
  - intros Hlen Hin. destruct (decide (8 ≤ _)); [lia|].
    destruct (decide (api_key ∈ _)); [done|].
    unfold state_of; simpl. rewrite guild_conf_put_eq, length_app; simpl.
    by rewrite Nat.add_1_r.
  - intros Hin. destruct (decide (8 ≤ _)); [by repeat split; [..|right]|].
    destruct (decide (api_key ∈ _)); [by repeat split; [..|left]|done].
  - intros adds.
    destruct (add_all_preserves adds guild s) as [Hs Hu]. fold c in Hs, Hu.
    split; [done|split; [done|]].
    intros Hnone.
    assert (c = default_guild) as Hc by (unfold c, guild_conf; by rewrite Hnone).
    split; [apply Hs|apply Hu]; rewrite Hc.
    + unfold pool_size_ok; simpl; lia.
    + apply NoDup_nil_2.
Qed.

Lemma nonempty_length {A} (l : list A) : l ≠ [] ↔ 0 < length l.
Proof. destruct l; simpl; split; (done || lia). Qed.

(** A valid removal, in closed form. *)
Lemma remove_api_key_valid guild key_number s :
  let c := guild_conf guild s in
  let r := remove_api_key guild key_number s in
  let keys' := delete (Z.to_nat (key_number - 1)) (api_keys c) in
  let i' :=
    if decide (length keys' ≤ current_key_index c ∧ keys' ≠ []) then 0
    else current_key_index c in
  (1 ≤ key_number ≤ Z.of_nat (length (api_keys c)))%Z →
  result_of r = key_removed_message key_number (length keys') ∧
  guild_conf guild (state_of r) =
    with_current_key_index (with_api_keys c keys') i'.
Proof.
  intros c r keys' i' [Hlo Hhi]. subst r. rewrite remove_api_key_run.
  cbv zeta. fold c.
  rewrite (bool_decide_eq_false_2 (key_number < 1)%Z) by lia.
  rewrite (bool_decide_eq_false_2 (_ < key_number)%Z) by lia.
  cbn [orb]. fold keys'. subst i'.
  destruct (decide (length keys' ≤ current_key_index c ∧ keys' ≠ []))
    as [[Hge Hne]|Hno].
  - rewrite (bool_decide_eq_true_2 (length keys' ≤ _)) by done.
    rewrite (bool_decide_eq_true_2 (0 < _)) by (by apply nonempty_length).
    unfold result_of, state_of. cbn [andb fst snd].
    by rewrite guild_conf_put_eq.
  - assert (bool_decide (length keys' ≤ current_key_index c) &&
            bool_decide (0 < length keys') = false) as ->.
    { apply andb_false_iff.
      destruct (decide (length keys' ≤ current_key_index c)) as [Hge|Hlt].
      - right. apply bool_decide_eq_false_2. rewrite <- nonempty_length. tauto.
      - left. by apply bool_decide_eq_false_2. }
    unfold result_of, state_of. cbn [fst snd].
    rewrite guild_conf_put_eq. by destruct c.
Qed.

(** C9. [remove_api_key]: a [key_number] outside [1..len] is answered
    with the invalid-number text and changes nothing; a [key_number]
    inside removes exactly the credential at that 1-based position, keeps
    the others in order, and sets the stored index to [0] when it is no
    longer below the new length and credentials remain; in every case the
    stored index designates a credential afterwards whenever the pool is
    not empty. *)
Theorem remove_api_key_correct guild key_number s :
  let c := guild_conf guild s in
  let keys := api_keys c in
  let r := remove_api_key guild key_number s in
  let c' := guild_conf guild (state_of r) in
  ((key_number < 1 ∨ Z.of_nat (length keys) < key_number)%Z →
     r = (invalid_key_number_message (length keys), s, [])) ∧
  ((1 ≤ key_number ≤ Z.of_nat (length keys))%Z →
     result_of r = key_removed_message key_number (length keys - 1) ∧
     api_keys c' =
       take (Z.to_nat key_number - 1) keys ++ drop (Z.to_nat key_number) keys ∧
     length (api_keys c') = length keys - 1 ∧
     current_key_index c' =
       (if decide (length (api_keys c') ≤ current_key_index c ∧
                   api_keys c' ≠ [])
        then 0 else current_key_index c) ∧
     (api_keys c' ≠ [] → current_key_index c' < length (api_keys c'))).
Proof.
  intros c keys r c'. split.
  - intros Hout. subst r. rewrite remove_api_key_run. cbv zeta. fold c keys.
    destruct Hout as [Hlo|Hhi].
    + by rewrite (bool_decide_eq_true_2 (key_number < 1)%Z).
    + rewrite (bool_decide_eq_true_2 (_ < key_number)%Z) by done.
      by rewrite orb_true_r.
  - intros Hin.
    destruct (remove_api_key_valid guild key_number s Hin) as [Hres Hconf].
    fold c r c' keys in Hres, Hconf.
    set (keys' := delete (Z.to_nat (key_number - 1)) keys) in *.
    assert (length keys' = length keys - 1) as Hlen
      by (apply length_delete, lookup_lt_is_Some_2; lia).
    assert (keys' = take (Z.to_nat key_number - 1) keys ++
                    drop (Z.to_nat key_number) keys) as Hdel.
    { unfold keys'. rewrite delete_take_drop.
      replace (Z.to_nat (key_number - 1)) with (Z.to_nat key_number - 1) by lia.
      do 2 f_equal. lia. }
    rewrite Hconf, Hres. cbn [api_keys current_key_index
      with_current_key_index with_api_keys].
    split; [by rewrite Hlen|]. repeat split; [done..|].
    intros Hne. destruct (decide _) as [_|Hno]; [by apply nonempty_length|].
    apply nonempty_length in Hne.
    destruct (decide (length keys' ≤ current_key_index c)); [|lia].
    exfalso. apply Hno. split; [done|]. by apply nonempty_length.
Qed.

(** ** The channel history *)

Lemma length_last_n {A} n (l : list A) : length (last_n n l) = n `min` length l.
Proof. unfold last_n. rewrite length_drop. lia. Qed.

Lemma last_n_app_last_n {A} n (l k : list A) :
  last_n n (last_n n l ++ k) = last_n n (l ++ k).
Proof.
  unfold last_n. rewrite <- (drop_app_le l k (length l - n)) by lia.
  rewrite drop_drop. f_equal. rewrite length_drop, !length_app. lia.
Qed.

Lemma last_n_last_n {A} m n (l : list A) :
  m ≤ n → last_n m (last_n n l) = last_n m l.
Proof.
  intros Hmn. unfold last_n. rewrite length_drop, drop_drop. f_equal. lia.
Qed.

Lemma deque_append_last_n maxlen d x :
  length d ≤ maxlen → deque_append maxlen d x = last_n maxlen (d ++ [x]).
Proof.
  intros Hle. unfold deque_append, last_n. rewrite length_app; simpl.
  destruct (decide (maxlen < length d + 1)).
  - f_equal. lia.
  - by replace (length d + 1 - maxlen) with 0 by lia.
Qed.

Lemma add_message_to_history_lookup channel_id channel_id' author content s :
  message_history
    (state_of (add_message_to_history channel_id author content s))
    !! channel_id' =
  if decide (channel_id = channel_id')
  then Some (deque_append history_maxlen
               (default [] (message_history s !! channel_id'))
               (history_line author content))
  else message_history s !! channel_id'.
Proof.
  unfold add_message_to_history, state_of; simpl.
  destruct (decide (channel_id = channel_id')) as [->|Hne].
  - by rewrite lookup_insert_eq.
  - by rewrite lookup_insert_ne.
Qed.

Lemma record_all_lookup channel_id msgs s :
  length (default [] (message_history s !! channel_id)) ≤ history_maxlen →
  message_history (record_all msgs s) !! channel_id =
  match lines_of channel_id msgs with
  | [] => message_history s !! channel_id
  | ls => Some (last_n history_maxlen
                  (default [] (message_history s !! channel_id) ++ ls))
  end.
Proof.
  revert s. induction msgs as [|[[ch author] content] msgs IH]; intros s Hlen;
    [done|].
  simpl. unfold lines_of. rewrite filter_cons. simpl.
  pose proof (add_message_to_history_lookup ch channel_id author content s)
    as Hstep.
  destruct (decide (ch = channel_id)) as [->|Hne].
  - rewrite fmap_cons. simpl. rewrite IH; rewrite Hstep.
    + simpl. rewrite deque_append_last_n by done.
      fold (lines_of channel_id msgs).
      destruct (lines_of channel_id msgs) as [|l ls]; [done|].
      rewrite last_n_app_last_n. by rewrite <- app_assoc.
    + simpl. rewrite deque_append_last_n, length_last_n by done. lia.
  - rewrite IH; rewrite Hstep; done.
Qed.

Lemma join_nonempty sep l ls : l ≠ "" → join sep (l :: ls) ≠ "".
Proof.
  intros Hl. unfold join; simpl. destruct ls; [done|].
  destruct l; [done|]. simpl. discriminate.
Qed.

Lemma history_line_nonempty author content : history_line author content ≠ "".
Proof.
  unfold history_line. destruct author; simpl; discriminate.
Qed.

(** C5. Starting from a channel with no history, after any run of
    messages (in this and other channels) of which [n] were in the channel,
    [get_channel_context] gives the sentinel text when [n = 0] and
    otherwise the last [min 30 n] of the channel's lines, each
    ["author: content"], oldest first and joined with newlines; this holds
    for every [n], in particular for [n <= 50]. The text is never
    empty, and reading it changes nothing. *)
Theorem get_channel_context_correct channel_id msgs s :
  message_history s !! channel_id = None →
  let ls := lines_of channel_id msgs in
  let n := length ls in
  let r := get_channel_context channel_id (record_all msgs s) in
  (n = 0 → result_of r = no_history_message) ∧
  (0 < n → result_of r = join newline (last_n (30 `min` n) ls)) ∧
  length (last_n (30 `min` n) ls) = 30 `min` n ∧
  result_of r ≠ "" ∧
  state_of r = record_all msgs s ∧
  trace_of r = [].
Proof.
  intros Hnone ls n r.
  assert (message_history (record_all msgs s) !! channel_id =
          match ls with [] => None | _ => Some (last_n history_maxlen ls) end)
    as Hlook.
  { rewrite record_all_lookup; rewrite Hnone; [|simpl; lia].
    fold ls. by destruct ls. }
  assert (last_n (30 `min` n) ls = last_n 30 ls) as Hmin.
  { unfold last_n. fold n. f_equal. lia. }
  subst r. unfold get_channel_context, result_of, state_of, trace_of.
  rewrite Hlook, Hmin.
  destruct ls as [|l ls'] eqn:Hls.
  - subst n. simpl. repeat split; (done || lia).
  - simpl fst; simpl snd.
    rewrite last_n_last_n by (unfold history_maxlen; lia).
    repeat split; try done.
    + rewrite length_last_n. subst n. lia.
    + assert (Forall (λ x, x ≠ "") (last_n 30 (l :: ls'))) as Hall.
      { unfold last_n. apply Forall_drop. rewrite <- Hls. unfold ls, lines_of.
        apply Forall_fmap, Forall_forall. intros m _.
        apply history_line_nonempty. }
      assert (length (last_n 30 (l :: ls')) ≠ 0) as Hlen
        by (rewrite length_last_n; simpl; lia).
      destruct (last_n 30 (l :: ls')) as [|x xs]; [done|].
      apply join_nonempty. by inversion Hall.
Qed.

(** ** The response engine *)

Lemma attempt_run api_key channel_id user_message author_name s :
  attempt api_key channel_id user_message author_name s =
  let req := request_of s api_key channel_id user_message author_name in
  ((chat_complete (backend s) req).1,
   put_backend (chat_complete (backend s) req).2 s,
   [EvCall req (chat_complete (backend s) req).1]).
Proof.
  unfold attempt, bind, call_backend, request_of, get_channel_context,
    result_of.
  destruct (message_history s !! channel_id); simpl;
    destruct (chat_complete _ _); reflexivity.
Qed.

(** One turn of the loop, case by case. *)
Lemma retry_loop_0 guild channel_id user_message author_name api_key s :
  retry_loop 0 guild channel_id user_message author_name api_key s =
  (all_keys_exhausted_message, s, []).
Proof. reflexivity. Qed.

Lemma retry_loop_success remaining guild channel_id user_message author_name
    api_key s content w :
  chat_complete (backend s)
    (request_of s api_key channel_id user_message author_name) =
    (Completion content, w) →
  retry_loop (S remaining) guild channel_id user_message author_name api_key s =
  (content, put_backend w s,
   [EvCall (request_of s api_key channel_id user_message author_name)
      (Completion content)]).
Proof.
  intros Hcall. simpl. unfold bind. rewrite attempt_run. cbv zeta.
  rewrite Hcall. reflexivity.
Qed.

Lemma retry_loop_fatal remaining guild channel_id user_message author_name
    api_key s e w :
  chat_complete (backend s)
    (request_of s api_key channel_id user_message author_name) =
    (Raised e, w) →
  is_rate_limit_error e = false ∨
  result_of (switch_to_next_key guild (put_backend w s)) = false →
  retry_loop (S remaining) guild channel_id user_message author_name api_key s =
  (error_prefix +:+ e, put_backend w s,
   [EvCall (request_of s api_key channel_id user_message author_name)
      (Raised e)]).
Proof.
  intros Hcall Hfatal. simpl. unfold bind. rewrite attempt_run. cbv zeta.
  rewrite Hcall. simpl.
  destruct (is_rate_limit_error e) eqn:Hrate; [|reflexivity].
  destruct Hfatal as [|Hsw]; [done|].
  rewrite switch_to_next_key_run in *. cbv zeta in *.
  destruct (decide _); [reflexivity|done].
Qed.

Lemma retry_loop_retry remaining guild channel_id user_message author_name
    api_key s e w :
  chat_complete (backend s)
    (request_of s api_key channel_id user_message author_name) =
    (Raised e, w) →
  is_rate_limit_error e = true →
  2 ≤ length (api_keys (guild_conf guild s)) →
  let c := guild_conf guild s in
  let next_index := (current_key_index c + 1) `mod` length (api_keys c) in
  let s' :=
    put_guild_conf guild (with_current_key_index c next_index)
      (put_backend w s) in
  let r' :=
    retry_loop remaining guild channel_id user_message author_name
      (api_keys c !! next_index) s' in
  retry_loop (S remaining) guild channel_id user_message author_name api_key s =
  (result_of r', state_of r',
   EvCall (request_of s api_key channel_id user_message author_name) (Raised e)
   :: EvSwitch guild next_index :: trace_of r').
Proof.
  intros Hcall Hrate Hlen c next_index s' r'.
  change (2 ≤ length (api_keys c)) in Hlen. simpl. unfold bind at 1.
  rewrite attempt_run. cbv zeta. rewrite Hcall. simpl. rewrite Hrate.
  unfold bind at 1. rewrite switch_to_next_key_run. cbv zeta.
  rewrite guild_conf_put_backend. fold c.
  destruct (decide (length (api_keys c) ≤ 1)); [lia|]. fold next_index.
  unfold bind. rewrite get_current_api_key_run. cbv zeta.
  rewrite guild_conf_put_eq. simpl.
  assert (next_index < length (api_keys c)) as Hlt
    by (apply Nat.mod_upper_bound; lia).
  destruct (api_keys c) as [|k keys] eqn:Hkeys; [simpl in *; lia|].
  destruct (decide (length (k :: keys) ≤ next_index)); [lia|].
  fold s'. fold r'.
  destruct r' as [[res st] tr]. reflexivity.
Qed.

(** The three ways a turn of the loop can go. *)
Lemma retry_loop_cases remaining guild channel_id user_message author_name
    api_key s :
  let req := request_of s api_key channel_id user_message author_name in
  let r :=
    retry_loop (S remaining) guild channel_id user_message author_name
      api_key s in
  let c := guild_conf guild s in
  let next_index := (current_key_index c + 1) `mod` length (api_keys c) in
  let r' :=
    retry_loop remaining guild channel_id user_message author_name
      (api_keys c !! next_index)
      (put_guild_conf guild (with_current_key_index c next_index)
         (put_backend (chat_complete (backend s) req).2 s)) in
  (∃ content,
     (chat_complete (backend s) req).1 = Completion content ∧
     r = (content, put_backend (chat_complete (backend s) req).2 s,
          [EvCall req (Completion content)])) ∨
  (∃ e,
     (chat_complete (backend s) req).1 = Raised e ∧
     (is_rate_limit_error e = false ∨ length (api_keys c) ≤ 1) ∧
     r = (error_prefix +:+ e, put_backend (chat_complete (backend s) req).2 s,
          [EvCall req (Raised e)])) ∨
  (∃ e,
     (chat_complete (backend s) req).1 = Raised e ∧
     is_rate_limit_error e = true ∧ 2 ≤ length (api_keys c) ∧
     r = (result_of r', state_of r',
          EvCall req (Raised e) :: EvSwitch guild next_index :: trace_of r')).
Proof.
  intros req r c next_index r'. subst r.
  destruct (chat_complete (backend s) req) as [[content|e] w] eqn:Hcall.
  - left. exists content. split; [done|]. by apply retry_loop_success.
  - right. simpl in r'.
    destruct (is_rate_limit_error e) eqn:Hrate;
      [destruct (decide (length (api_keys c) ≤ 1)) as [Hle|Hgt]|].
    + left. exists e. split; [done|split; [by right|]].
      apply retry_loop_fatal; [done|right].
      rewrite switch_to_next_key_run. cbv zeta.
      rewrite guild_conf_put_backend. fold c. by destruct (decide _).
    + assert (2 ≤ length (api_keys c)) as Hlen by lia.
      right. exists e. split; [done|split; [done|split; [done|]]].
      by apply retry_loop_retry.
    + left. exists e. split; [done|split; [by left|]].
      apply retry_loop_fatal; [done|by left].
Qed.

(** What the loop does to the cog: the credentials, the other guilds and
    the history stay; the index of the guild has advanced once per
    rotation. *)
Lemma retry_loop_state remaining guild channel_id user_message author_name :
  ∀ s,
    let c := guild_conf guild s in
    current_key_index c < length (api_keys c) →
    let r :=
      retry_loop remaining guild channel_id user_message author_name
        (api_keys c !! current_key_index c) s in
    guild_conf guild (state_of r) =
      with_current_key_index c
        ((current_key_index c + rotations (trace_of r))
           `mod` length (api_keys c)) ∧
    message_history (state_of r) = message_history s ∧
    (∀ guild', guild' ≠ guild →
       guild_conf guild' (state_of r) = guild_conf guild' s).
Proof.
  induction remaining as [|remaining IH]; intros s c Hlt r.
  - subst r. rewrite retry_loop_0. unfold state_of, trace_of; simpl.
    rewrite Nat.add_0_r, Nat.mod_small by done.
    by rewrite with_current_key_index_id.
  - destruct (retry_loop_cases remaining guild channel_id user_message
                author_name (api_keys c !! current_key_index c) s)
      as [(content & _ & Hr)|[(e & _ & _ & Hr)|(e & _ & _ & Hlen & Hr)]];
      fold c in Hr; subst r; rewrite Hr; unfold state_of, trace_of; simpl.
    + rewrite Nat.add_0_r, Nat.mod_small by done.
      by rewrite guild_conf_put_backend, with_current_key_index_id.
    + rewrite Nat.add_0_r, Nat.mod_small by done.
      by rewrite guild_conf_put_backend, with_current_key_index_id.
    + fold c in Hlen.
      set (next_index := (current_key_index c + 1) `mod` length (api_keys c))
        in *.
      set (s' := put_guild_conf guild (with_current_key_index c next_index)
                   (put_backend _ s)) in *.
      assert (guild_conf guild s' = with_current_key_index c next_index)
        as Hc' by apply guild_conf_put_eq.
      specialize (IH s'). cbv zeta in IH. rewrite Hc' in IH. simpl in IH.
      destruct IH as (IH1 & IH2 & IH3);
        [apply Nat.mod_upper_bound; lia|].
      unfold state_of, trace_of in *. repeat split.
      * rewrite IH1. unfold with_current_key_index; simpl. f_equal.
        unfold next_index. rewrite Nat.Div0.add_mod_idemp_l. f_equal. lia.
      * by rewrite IH2.
      * intros guild' Hne. rewrite IH3 by done.
        unfold s'. rewrite guild_conf_put_ne by done.
        apply guild_conf_put_backend.
Qed.

(** Counting: the loop makes at most [remaining] attempts, rotates at
    most once per attempt, ends with the exhausted text when it rotated
    [remaining] times, and rotates after every attempt when all of them
    were rate limited and there are at least 2 credentials. *)
Lemma retry_loop_counts remaining guild channel_id user_message author_name :
  ∀ s api_key,
    let r :=
      retry_loop remaining guild channel_id user_message author_name
        api_key s in
    length (attempts (trace_of r)) ≤ remaining ∧
    rotations (trace_of r) ≤ length (attempts (trace_of r)) ∧
    (rotations (trace_of r) = remaining →
       result_of r = all_keys_exhausted_message) ∧
    (2 ≤ length (api_keys (guild_conf guild s)) →
     Forall rate_limited (attempts (trace_of r)) →
       rotations (trace_of r) = length (attempts (trace_of r))).
Proof.
  induction remaining as [|remaining IH]; intros s api_key r.
  - subst r. rewrite retry_loop_0. unfold trace_of, result_of; simpl.
    repeat split; (done || lia).
  - destruct (retry_loop_cases remaining guild channel_id user_message
                author_name api_key s)
      as [(content & _ & Hr)|[(e & _ & Hfatal & Hr)|(e & _ & Hrate & Hlen & Hr)]];
      subst r; rewrite Hr; unfold trace_of, result_of; simpl.
    + repeat split; try lia.
      intros _ Hall. apply Forall_cons_1 in Hall as [(e & He & _) _]. done.
    + repeat split; try lia.
      intros Hlen Hall. apply Forall_cons_1 in Hall as [(e' & He & Hrate) _].
      simpl in He. injection He as <-. destruct Hfatal; [congruence|lia].
    + match goal with
      | |- context [retry_loop remaining _ _ _ _ ?k ?s'] =>
        destruct (IH s' k) as (IH1 & IH2 & IH3 & IH4)
      end.
      unfold trace_of, result_of in *. repeat split; try lia.
      * intros Hrot. apply IH3. lia.
      * intros _ Hall. apply Forall_cons_1 in Hall as [_ Hall].
        f_equal. apply IH4; [|done].
        by rewrite guild_conf_put_eq.
Qed.

(** The loop bound is reached only through [remaining] attempts that all
    ended in rate-limit-classified errors, each followed by a rotation,
    which takes at least 2 credentials. *)
Lemma retry_loop_exhausted remaining guild channel_id user_message
    author_name :
  ∀ s api_key,
    let r :=
      retry_loop remaining guild channel_id user_message author_name
        api_key s in
    rotations (trace_of r) = remaining →
    length (attempts (trace_of r)) = remaining ∧
    Forall rate_limited (attempts (trace_of r)) ∧
    (0 < remaining → 2 ≤ length (api_keys (guild_conf guild s))).
Proof.
  induction remaining as [|remaining IH]; intros s api_key r.
  - subst r. rewrite retry_loop_0. unfold trace_of; simpl.
    intros _. repeat split; [apply Forall_nil_2|lia].
  - destruct (retry_loop_cases remaining guild channel_id user_message
                author_name api_key s)
      as [(content & _ & Hr)|[(e & _ & _ & Hr)|(e & _ & Hrate & Hlen & Hr)]];
      subst r; rewrite Hr; unfold trace_of; simpl; [done..|].
    intros [= Hrot].
    match goal with
    | |- context [retry_loop remaining _ _ _ _ ?k ?s'] =>
      destruct (IH s' k Hrot) as (IH1 & IH2 & _)
    end.
    unfold trace_of in *. rewrite IH1. repeat split; [|done].
    apply Forall_cons. split; [|done]. by exists e.
Qed.

Lemma mod_add_lt_inj n i j1 j2 :
  j1 < n → j2 < n → (i + j1) `mod` n = (i + j2) `mod` n → j1 = j2.
Proof.
  intros H1 H2 Heq.
  assert (∀ j, j < n → (i `mod` n + j) `mod` n =
                        if decide (i `mod` n + j < n) then i `mod` n + j
                        else i `mod` n + j - n) as Hmod.
  { intros j Hj. pose proof (Nat.mod_upper_bound i n ltac:(lia)) as Hi.
    destruct (decide _); [by apply Nat.mod_small|].
    replace (i `mod` n + j) with ((i `mod` n + j - n) + 1 * n) at 1 by lia.
    rewrite Nat.Div0.mod_add. apply Nat.mod_small. lia. }
  rewrite <- (Nat.Div0.add_mod_idemp_l i j1), <- (Nat.Div0.add_mod_idemp_l i j2)
    in Heq.
  rewrite !Hmod in Heq by done.
  repeat destruct (decide _); lia.
Qed.

Lemma keys_used_call req resp t :
  keys_used (EvCall req resp :: t) = req_api_key req :: keys_used t.
Proof. reflexivity. Qed.

Lemma keys_used_switch guild i t : keys_used (EvSwitch guild i :: t) = keys_used t.
Proof. reflexivity. Qed.

(** The credentials the loop uses: attempt number [j] (from 0) is made
    with the credential at position [(i + j) mod N], [i] being the stored
    index on entry. *)
Lemma retry_loop_keys remaining guild channel_id user_message author_name :
  ∀ s,
    let c := guild_conf guild s in
    current_key_index c < length (api_keys c) →
    let r :=
      retry_loop remaining guild channel_id user_message author_name
        (api_keys c !! current_key_index c) s in
    keys_used (trace_of r) =
    (λ j, api_keys c !! ((current_key_index c + j) `mod` length (api_keys c)))
      <$> seq 0 (length (attempts (trace_of r))).
Proof.
  induction remaining as [|remaining IH]; intros s c Hlt r.
  - subst r. by rewrite retry_loop_0.
  - assert ((current_key_index c + 0) `mod` length (api_keys c) =
            current_key_index c) as H0
      by (rewrite Nat.add_0_r; by apply Nat.mod_small).
    destruct (retry_loop_cases remaining guild channel_id user_message
                author_name (api_keys c !! current_key_index c) s)
      as [(content & _ & Hr)|[(e & _ & _ & Hr)|(e & _ & _ & Hlen & Hr)]];
      fold c in Hr; subst r; rewrite Hr; unfold trace_of; cbn [snd].
    + simpl. by rewrite H0.
    + simpl. by rewrite H0.
    + rewrite keys_used_call, keys_used_switch.
      cbn [attempts length seq]. rewrite fmap_cons, H0. f_equal.
      fold c in Hlen.
      set (next_index := (current_key_index c + 1) `mod` length (api_keys c))
        in *.
      set (s' := put_guild_conf guild (with_current_key_index c next_index)
                   (put_backend _ s)) in *.
      assert (guild_conf guild s' = with_current_key_index c next_index)
        as Hc' by apply guild_conf_put_eq.
      specialize (IH s'). cbv zeta in IH. rewrite Hc' in IH. simpl in IH.
      unfold trace_of in IH. rewrite IH
        by (apply Nat.mod_upper_bound; lia).
      rewrite <- fmap_S_seq, <- list_fmap_compose.
      apply list_fmap_ext. intros _ j _. simpl. f_equal.
      unfold next_index. rewrite Nat.Div0.add_mod_idemp_l. f_equal. lia.
Qed.

Lemma attempts_app t1 t2 : attempts (t1 ++ t2) = attempts t1 ++ attempts t2.
Proof.
  induction t1 as [|[] t1 IH]; simpl; [done|by rewrite IH|done..].
Qed.

Lemma rotations_app t1 t2 : rotations (t1 ++ t2) = rotations t1 + rotations t2.
Proof.
  induction t1 as [|[] t1 IH]; simpl; [done|done|done|by rewrite IH|done].
Qed.

(** [generate_response] is the initial read followed, when the credential
    is usable, by the loop with [len(keys)] turns. *)
Lemma generate_response_run guild channel_id user_message author_name s :
  generate_response guild channel_id user_message author_name s =
  let k := get_current_api_key guild s in
  if truthy (result_of k) then
    let r :=
      retry_loop (length (api_keys (guild_conf guild (state_of k)))) guild
        channel_id user_message author_name (result_of k) (state_of k) in
    (result_of r, state_of r, trace_of k ++ trace_of r)
  else (no_key_message, state_of k, trace_of k).
Proof.
  unfold generate_response, bind at 1. cbv zeta.
  destruct (get_current_api_key guild s) as [[key s0] t0].
  unfold result_of, state_of, trace_of; simpl.
  destruct (truthy key); simpl; [|by rewrite app_nil_r].
  unfold bind, cfg_api_keys; simpl.
  by destruct (retry_loop _ _ _ _ _ _ _) as [[res s1] t1].
Qed.

(** The initial read of a non-empty pool. *)
Lemma get_current_api_key_start guild s :
  let c := guild_conf guild s in
  let k := get_current_api_key guild s in
  api_keys c ≠ [] →
  guild_conf guild (state_of k) = with_current_key_index c (start_index c) ∧
  start_index c < length (api_keys c) ∧
  result_of k = api_keys c !! start_index c ∧
  attempts (trace_of k) = [] ∧
  rotations (trace_of k) = 0 ∧
  trace_of k = (if decide (length (api_keys c) ≤ current_key_index c)
                then [EvClamp guild] else []) ∧
  message_history (state_of k) = message_history s ∧
  backend (state_of k) = backend s ∧
  (∀ guild', guild' ≠ guild →
     guild_conf guild' (state_of k) = guild_conf guild' s).
Proof.
  intros c k Hne. subst k. rewrite get_current_api_key_run. cbv zeta.
  fold c. unfold start_index.
  destruct (api_keys c) as [|key keys] eqn:Hkeys; [done|].
  destruct (decide (length (key :: keys) ≤ current_key_index c)) as [Hge|Hlt];
    unfold state_of, result_of, trace_of; simpl.
  - rewrite guild_conf_put_eq. repeat split; try done; try lia.
    intros guild' Hg. by apply guild_conf_put_ne.
  - rewrite with_current_key_index_id. repeat split; try done.
    simpl in Hlt. lia.
Qed.

(** C4. With no credential stored for the guild, [generate_response]
    returns the no-key text; it makes no backend call, writes nothing, and
    leaves the cog exactly as it was. *)
Theorem generate_response_no_credentials guild channel_id user_message
    author_name s :
  api_keys (guild_conf guild s) = [] →
  generate_response guild channel_id user_message author_name s =
    (no_key_message, s, []) ∧
  attempts
    (trace_of (generate_response guild channel_id user_message author_name s))
    = [].
Proof.
  intros Hempty.
  assert (generate_response guild channel_id user_message author_name s =
          (no_key_message, s, [])) as Hrun.
  { rewrite generate_response_run, get_current_api_key_run. cbv zeta.
    by rewrite Hempty. }
  by rewrite Hrun.
Qed.

Lemma run_eq {A} (r : A * Cog World * list Event) a st t :
  r = (a, st, t) → result_of r = a ∧ state_of r = st ∧ trace_of r = t.
Proof. by intros ->. Qed.

(** What one call does, in terms of the loop started from the state the
    initial read leaves. *)
Lemma generate_response_loop guild channel_id user_message author_name s :
  let c := guild_conf guild s in
  let k := get_current_api_key guild s in
  let r := generate_response guild channel_id user_message author_name s in
  api_keys c ≠ [] →
  (truthy (result_of k) = false ∧
   r = (no_key_message, state_of k, trace_of k)) ∨
  (truthy (result_of k) = true ∧
   let l :=
     retry_loop (length (api_keys c)) guild channel_id user_message
       author_name
       (api_keys (guild_conf guild (state_of k))
          !! current_key_index (guild_conf guild (state_of k)))
       (state_of k) in
   r = (result_of l, state_of l, trace_of k ++ trace_of l)).
Proof.
  intros c k r Hne. subst r. rewrite generate_response_run. cbv zeta.
  fold k.
  destruct (get_current_api_key_start guild s Hne)
    as (Hc0 & _ & Hres & _). fold c k in Hc0, Hres.
  destruct (truthy (result_of k)) eqn:Htruthy; [right|by left].
  split; [done|]. cbv zeta. rewrite Hc0. simpl. by rewrite Hres.
Qed.

(** C2. With [N > 0] credentials stored, one call of [generate_response]
    makes at most [N] backend attempts; attempt number [j] (from 0) is
    made with the credential at position [(start + j) mod N], so no
    position is used twice, and no credential is used twice when the pool
    has no duplicates; the pool is rotated at most [N] times, and when the
    retry counter reaches the bound, that is after [N] rotations, the
    result is the all-keys-exhausted text. The bound is reached only by
    [N] attempts that all ended in rate-limit-classified errors. *)
Theorem generate_response_bounded guild channel_id user_message author_name s :
  let c := guild_conf guild s in
  let N := length (api_keys c) in
  let r := generate_response guild channel_id user_message author_name s in
  let m := length (attempts (trace_of r)) in
  0 < N →
  m ≤ N ∧
  keys_used (trace_of r) =
    (λ j, api_keys c !! ((start_index c + j) `mod` N)) <$> seq 0 m ∧
  NoDup ((λ j, (start_index c + j) `mod` N) <$> seq 0 m) ∧
  (NoDup (api_keys c) → NoDup (keys_used (trace_of r))) ∧
  rotations (trace_of r) ≤ N ∧
  (rotations (trace_of r) = N →
     result_of r = all_keys_exhausted_message ∧
     m = N ∧ Forall rate_limited (attempts (trace_of r))).
Proof.
  intros c N r m HN.
  assert (api_keys c ≠ []) as Hne by (intros Hnil; subst N; rewrite Hnil in HN;
                                       simpl in HN; lia).
  destruct (get_current_api_key_start guild s Hne)
    as (Hc0 & Hstart & _ & Hatt0 & Hrot0 & _). fold c in Hc0, Hstart, Hatt0, Hrot0.
  assert (m ≤ N ∧
          keys_used (trace_of r) =
            (λ j, api_keys c !! ((start_index c + j) `mod` N)) <$> seq 0 m ∧
          rotations (trace_of r) ≤ N ∧
          (rotations (trace_of r) = N →
           result_of r = all_keys_exhausted_message ∧
           m = N ∧ Forall rate_limited (attempts (trace_of r))))
    as (Hm & Hkeys & Hrot & Hex).
  { subst m.
    destruct (generate_response_loop guild channel_id user_message author_name
                s Hne) as [[_ Hr]|[_ Hr]]; fold c r in Hr; cbv zeta in Hr;
      apply run_eq in Hr as (Hres & _ & Htr); rewrite Htr, Hres.
    - unfold keys_used. rewrite Hatt0, Hrot0. simpl.
      split; [lia|]. split; [done|]. split; [lia|]. intros <-. lia.
    - unfold keys_used.
      rewrite !attempts_app, !rotations_app, Hatt0, Hrot0. simpl.
      set (s0 := state_of (get_current_api_key guild s)) in *.
      pose proof (retry_loop_counts (length (api_keys c)) guild channel_id
                    user_message author_name s0
                    (api_keys (guild_conf guild s0)
                       !! current_key_index (guild_conf guild s0)))
        as (Hc1 & Hc2 & Hc3 & _).
      pose proof (retry_loop_keys (length (api_keys c)) guild channel_id
                    user_message author_name s0) as Hk.
      pose proof (retry_loop_exhausted (length (api_keys c)) guild channel_id
                    user_message author_name s0
                    (api_keys (guild_conf guild s0)
                       !! current_key_index (guild_conf guild s0))) as He.
      cbv zeta in Hk, He. rewrite Hc0 in Hk, Hc1, Hc2, Hc3, He |- *.
      simpl in *. fold N in Hc1, Hc2, Hc3, Hk, He |- *.
      split; [done|]. split; [by apply Hk|]. split; [lia|].
      intros Hrot. destruct (He Hrot) as (He1 & He2 & _).
      split; [by apply Hc3|done]. }
  assert (NoDup ((λ j, (start_index c + j) `mod` N) <$> seq 0 m)) as Hpos.
  { apply NoDup_fmap_2_strong; [|apply NoDup_seq].
    intros j1 j2 [_ H1]%elem_of_seq [_ H2]%elem_of_seq.
    apply mod_add_lt_inj; lia. }
  split; [done|]. split; [done|]. split; [done|]. split; [|done].
  intros Hnd. rewrite Hkeys.
  assert ((λ j, api_keys c !! ((start_index c + j) `mod` N)) <$> seq 0 m =
          (λ p, api_keys c !! p) <$>
            ((λ j, (start_index c + j) `mod` N) <$> seq 0 m)) as ->
    by (by rewrite <- list_fmap_compose).
  apply NoDup_fmap_2_strong; [|done].
  intros p1 p2 (j1 & -> & _)%list_elem_of_fmap (j2 & -> & _)%list_elem_of_fmap Heq.
  assert ((start_index c + j1) `mod` N < N) as Hlt
    by (apply Nat.mod_upper_bound; lia).
  destruct (lookup_lt_is_Some_2 (api_keys c) _ Hlt) as [key Hkey].
  rewrite Hkey in Heq. symmetry in Heq.
  by eapply NoDup_lookup.
Qed.

(** The credentials at positions [i], [i+1], ... taken modulo the size of
    the pool are the pool rotated by [i]. *)
Lemma lookup_mod_rotate (keys : list string) i :
  i < length keys →
  (λ j, keys !! ((i + j) `mod` length keys)) <$> seq 0 (length keys) =
  Some <$> rotate i keys.
Proof.
  intros Hi. apply list_eq. intros j. rewrite !list_lookup_fmap.
  destruct (decide (j < length keys)) as [Hj|Hj].
  - rewrite lookup_seq_lt by done. cbn [fmap option_fmap option_map plus].
    rewrite lookup_rotate_r by done. unfold rotate_nat_add.
    replace (Z.to_nat ((Z.of_nat i + Z.of_nat j) `mod` Z.of_nat (length keys)))
      with ((i + j) `mod` length keys)
      by (rewrite <- Nat2Z.inj_add, <- Nat2Z.inj_mod; lia).
    destruct (lookup_lt_is_Some_2 keys ((i + j) `mod` length keys))
      as [x Hx]; [apply Nat.mod_upper_bound; lia|].
    by rewrite Hx.
  - rewrite lookup_seq_ge by lia.
    by rewrite (lookup_ge_None_2 (rotate i keys) j)
      by (rewrite length_rotate; lia).
Qed.

Lemma switched_to_app t1 t2 :
  switched_to (t1 ++ t2) = switched_to t1 ++ switched_to t2.
Proof.
  induction t1 as [|[] t1 IH]; simpl; [done|done|done|by rewrite IH|done].
Qed.

Lemma keys_used_app t1 t2 : keys_used (t1 ++ t2) = keys_used t1 ++ keys_used t2.
Proof. unfold keys_used. by rewrite attempts_app, fmap_app. Qed.

(** The read of the current credential stores no rotation. *)
Lemma get_current_api_key_switched_to guild s :
  switched_to (trace_of (get_current_api_key guild s)) = [].
Proof.
  rewrite get_current_api_key_run. cbv zeta.
  destruct (api_keys (guild_conf guild s)); [done|]. by destruct (decide _).
Qed.

(** The indices the loop stores: rotation number [j] (from 1) stores
    [(i + j) mod N], [i] being the stored index on entry. *)
Lemma retry_loop_switched_to remaining guild channel_id user_message
    author_name :
  ∀ s,
    let c := guild_conf guild s in
    current_key_index c < length (api_keys c) →
    let r :=
      retry_loop remaining guild channel_id user_message author_name
        (api_keys c !! current_key_index c) s in
    switched_to (trace_of r) =
    (λ j, (current_key_index c + j) `mod` length (api_keys c))
      <$> seq 1 (rotations (trace_of r)).
Proof.
  induction remaining as [|remaining IH]; intros s c Hlt r.
  - subst r. by rewrite retry_loop_0.
  - destruct (retry_loop_cases remaining guild channel_id user_message
                author_name (api_keys c !! current_key_index c) s)
      as [(content & _ & Hr)|[(e & _ & _ & Hr)|(e & _ & _ & Hlen & Hr)]];
      fold c in Hr; subst r; rewrite Hr; unfold trace_of; cbn [snd];
      [done..|].
    cbn [switched_to rotations seq]. rewrite fmap_cons. f_equal.
    fold c in Hlen.
    set (next_index := (current_key_index c + 1) `mod` length (api_keys c))
      in *.
    set (s' := put_guild_conf guild (with_current_key_index c next_index)
                 (put_backend _ s)) in *.
    assert (guild_conf guild s' = with_current_key_index c next_index)
      as Hc' by apply guild_conf_put_eq.
    specialize (IH s'). cbv zeta in IH. rewrite Hc' in IH.
    cbn [api_keys current_key_index with_current_key_index] in IH.
    unfold trace_of in IH. rewrite IH by (apply Nat.mod_upper_bound; lia).
    rewrite <- (fmap_S_seq 1), <- list_fmap_compose.
    apply list_fmap_ext. intros _ j _. cbn [compose].
    unfold next_index. rewrite Nat.Div0.add_mod_idemp_l. f_equal. lia.
Qed.

(** C10. With [N >= 2] credentials stored, a call whose [N] attempts all
    end in rate-limit-classified errors rotates the pool [N] times and
    returns the all-keys-exhausted text. The stored index goes once round
    the pool: the attempts are made, in this order, with the credentials
    at the start index, the one after it, and so on with wrap-around, that
    is with the whole pool rotated by the start index, each read from the
    index stored at that moment; the rotations store the [N] indices that
    follow the start index modulo [N], the last of which is the start
    index again. The credentials are untouched and the stored index ends
    where the call's initial read left it, which is the value it had when
    the call started whenever that value designated a credential. *)
Theorem generate_response_full_cycle guild channel_id user_message
    author_name s :
  let c := guild_conf guild s in
  let N := length (api_keys c) in
  let r := generate_response guild channel_id user_message author_name s in
  2 ≤ N →
  length (attempts (trace_of r)) = N →
  Forall rate_limited (attempts (trace_of r)) →
  rotations (trace_of r) = N ∧
  result_of r = all_keys_exhausted_message ∧
  keys_used (trace_of r) = Some <$> rotate (start_index c) (api_keys c) ∧
  switched_to (trace_of r) =
    (λ j, (start_index c + j) `mod` N) <$> seq 1 N ∧
  last (switched_to (trace_of r)) = Some (start_index c) ∧
  guild_conf guild (state_of r) = with_current_key_index c (start_index c) ∧
  (current_key_index c < N → guild_conf guild (state_of r) = c).
Proof.
  intros c N r HN Hm Hall.
  assert (api_keys c ≠ []) as Hne by (intros Hnil; subst N; rewrite Hnil in HN;
                                       simpl in HN; lia).
  destruct (get_current_api_key_start guild s Hne)
    as (Hc0 & Hstart & _ & Hatt0 & Hrot0 & _). fold c in Hc0, Hstart, Hatt0, Hrot0.
  pose proof (get_current_api_key_switched_to guild s) as Hsw0.
  assert (rotations (trace_of r) = N ∧
          result_of r = all_keys_exhausted_message ∧
          keys_used (trace_of r) =
            (λ j, api_keys c !! ((start_index c + j) `mod` N)) <$> seq 0 N ∧
          switched_to (trace_of r) =
            (λ j, (start_index c + j) `mod` N) <$> seq 1 N ∧
          guild_conf guild (state_of r) =
            with_current_key_index c (start_index c))
    as (Hrot & Hres & Hused & Hsw & Hst).
  { destruct (generate_response_loop guild channel_id user_message author_name
                s Hne) as [[_ Hr]|[_ Hr]]; fold c r in Hr; cbv zeta in Hr;
      apply run_eq in Hr as (Hres & Hsta & Htr); rewrite Htr in Hm, Hall |- *;
      rewrite Hres, Hsta.
    - rewrite Hatt0 in Hm. simpl in Hm. lia.
    - rewrite attempts_app, Hatt0 in Hm, Hall.
      rewrite rotations_app, Hrot0, keys_used_app, switched_to_app, Hsw0.
      unfold keys_used at 1. rewrite Hatt0.
      simpl in Hm, Hall |- *.
      set (s0 := state_of (get_current_api_key guild s)) in *.
      pose proof (retry_loop_counts (length (api_keys c)) guild channel_id
                    user_message author_name s0
                    (api_keys (guild_conf guild s0)
                       !! current_key_index (guild_conf guild s0)))
        as (_ & _ & Hc3 & Hc4).
      pose proof (retry_loop_state (length (api_keys c)) guild channel_id
                    user_message author_name s0) as Hs.
      pose proof (retry_loop_keys (length (api_keys c)) guild channel_id
                    user_message author_name s0) as Hk.
      pose proof (retry_loop_switched_to (length (api_keys c)) guild channel_id
                    user_message author_name s0) as Hw.
      cbv zeta in Hs, Hk, Hw.
      rewrite Hc0 in Hs, Hk, Hw, Hc3, Hc4, Hm, Hall |- *. simpl in *.
      destruct Hs as (Hs & _); [done|].
      specialize (Hk Hstart). specialize (Hw Hstart).
      assert (rotations
                (trace_of
                   (retry_loop (length (api_keys c)) guild channel_id
                      user_message author_name
                      (api_keys c !! start_index c) s0)) = N) as Hrot.
      { rewrite Hc4 by done. done. }
      split; [done|]. split; [by apply Hc3|].
      split; [by rewrite Hk, Hm|]. split; [by rewrite Hw, Hrot|].
      rewrite Hs, Hrot. unfold with_current_key_index; simpl. f_equal.
      subst N. replace (start_index c + length (api_keys c))
        with (start_index c + 1 * length (api_keys c)) by lia.
      rewrite Nat.Div0.mod_add. by apply Nat.mod_small. }
  split; [done|]. split; [done|].
  split; [rewrite Hused; by apply lookup_mod_rotate|].
  split; [done|]. split.
  { rewrite Hsw, fmap_last, last_lookup, length_seq.
    rewrite lookup_seq_lt by lia. cbn [fmap option_fmap option_map].
    f_equal. replace (start_index c + (1 + Nat.pred N))
      with (start_index c + 1 * N) by lia.
    rewrite Nat.Div0.mod_add. by apply Nat.mod_small. }
  split; [done|].
  intros Hlt. rewrite Hst. unfold start_index.
  destruct (decide _); [lia|]. apply with_current_key_index_id.
Qed.

Lemma result_of_run {A} (a : A) st t : result_of (a, st, t) = a.
Proof. reflexivity. Qed.

Lemma state_of_run {A} (a : A) st t : state_of (a, st, t) = st.
Proof. reflexivity. Qed.

Lemma trace_of_run {A} (a : A) st t : trace_of (a, st, t) = t.
Proof. reflexivity. Qed.

Lemma request_of_ext s1 s2 api_key channel_id user_message author_name :
  message_history s1 = message_history s2 →
  request_of s1 api_key channel_id user_message author_name =
  request_of s2 api_key channel_id user_message author_name.
Proof.
  intros Heq. unfold request_of, get_channel_context, result_of.
  rewrite Heq. by destruct (message_history s2 !! channel_id).
Qed.

Lemma switch_to_next_key_fails guild s :
  result_of (switch_to_next_key guild s) = false ↔
  length (api_keys (guild_conf guild s)) ≤ 1.
Proof.
  rewrite switch_to_next_key_run. cbv zeta.
  destruct (decide _); unfold result_of; simpl; split; (done || lia).
Qed.

Lemma truthy_nonempty_pool guild s :
  truthy (result_of (get_current_api_key guild s)) = true →
  api_keys (guild_conf guild s) ≠ [].
Proof.
  rewrite get_current_api_key_run. cbv zeta. intros Ht Hnil.
  by rewrite Hnil in Ht.
Qed.

(** C3. An attempt that raises an error whose lowered text contains none
    of "rate", "limit", "quota", or any error when [switch_to_next_key]
    reports no switch, ends the call at once: the loop returns the error
    prefix followed by the error text, having made that one backend call
    and no index write. In particular when this happens on the first
    attempt of [generate_response], the call makes exactly 1 attempt,
    rotates 0 times, returns the prefixed error text, and leaves the
    credentials and the index as the initial read left them. *)
Theorem generate_response_fatal guild channel_id user_message author_name s :
  (∀ remaining api_key e w,
     let req := request_of s api_key channel_id user_message author_name in
     chat_complete (backend s) req = (Raised e, w) →
     ¬ mentions_limit e ∨
     result_of (switch_to_next_key guild (put_backend w s)) = false →
     retry_loop (S remaining) guild channel_id user_message author_name
       api_key s =
     (error_prefix +:+ e, put_backend w s, [EvCall req (Raised e)])) ∧
  (∀ e w,
     let k := get_current_api_key guild s in
     let req :=
       request_of s (result_of k) channel_id user_message author_name in
     let r := generate_response guild channel_id user_message author_name s in
     truthy (result_of k) = true →
     chat_complete (backend s) req = (Raised e, w) →
     ¬ mentions_limit e ∨
     result_of (switch_to_next_key guild (put_backend w s)) = false →
     result_of r = error_prefix +:+ e ∧
     attempts (trace_of r) = [(req, Raised e)] ∧
     rotations (trace_of r) = 0 ∧
     state_of r = put_backend w (state_of k) ∧
     api_keys (guild_conf guild (state_of r)) = api_keys (guild_conf guild s) ∧
     current_key_index (guild_conf guild (state_of r)) =
       start_index (guild_conf guild s)).
Proof.
  split.
  - intros remaining api_key e w req Hcall Hfatal.
    rewrite <- is_rate_limit_error_false in Hfatal.
    by apply retry_loop_fatal.
  - intros e w k req r Htruthy Hcall Hfatal.
    rewrite <- is_rate_limit_error_false in Hfatal.
    pose proof (truthy_nonempty_pool guild s Htruthy) as Hne.
    destruct (get_current_api_key_start guild s Hne)
      as (Hc0 & Hstart & Hres0 & Hatt0 & Hrot0 & _ & Hhist & Hback & _).
    fold k in Hc0, Hres0, Hatt0, Hrot0, Hhist, Hback.
    set (c := guild_conf guild s) in *.
    destruct (generate_response_loop guild channel_id user_message author_name
                s Hne) as [[Hf _]|[_ Hr]]; [fold k in Hf; congruence|].
    fold c k r in Hr.
    cbv zeta in Hr. rewrite Hc0 in Hr. simpl in Hr. rewrite <- Hres0 in Hr.
    destruct (length (api_keys c)) as [|n] eqn:Hlen; [simpl in *; lia|].
    rewrite (retry_loop_fatal n guild channel_id user_message author_name
               (result_of k) (state_of k) e w) in Hr.
    + rewrite result_of_run, state_of_run, trace_of_run in Hr.
      apply run_eq in Hr as (Hres & Hsta & Htr).
      rewrite Hres, Hsta, Htr, attempts_app, rotations_app, Hatt0, Hrot0.
      rewrite guild_conf_put_backend, Hc0. simpl.
      rewrite (request_of_ext (state_of k) s) by done. done.
    + rewrite Hback, (request_of_ext (state_of k) s) by done. done.
    + destruct Hfatal as [Hrate|Hsw]; [by left|right].
      apply switch_to_next_key_fails.
      apply switch_to_next_key_fails in Hsw.
      rewrite guild_conf_put_backend in Hsw |- *. rewrite Hc0. done.
Qed.

Local Arguments retry_loop : simpl never.

(** C1. Three credentials, the call starting at the first one (stored
    index 0, or out of range and therefore clamped to 0), the backend
    answering the first two credentials with rate-limit-classified errors
    and the third with a completion: [generate_response] makes exactly 3
    attempts, with credentials 1, 2 and 3 in that order, rotates exactly
    twice, returns the completion text as the backend gave it, and leaves
    the stored index at 2, the position of credential 3. *)
Theorem generate_response_failover guild channel_id user_message author_name
    s k1 k2 k3 :
  let c := guild_conf guild s in
  let r := generate_response guild channel_id user_message author_name s in
  api_keys c = [k1; k2; k3] →
  start_index c = 0 →
  k1 ≠ "" →
  (∀ w req, req_api_key req = Some k1 →
     ∃ e, (chat_complete w req).1 = Raised e ∧ is_rate_limit_error e = true) →
  (∀ w req, req_api_key req = Some k2 →
     ∃ e, (chat_complete w req).1 = Raised e ∧ is_rate_limit_error e = true) →
  (∀ w req, req_api_key req = Some k3 →
     ∃ content, (chat_complete w req).1 = Completion content) →
  ∃ req1 req2 req3 e1 e2 content,
    attempts (trace_of r) =
      [(req1, Raised e1); (req2, Raised e2); (req3, Completion content)] ∧
    req_api_key req1 = Some k1 ∧ req_api_key req2 = Some k2 ∧
    req_api_key req3 = Some k3 ∧
    is_rate_limit_error e1 = true ∧ is_rate_limit_error e2 = true ∧
    rotations (trace_of r) = 2 ∧
    result_of r = content ∧
    api_keys (guild_conf guild (state_of r)) = [k1; k2; k3] ∧
    current_key_index (guild_conf guild (state_of r)) = 2 ∧
    api_keys (guild_conf guild (state_of r))
      !! current_key_index (guild_conf guild (state_of r)) = Some k3.
Proof.
  intros c r Hkeys Hstart Hk1 H1 H2 H3.
  assert (api_keys c ≠ []) as Hne by (by rewrite Hkeys).
  destruct (get_current_api_key_start guild s Hne)
    as (Hc0 & _ & Hres0 & Hatt0 & Hrot0 & _).
  fold c in Hc0, Hres0, Hatt0, Hrot0.
  rewrite Hstart in Hc0, Hres0. rewrite Hkeys in Hres0. simpl in Hres0.
  destruct (generate_response_loop guild channel_id user_message author_name
              s Hne) as [[Hf _]|[_ Hr]].
  { rewrite Hres0 in Hf. by destruct k1. }
  fold c r in Hr.
  cbv zeta in Hr. rewrite Hc0 in Hr. simpl in Hr. rewrite Hkeys in Hr.
  simpl in Hr.
  set (s0 := state_of (get_current_api_key guild s)) in *.
  (* first attempt *)
  set (req1 := request_of s0 (Some k1) channel_id user_message author_name).
  destruct (chat_complete (backend s0) req1) as [resp1 w1] eqn:Hcall1.
  destruct (H1 (backend s0) req1 eq_refl) as (e1 & He1 & Hrate1).
  rewrite Hcall1 in He1. simpl in He1. subst resp1.
  rewrite (retry_loop_retry 2 guild channel_id user_message author_name
             (Some k1) s0 e1 w1 Hcall1 Hrate1) in Hr
    by (rewrite Hc0; simpl; rewrite Hkeys; simpl; lia).
  rewrite Hc0 in Hr. simpl in Hr. rewrite Hkeys in Hr. simpl in Hr.
  change (1 `mod` 3) with 1 in Hr. simpl in Hr.
  set (s1 := put_guild_conf guild
               (with_current_key_index (with_current_key_index c 0) 1)
               (put_backend w1 s0)) in *.
  assert (guild_conf guild s1 =
          with_current_key_index (with_current_key_index c 0) 1) as Hc1
    by apply guild_conf_put_eq.
  (* second attempt *)
  set (req2 := request_of s1 (Some k2) channel_id user_message author_name).
  destruct (chat_complete (backend s1) req2) as [resp2 w2] eqn:Hcall2.
  destruct (H2 (backend s1) req2 eq_refl) as (e2 & He2 & Hrate2).
  rewrite Hcall2 in He2. simpl in He2. subst resp2.
  rewrite (retry_loop_retry 1 guild channel_id user_message author_name
             (Some k2) s1 e2 w2 Hcall2 Hrate2) in Hr
    by (rewrite Hc1; simpl; rewrite Hkeys; simpl; lia).
  rewrite Hc1 in Hr. simpl in Hr. rewrite Hkeys in Hr. simpl in Hr.
  change (2 `mod` 3) with 2 in Hr. simpl in Hr.
  set (s2 := put_guild_conf guild _ (put_backend w2 s1)) in *.
  (* third attempt *)
  set (req3 := request_of s2 (Some k3) channel_id user_message author_name).
  destruct (chat_complete (backend s2) req3) as [resp3 w3] eqn:Hcall3.
  destruct (H3 (backend s2) req3 eq_refl) as (content & He3).
  rewrite Hcall3 in He3. simpl in He3. subst resp3.
  rewrite (retry_loop_success 0 guild channel_id user_message author_name
             (Some k3) s2 content w3 Hcall3) in Hr.
  rewrite !result_of_run, !state_of_run, !trace_of_run in Hr.
  apply run_eq in Hr as (Hres & Hsta & Htr).
  exists req1, req2, req3, e1, e2, content.
  rewrite Htr, Hres, Hsta, attempts_app, rotations_app, Hatt0, Hrot0.
  rewrite guild_conf_put_backend. unfold s2. rewrite guild_conf_put_eq.
  simpl. rewrite Hkeys. done.
Qed.

(** ** The cog as a state machine *)

Lemma pool_inv_with_index c i :
  pool_inv c → i < length (api_keys c) → pool_inv (with_current_key_index c i).
Proof. intros (Hs & Hu & _) Hi. repeat split; [done..|by left]. Qed.

Lemma switch_to_next_key_effect guild guild' s :
  let s' := state_of (switch_to_next_key guild s) in
  message_history s' = message_history s ∧
  (guild_conf guild' s' = guild_conf guild' s ∨
   ∃ i, i < length (api_keys (guild_conf guild' s)) ∧
        guild_conf guild' s' = with_current_key_index (guild_conf guild' s) i).
Proof.
  rewrite switch_to_next_key_run. cbv zeta.
  destruct (decide _) as [Hle|Hgt]; unfold state_of; simpl; [by split; [|left]|].
  split; [done|].
  destruct (decide (guild = guild')) as [->|Hne].
  - right. eexists. rewrite guild_conf_put_eq. split; [|done].
    apply Nat.mod_upper_bound. lia.
  - left. by apply guild_conf_put_ne.
Qed.

Lemma remove_api_key_effect guild guild' key_number s :
  let s' := state_of (remove_api_key guild key_number s) in
  message_history s' = message_history s ∧
  (pool_inv (guild_conf guild' s) → pool_inv (guild_conf guild' s')).
Proof.
  rewrite remove_api_key_run. cbv zeta.
  set (c := guild_conf guild s).
  destruct (bool_decide (key_number < 1)%Z ||
            bool_decide (Z.of_nat (length (api_keys c)) < key_number)%Z)
    eqn:Hrange; [done|].
  apply orb_false_iff in Hrange as [H1%bool_decide_eq_false H2%bool_decide_eq_false].
  set (keys' := delete (Z.to_nat (key_number - 1)) (api_keys c)).
  assert (length keys' = length (api_keys c) - 1) as Hlen.
  { apply length_delete, lookup_lt_is_Some_2. lia. }
  assert (pool_inv c →
          length keys' ≤ 8 ∧ NoDup keys' ∧
          (keys' = [] → current_key_index c = 0)) as Hkeys.
  { intros (Hs & Hu & Hi). split; [lia|]. split.
    - eapply sublist_NoDup; [done|apply sublist_delete].
    - intros Hnil. rewrite Hnil in Hlen. simpl in Hlen. destruct Hi as [|[_ ?]]; lia. }
  destruct (bool_decide (length keys' ≤ current_key_index c)) eqn:Hge;
    destruct (bool_decide (0 < length keys')) eqn:Hpos;
    unfold state_of; simpl; (split; [done|]);
    (destruct (decide (guild = guild')) as [<-|Hne];
     [rewrite ?guild_conf_put_eq|by rewrite ?guild_conf_put_ne by done]);
    fold c; intros Hinv; destruct (Hkeys Hinv) as (Hs' & Hu' & Hz);
    try apply bool_decide_eq_true in Hge;
    try apply bool_decide_eq_false in Hge;
    try apply bool_decide_eq_true in Hpos;
    try apply bool_decide_eq_false in Hpos;
    (repeat split; [done|done|]); simpl.
  - left. lia.
  - right. split; [|apply Hz]; destruct keys'; simpl in *; (done || lia).
  - left. lia.
  - destruct keys'; simpl in *; [right; split; [done|by apply Hz]|left; lia].
Qed.

Lemma add_api_key_history guild api_key s :
  message_history (state_of (add_api_key guild api_key s)) = message_history s.
Proof.
  rewrite add_api_key_run. cbv zeta. by repeat destruct (decide _).
Qed.

Lemma generate_response_empty_pool guild channel_id user_message author_name s :
  api_keys (guild_conf guild s) = [] →
  generate_response guild channel_id user_message author_name s =
  (no_key_message, s, []).
Proof.
  intros Hempty. rewrite generate_response_run, get_current_api_key_run.
  cbv zeta. by rewrite Hempty.
Qed.

Lemma generate_response_effect guild guild' channel_id user_message
    author_name s :
  let s' :=
    state_of (generate_response guild channel_id user_message author_name s) in
  message_history s' = message_history s ∧
  (guild_conf guild' s' = guild_conf guild' s ∨
   ∃ i, i < length (api_keys (guild_conf guild' s)) ∧
        guild_conf guild' s' = with_current_key_index (guild_conf guild' s) i).
Proof.
  set (c := guild_conf guild s).
  destruct (decide (api_keys c = [])) as [Hnil|Hne].
  { rewrite (generate_response_empty_pool guild channel_id user_message
               author_name s Hnil).
    by split; [|left]. }
  destruct (get_current_api_key_start guild s Hne)
    as (Hc0 & Hstart & _ & _ & _ & _ & Hhist & _ & Hother).
  fold c in Hc0, Hstart.
  set (k := get_current_api_key guild s) in *.
  assert (guild_conf guild' (state_of k) = guild_conf guild' s ∨
          ∃ i, i < length (api_keys (guild_conf guild' s)) ∧
               guild_conf guild' (state_of k) =
               with_current_key_index (guild_conf guild' s) i) as Hk.
  { destruct (decide (guild' = guild)) as [->|Hg]; [right|left; by apply Hother].
    exists (start_index c). by rewrite Hc0. }
  destruct (generate_response_loop guild channel_id user_message author_name
              s Hne) as [[_ Hr]|[_ Hr]]; fold c k in Hr; cbv zeta in Hr;
    apply run_eq in Hr as (_ & Hsta & _); cbv zeta; rewrite Hsta; [done|].
  rewrite Hc0. simpl.
  pose proof (retry_loop_state (length (api_keys c)) guild channel_id
                user_message author_name (state_of k)) as Hl.
  cbv zeta in Hl. rewrite Hc0 in Hl. simpl in Hl.
  destruct (Hl Hstart) as (Hl1 & Hl2 & Hl3).
  split; [by rewrite Hl2|].
  destruct (decide (guild' = guild)) as [->|Hg].
  - right. eexists. rewrite Hl1. split; [|done].
    apply Nat.mod_upper_bound. unfold c in *. lia.
  - rewrite Hl3 by done. done.
Qed.

Lemma deque_append_inv d author content :
  d = [] ∨ history_inv d →
  history_inv (deque_append history_maxlen d (history_line author content)).
Proof.
  intros Hd.
  assert (length d ≤ history_maxlen ∧ Forall (λ l, l ≠ "") d) as [Hlen Hall].
  { destruct Hd as [->|(_ & Hlen & Hall)]; [|done].
    split; [simpl; lia|apply Forall_nil_2]. }
  rewrite deque_append_last_n by done. repeat split.
  - intros Hnil. apply (f_equal length) in Hnil.
    rewrite length_last_n, length_app in Hnil. cbn [length] in Hnil.
    unfold history_maxlen in *. lia.
  - rewrite length_last_n. lia.
  - unfold last_n. apply Forall_drop, Forall_app. split; [done|].
    apply Forall_singleton, history_line_nonempty.
Qed.

Lemma switch_key_state guild s :
  state_of (switch_key guild s) = state_of (switch_to_next_key guild s).
Proof.
  unfold switch_key, bind.
  destruct (switch_to_next_key guild s) as [[[] s'] t]; reflexivity.
Qed.

Lemma run_op_inv op s : cog_inv s → cog_inv (run_op op s).
Proof.
  intros [Hpool Hhist]. destruct op as [ch author content|ch|g key|g n|g|g ch m a];
    simpl.
  - split; [done|]. intros ch' d.
    rewrite add_message_to_history_lookup.
    destruct (decide (ch = ch')) as [->|_]; [|apply Hhist].
    intros [= <-]. apply deque_append_inv.
    destruct (message_history s !! ch') as [d'|] eqn:Hd; simpl; [|by left].
    right. by apply (Hhist ch' d').
  - unfold clear_history.
    destruct (message_history s !! ch) eqn:Hch; unfold state_of;
      cbn [fst snd message_history]; [|done].
    split; [done|]. intros ch' d. cbn [message_history].
    destruct (decide (ch = ch')) as [->|Hne].
    + by rewrite lookup_delete_eq.
    + rewrite lookup_delete_ne by done. apply Hhist.
  - split; [|by rewrite add_api_key_history].
    intros g'. specialize (Hpool g').
    destruct (add_api_key_conf g g' key s) as [->|(-> & Hlen & Hin & ->)];
      [done|].
    destruct Hpool as (Hs & Hu & Hi).
    unfold pool_inv; simpl. rewrite length_app; simpl.
    split; [lia|]. split; [|left; destruct Hi as [|[_ ->]]; lia].
    apply NoDup_app. repeat split; [done| |apply NoDup_singleton].
    by intros x Hx ->%list_elem_of_singleton.
  - split.
    + intros g'. by apply remove_api_key_effect.
    + destruct (remove_api_key_effect g g n s) as [-> _]. done.
  - rewrite switch_key_state. split.
    + intros g'. specialize (Hpool g').
      destruct (switch_to_next_key_effect g g' s) as [_ [->|(i & Hi & ->)]];
        [done|by apply pool_inv_with_index].
    + destruct (switch_to_next_key_effect g g s) as [-> _]. done.
  - split.
    + intros g'. specialize (Hpool g').
      destruct (generate_response_effect g g' ch m a s)
        as [_ [->|(i & Hi & ->)]];
        [done|by apply pool_inv_with_index].
    + destruct (generate_response_effect g g ch m a s) as [-> _]. done.
Qed.

Lemma fresh_cog_inv w : cog_inv (fresh_cog w).
Proof.
  split.
  - intros g. unfold guild_conf, fresh_cog; simpl. rewrite lookup_empty; simpl.
    repeat split; simpl; [lia|apply NoDup_nil_2|by right].
  - intros ch d. unfold fresh_cog; simpl. by rewrite lookup_empty.
Qed.

(** The invariant holds in every state the cog can reach. *)
Lemma run_ops_inv ops s : cog_inv s → cog_inv (run_ops ops s).
Proof.
  revert s. induction ops as [|op ops IH]; intros s Hinv; [done|].
  simpl. by apply IH, run_op_inv.
Qed.

Lemma reachable_inv ops w : cog_inv (run_ops ops (fresh_cog w)).
Proof. apply run_ops_inv, fresh_cog_inv. Qed.

(** So in every reachable cog a non-empty pool has its index in range: the
    initial read of [generate_response] never has to clamp, and the
    credentials are pairwise distinct. *)
Lemma reachable_pool ops w guild :
  let c := guild_conf guild (run_ops ops (fresh_cog w)) in
  length (api_keys c) ≤ 8 ∧ NoDup (api_keys c) ∧
  (api_keys c ≠ [] →
     current_key_index c < length (api_keys c) ∧
     start_index c = current_key_index c).
Proof.
  intros c. destruct (reachable_inv ops w) as [Hpool _].
  destruct (Hpool guild) as (Hs & Hu & Hi). fold c in Hs, Hu, Hi.
  split; [done|]. split; [done|]. intros Hne.
  destruct Hi as [Hi|[Hnil _]]; [|done].
  split; [done|]. unfold start_index. destruct (decide _); [lia|done].
Qed.

(** And the context of a channel is never the empty string. *)
Lemma reachable_context_nonempty ops w channel_id :
  result_of (get_channel_context channel_id (run_ops ops (fresh_cog w))) ≠ "".
Proof.
  destruct (reachable_inv ops w) as [_ Hhist].
  unfold get_channel_context, result_of.
  destruct (message_history _ !! channel_id) as [d|] eqn:Hd; [|done].
  destruct (Hhist channel_id d Hd) as (Hne & _ & Hall). cbn [fst].
  assert (length (last_n 30 d) ≠ 0) as Hlen.
  { rewrite length_last_n. destruct d; [done|]. cbn [length]. lia. }
  assert (Forall (λ l, l ≠ "") (last_n 30 d)) as Hall'
    by (by apply Forall_drop).
  destruct (last_n 30 d) as [|x xs]; [done|].
  apply join_nonempty. by inversion Hall'.
Qed.

(** * Further properties *)

(** ** The bounded history *)

(** X1. Recording keeps the newest 50 lines of a channel: from a stored
    history of at most 50 lines, after any run of messages the channel
    holds exactly the last 50 of the old lines followed by the new ones,
    so the oldest are the ones evicted and the length never exceeds 50. *)
Theorem history_keeps_last_50 channel_id msgs s :
  let d := default [] (message_history s !! channel_id) in
  let ls := lines_of channel_id msgs in
  let d' := default [] (message_history (record_all msgs s) !! channel_id) in
  length d ≤ 50 →
  d' = last_n 50 (d ++ ls) ∧
  length d' = 50 `min` (length d + length ls) ∧
  (∃ evicted, d ++ ls = evicted ++ d' ∧
              length evicted = length d + length ls - 50) ∧
  (ls ≠ [] → message_history (record_all msgs s) !! channel_id = Some d').
Proof.
  intros d ls d' Hlen.
  pose proof (record_all_lookup channel_id msgs s Hlen) as Hlook.
  fold ls d in Hlook.
  assert (d' = last_n 50 (d ++ ls)) as Hd'.
  { subst d'. rewrite Hlook. destruct ls as [|l ls'] eqn:Hls; [|done].
    rewrite app_nil_r. fold d. unfold last_n.
    by replace (length d - 50) with 0 by lia. }
  split; [done|]. split; [|split].
  - rewrite Hd', length_last_n, length_app. done.
  - exists (take (length (d ++ ls) - 50) (d ++ ls)). split.
    + rewrite Hd'. unfold last_n. by rewrite take_drop.
    + rewrite length_take, length_app. lia.
  - intros Hne. rewrite Hlook, Hd'. by destruct ls.
Qed.

(** X2. Clearing a channel forgets it and nothing else: afterwards the
    channel has no history and its context is the sentinel text, the other
    channels and the configuration are untouched, no action is recorded,
    and messages recorded from then on are rendered as in a channel that
    never had a history. Clearing a channel without history changes
    nothing. *)
Theorem clear_history_resets channel_id msgs s :
  let r := clear_history channel_id s in
  message_history (state_of r) !! channel_id = None ∧
  (∀ ch, ch ≠ channel_id →
     message_history (state_of r) !! ch = message_history s !! ch) ∧
  config (state_of r) = config s ∧
  backend (state_of r) = backend s ∧
  trace_of r = [] ∧
  (message_history s !! channel_id = None → state_of r = s) ∧
  result_of (get_channel_context channel_id (state_of r)) =
    no_history_message ∧
  result_of (get_channel_context channel_id (record_all msgs (state_of r))) =
    match lines_of channel_id msgs with
    | [] => no_history_message
    | ls => join newline (last_n 30 ls)
    end.
Proof.
  intros r.
  assert (message_history (state_of r) !! channel_id = None) as Hnone.
  { subst r. unfold clear_history.
    destruct (message_history s !! channel_id) eqn:Hch;
      unfold state_of; cbn [fst snd message_history]; [|done].
    apply lookup_delete_eq. }
  split; [done|]. repeat split.
  - intros ch Hne. subst r. unfold clear_history.
    destruct (message_history s !! channel_id);
      unfold state_of; cbn [fst snd message_history]; [|done].
    by apply lookup_delete_ne.
  - subst r. unfold clear_history.
    by destruct (message_history s !! channel_id).
  - subst r. unfold clear_history.
    by destruct (message_history s !! channel_id).
  - subst r. unfold clear_history.
    by destruct (message_history s !! channel_id).
  - intros Habs. subst r. unfold clear_history. by rewrite Habs.
  - unfold get_channel_context, result_of. by rewrite Hnone.
  - unfold get_channel_context, result_of.
    rewrite record_all_lookup; rewrite Hnone; [|simpl; lia].
    destruct (lines_of channel_id msgs) as [|l ls]; [done|].
    cbn [fst default app]. f_equal. apply last_n_last_n.
    unfold history_maxlen. lia.
Qed.

(** ** Credential commands in sequence *)

Lemma delete_app_last {A} (l : list A) x : delete (length l) (l ++ [x]) = l.
Proof. induction l as [|a l IH]; simpl; [done|by rewrite IH]. Qed.

(** X3. Adding a credential and then removing the key number it was
    given puts the credentials back as they were, in every guild; the
    whole configuration is back when the stored index was not dangling
    (the pool was empty or the index designated a credential), and
    otherwise the removal has reset the dangling index to 0. *)
Theorem add_then_remove_restores guild api_key s :
  let c := guild_conf guild s in
  let s1 := state_of (add_api_key guild api_key s) in
  let s2 :=
    state_of (remove_api_key guild (Z.of_nat (length (api_keys c)) + 1) s1) in
  length (api_keys c) < 8 → api_key ∉ api_keys c →
  api_keys (guild_conf guild s1) = api_keys c ++ [api_key] ∧
  api_keys (guild_conf guild s2) = api_keys c ∧
  (api_keys c = [] ∨ current_key_index c < length (api_keys c) →
     guild_conf guild s2 = c) ∧
  (api_keys c ≠ [] → length (api_keys c) ≤ current_key_index c →
     guild_conf guild s2 = with_current_key_index c 0) ∧
  (∀ guild', guild' ≠ guild → guild_conf guild' s2 = guild_conf guild' s) ∧
  message_history s2 = message_history s ∧
  backend s2 = backend s.
Proof.
  intros c s1 s2 Hlen Hin.
  assert (s1 = put_guild_conf guild
                 (with_api_keys c (api_keys c ++ [api_key])) s) as Hs1.
  { subst s1. rewrite add_api_key_run. cbv zeta. fold c.
    destruct (decide (8 ≤ _)); [lia|]. by destruct (decide (api_key ∈ _)). }
  assert (guild_conf guild s1 = with_api_keys c (api_keys c ++ [api_key]))
    as Hc1 by (rewrite Hs1; apply guild_conf_put_eq).
  set (keys' := delete (Z.to_nat (Z.of_nat (length (api_keys c)) + 1 - 1))
                  (api_keys c ++ [api_key])).
  assert (keys' = api_keys c) as Hkeys'.
  { unfold keys'.
    replace (Z.to_nat (Z.of_nat (length (api_keys c)) + 1 - 1))
      with (length (api_keys c)) by lia.
    apply delete_app_last. }
  pose proof (remove_api_key_run guild (Z.of_nat (length (api_keys c)) + 1) s1)
    as Hrun.
  cbv zeta in Hrun. rewrite Hc1 in Hrun.
  cbn [api_keys current_key_index with_api_keys] in Hrun.
  rewrite (bool_decide_eq_false_2 (_ < 1)%Z) in Hrun by lia.
  rewrite (bool_decide_eq_false_2 (_ < _ + 1)%Z) in Hrun
    by (rewrite length_app; simpl; lia).
  cbn [orb] in Hrun. fold keys' in Hrun. rewrite Hkeys' in Hrun.
  assert (with_api_keys (with_api_keys c (api_keys c ++ [api_key]))
            (api_keys c) = c) as Hback by (by destruct c).
  rewrite Hback in Hrun.
  split; [by rewrite Hc1|].
  destruct (bool_decide (length (api_keys c) ≤ current_key_index c) &&
            bool_decide (0 < length (api_keys c))) eqn:Hreset.
  - apply andb_true_iff in Hreset as [Hge%bool_decide_eq_true
                                       Hpos%bool_decide_eq_true].
    apply run_eq in Hrun as (_ & Hsta & _). fold s2 in Hsta.
    assert (guild_conf guild s2 = with_current_key_index c 0) as Hc2
      by (rewrite Hsta; apply guild_conf_put_eq).
    split; [by rewrite Hc2|]. split; [|split; [done|split; [|by rewrite Hsta, Hs1]]].
    + intros [Hnil|Hlt]; [rewrite Hnil in Hpos; simpl in Hpos|]; lia.
    + intros guild' Hne. rewrite Hsta, Hs1.
      by rewrite !guild_conf_put_ne by done.
  - apply andb_false_iff in Hreset.
    apply run_eq in Hrun as (_ & Hsta & _). fold s2 in Hsta.
    assert (guild_conf guild s2 = c) as Hc2
      by (rewrite Hsta; apply guild_conf_put_eq).
    split; [by rewrite Hc2|]. split; [done|]. split; [|split; [|by rewrite Hsta, Hs1]].
    + intros Hne Hge. exfalso. apply nonempty_length in Hne.
      destruct Hreset as [H%bool_decide_eq_false|H%bool_decide_eq_false]; lia.
    + intros guild' Hne. rewrite Hsta, Hs1.
      by rewrite !guild_conf_put_ne by done.
Qed.

(** X4. Which credential is current after a removal. With the stored
    index in range: removing a key after the current one leaves the
    current credential in place; removing the current key or one before
    it, when the current key is not the last, leaves the index where it
    was, so the credential that followed becomes current; when the
    current key is the last of at least 2, the index goes to 0 and the
    first remaining credential becomes current; removing the only key
    leaves no current credential. *)
Theorem remove_api_key_current guild key_number s :
  let c := guild_conf guild s in
  let keys := api_keys c in
  let i := current_key_index c in
  let p := Z.to_nat key_number - 1 in
  let s' := state_of (remove_api_key guild key_number s) in
  let current := result_of (get_current_api_key guild s') in
  (1 ≤ key_number ≤ Z.of_nat (length keys))%Z →
  i < length keys →
  (i < p → current = keys !! i ∧ is_Some (keys !! i)) ∧
  (p ≤ i → i + 1 < length keys →
     current = keys !! (i + 1) ∧ is_Some (keys !! (i + 1))) ∧
  (i + 1 = length keys → 2 ≤ length keys →
     current = delete p keys !! 0 ∧ is_Some (delete p keys !! 0) ∧
     current_key_index (guild_conf guild s') = 0) ∧
  (length keys = 1 → current = None).
Proof.
  intros c keys i p s' current Hvalid Hi.
  destruct (remove_api_key_valid guild key_number s Hvalid) as [_ Hconf].
  fold c s' in Hconf. fold keys i in Hconf.
  replace (Z.to_nat (key_number - 1)) with p in Hconf by lia.
  set (keys' := delete p keys) in *.
  assert (length keys' = length keys - 1) as Hlen
    by (apply length_delete, lookup_lt_is_Some_2; lia).
  assert (p < length keys) as Hp by lia.
  pose proof (get_current_api_key_run guild s') as Hrun.
  cbv zeta in Hrun. rewrite Hconf in Hrun.
  cbn [api_keys current_key_index with_current_key_index with_api_keys]
    in Hrun.
  fold current in Hrun.
  repeat split.
  - destruct (decide (length keys' ≤ i ∧ keys' ≠ [])) as [[? ?]|_]; [lia|].
    destruct keys' as [|k ks] eqn:Hk; [simpl in Hlen; lia|].
    destruct (decide (length (k :: ks) ≤ i)); [lia|].
    subst current. rewrite Hrun. unfold result_of; cbn [fst].
    rewrite <- Hk. unfold keys'. by apply list_lookup_delete_lt.
  - apply lookup_lt_is_Some_2. lia.
  - destruct (decide (length keys' ≤ i ∧ keys' ≠ [])) as [[? ?]|_]; [lia|].
    destruct keys' as [|k ks] eqn:Hk; [simpl in Hlen; lia|].
    destruct (decide (length (k :: ks) ≤ i)); [lia|].
    subst current. rewrite Hrun. unfold result_of; cbn [fst].
    rewrite <- Hk. unfold keys'. rewrite list_lookup_delete_ge by done. f_equal. lia.
  - apply lookup_lt_is_Some_2. lia.
  - destruct (decide (length keys' ≤ i ∧ keys' ≠ [])) as [_|Hno].
    + destruct keys' as [|k ks] eqn:Hk; [simpl in Hlen; lia|].
      destruct (decide (length (k :: ks) ≤ 0)); [simpl in *; lia|].
      subst current. by rewrite Hrun.
    + exfalso. apply Hno. split; [lia|]. apply nonempty_length. lia.
  - apply lookup_lt_is_Some_2. lia.
  - rewrite Hconf. cbn [current_key_index with_current_key_index].
    destruct (decide (length keys' ≤ i ∧ keys' ≠ [])) as [_|Hno]; [done|].
    exfalso. apply Hno. split; [lia|]. apply nonempty_length. lia.
  - intros H1. destruct keys' as [|k ks] eqn:Hk; [|simpl in Hlen; lia].
    subst current. by rewrite Hrun.
Qed.

Lemma switch_key_run guild s :
  switch_key guild s =
  let c := guild_conf guild s in
  if decide (length (api_keys c) ≤ 1)
  then ("❌ Only one API key available, cannot switch!", s, [])
  else
    let next_index := (current_key_index c + 1) `mod` length (api_keys c) in
    ("✅ Switched to API key #" +:+ str_of_nat (next_index + 1),
     put_guild_conf guild (with_current_key_index c next_index) s,
     [EvSwitch guild next_index]).
Proof.
  unfold switch_key, bind. rewrite switch_to_next_key_run. cbv zeta.
  destruct (decide _); [done|].
  unfold cfg_current_key_index, ret. cbn [app].
  by rewrite guild_conf_put_eq.
Qed.

(** X5. The [aiswitchkey] command announces the credential that is used
    next: with at least 2 credentials it answers with the 1-based number
    of the new position, and the following read of the current credential
    returns the credential at that position without any further write;
    with fewer than 2 it answers that it cannot switch and changes
    nothing. *)
Theorem switch_key_announces guild s :
  let c := guild_conf guild s in
  let k := length (api_keys c) in
  let r := switch_key guild s in
  let i' := (current_key_index c + 1) `mod` k in
  (k < 2 →
     r = ("❌ Only one API key available, cannot switch!", s, [])) ∧
  (2 ≤ k →
     result_of r = "✅ Switched to API key #" +:+ str_of_nat (i' + 1) ∧
     trace_of r = [EvSwitch guild i'] ∧
     get_current_api_key guild (state_of r) =
       (api_keys c !! i', state_of r, []) ∧
     is_Some (api_keys c !! i')).
Proof.
  intros c k r i'. subst r. rewrite switch_key_run. cbv zeta. fold c k.
  destruct (decide (k ≤ 1)) as [Hle|Hgt].
  - split; [done|lia].
  - split; [lia|]. intros _. fold i'.
    rewrite result_of_run, state_of_run, trace_of_run.
    assert (i' < k) as Hi' by (apply Nat.mod_upper_bound; lia).
    split; [done|]. split; [done|]. split; [|by apply lookup_lt_is_Some_2].
    rewrite get_current_api_key_run. cbv zeta. rewrite guild_conf_put_eq.
    cbn [api_keys current_key_index with_current_key_index].
    unfold k in Hi', Hgt.
    destruct (api_keys c) as [|key keys] eqn:Hkeys; [simpl in *; lia|].
    destruct (decide (length (key :: keys) ≤ i')); [lia|reflexivity].
Qed.

Lemma current_after_lookup guild s j :
  2 ≤ length (api_keys (guild_conf guild s)) →
  current_key_index (guild_conf guild s) <
    length (api_keys (guild_conf guild s)) →
  current_after j guild s =
  api_keys (guild_conf guild s)
    !! ((current_key_index (guild_conf guild s) + j)
          `mod` length (api_keys (guild_conf guild s))).
Proof.
  intros Hk Hi. unfold current_after. rewrite get_current_api_key_run.
  cbv zeta. rewrite rotate_times_conf by done.
  cbn [api_keys current_key_index with_current_key_index].
  set (c := guild_conf guild s) in *.
  assert ((current_key_index c + j) `mod` length (api_keys c) <
          length (api_keys c)) as Hlt by (apply Nat.mod_upper_bound; lia).
  destruct (api_keys c) as [|key keys]; [simpl in *; lia|].
  destruct (decide _); [lia|reflexivity].
Qed.

(** X6. Rotation is round robin: with at least 2 credentials and the
    stored index in range, the credentials that are current after 0, 1,
    ..., k-1 rotations are the pool read from the current position and
    wrapped around, so each credential is current exactly once per
    cycle. *)
Theorem rotation_round_robin guild s :
  let c := guild_conf guild s in
  let keys := api_keys c in
  let k := length keys in
  let i := current_key_index c in
  2 ≤ k → i < k →
  (λ j, current_after j guild s) <$> seq 0 k = Some <$> rotate i keys ∧
  (λ j, current_after j guild s) <$> seq 0 k ≡ₚ Some <$> keys.
Proof.
  intros c keys k i Hk Hi.
  assert ((λ j, current_after j guild s) <$> seq 0 k = Some <$> rotate i keys)
    as Heq.
  { apply list_eq. intros j. rewrite !list_lookup_fmap.
    destruct (decide (j < k)) as [Hj|Hj].
    - rewrite lookup_seq_lt by done. cbn [fmap option_fmap option_map plus].
      rewrite current_after_lookup by done. fold c keys k i.
      rewrite lookup_rotate_r by done. fold k.
      unfold rotate_nat_add.
      replace (Z.to_nat ((Z.of_nat i + Z.of_nat j) `mod` Z.of_nat k))
        with ((i + j) `mod` k)
        by (rewrite <- Nat2Z.inj_add, <- Nat2Z.inj_mod; lia).
      destruct (lookup_lt_is_Some_2 keys ((i + j) `mod` k)) as [x Hx];
        [apply Nat.mod_upper_bound; lia|].
      by rewrite Hx.
    - rewrite lookup_seq_ge by lia.
      rewrite (lookup_ge_None_2 (rotate i keys) j)
        by (rewrite length_rotate; fold k; lia).
      done. }
  split; [done|]. rewrite Heq. apply fmap_Permutation.
  unfold rotate. rewrite Permutation_app_comm. by rewrite take_drop.
Qed.

(** ** Listing the credentials *)

Lemma str_len_app a b : str_len (a +:+ b) = str_len a + str_len b.
Proof.
  induction a as [|c a IH]; [done|].
  rewrite append_String. cbn [str_len]. rewrite IH. lia.
Qed.

Lemma str_len_skip_continuation s : str_len (skip_continuation s) = str_len s.
Proof.
  induction s as [|c s IH]; [done|]. cbn [skip_continuation str_len].
  destruct (is_continuation c) eqn:Hc; [done|]. cbn [str_len]. by rewrite Hc.
Qed.

Lemma skip_continuation_aligned s : char_aligned (skip_continuation s) = true.
Proof.
  induction s as [|c s IH]; [done|]. cbn [skip_continuation].
  destruct (is_continuation c) eqn:Hc; [done|].
  cbn [char_aligned]. by rewrite Hc.
Qed.

Lemma skip_continuation_of_aligned s :
  char_aligned s = true → skip_continuation s = s.
Proof.
  destruct s as [|c s]; [done|]. cbn [char_aligned skip_continuation].
  by destruct (is_continuation c).
Qed.

Lemma str_append_assoc a b c : a +:+ b +:+ c = (a +:+ b) +:+ c.
Proof.
  induction a as [|x a IH]; [done|]. by rewrite !append_String, IH.
Qed.

Lemma skip_continuation_suffix s : ∃ pre, s = pre +:+ skip_continuation s.
Proof.
  induction s as [|c s [pre IH]]; [by exists ""|]. cbn [skip_continuation].
  destruct (is_continuation c); [|by exists ""].
  exists (String c pre). by rewrite append_String, <- IH.
Qed.

(** Dropping characters leaves a suffix that begins with a character and
    holds the characters that were not dropped. *)
Lemma drop_chars_suffix k : ∀ s, ∃ pre, s = pre +:+ drop_chars k s.
Proof.
  induction k as [|k IH]; intros s; [by exists ""|].
  destruct s as [|c s]; [by exists ""|]. cbn [drop_chars].
  destruct (skip_continuation_suffix s) as [pre1 H1].
  destruct (IH (skip_continuation s)) as [pre2 H2].
  exists (String c (pre1 +:+ pre2)).
  by rewrite append_String, <- str_append_assoc, <- H2, <- H1.
Qed.

Lemma drop_chars_len k :
  ∀ s, str_len (drop_chars k (skip_continuation s)) = str_len s - k.
Proof.
  induction k as [|k IH]; intros s.
  - cbn [drop_chars]. rewrite str_len_skip_continuation. lia.
  - rewrite <- (str_len_skip_continuation s).
    pose proof (skip_continuation_aligned s) as Hal.
    destruct (skip_continuation s) as [|c s']; [done|].
    cbn [char_aligned] in Hal. apply negb_true_iff in Hal.
    cbn [drop_chars str_len]. rewrite Hal, IH. lia.
Qed.

Lemma drop_chars_aligned k :
  ∀ s, char_aligned (drop_chars k (skip_continuation s)) = true.
Proof.
  induction k as [|k IH]; intros s; [apply skip_continuation_aligned|].
  destruct (skip_continuation s) as [|c s']; [done|]. apply IH.
Qed.

Lemma drop_chars_app hidden shown :
  char_aligned shown = true →
  drop_chars (str_len hidden) (skip_continuation (hidden +:+ shown)) = shown.
Proof.
  intros Hshown. induction hidden as [|c hidden IH].
  - by apply skip_continuation_of_aligned.
  - rewrite append_String. cbn [str_len skip_continuation].
    destruct (is_continuation c); [exact IH|]. cbn [plus drop_chars]. exact IH.
Qed.

Lemma str_len_aligned_nonempty s :
  char_aligned s = true → s ≠ "" → 0 < str_len s.
Proof.
  destruct s as [|c s]; [done|]. cbn [char_aligned str_len]. intros Hc _.
  apply negb_true_iff in Hc. rewrite Hc. lia.
Qed.

(** X7. A listed key shows at most its last 4 characters, counted as
    Python counts them. A key of up to 4 characters is shown as four
    asterisks. A longer key is shown as three dots followed by its last 4
    characters, 7 characters in all, and at least one character stays
    hidden. A key made of a non-empty hidden part and 4 shown characters is
    shown as the dots and the 4 characters, whatever the hidden part is, so
    two keys that end alike are shown alike. *)
Theorem masked_key_hides key :
  char_aligned key = true →
  str_len (masked_key key) ≤ 7 ∧
  (str_len key ≤ 4 → masked_key key = "****") ∧
  (4 < str_len key →
     ∃ hidden shown,
       key = hidden +:+ shown ∧ str_len shown = 4 ∧
       char_aligned shown = true ∧ hidden ≠ "" ∧
       str_len hidden = str_len key - 4 ∧
       masked_key key = "..." +:+ shown) ∧
  (∀ hidden shown,
     char_aligned hidden = true → hidden ≠ "" →
     char_aligned shown = true → str_len shown = 4 →
     masked_key (hidden +:+ shown) = "..." +:+ shown).
Proof.
  intros Hkey.
  assert (4 < str_len key →
          ∃ hidden shown,
            key = hidden +:+ shown ∧ str_len shown = 4 ∧
            char_aligned shown = true ∧ hidden ≠ "" ∧
            str_len hidden = str_len key - 4 ∧
            masked_key key = "..." +:+ shown) as Hlong.
  { intros Hlen. unfold masked_key, str_last.
    replace (4 <? str_len key) with true by (symmetry; apply Nat.ltb_lt; lia).
    destruct (drop_chars_suffix (str_len key - 4) key) as [hidden Hsplit].
    assert (drop_chars (str_len key - 4) key =
            drop_chars (str_len key - 4) (skip_continuation key)) as Hskip
      by (by rewrite skip_continuation_of_aligned).
    set (shown := drop_chars (str_len key - 4) key) in *.
    assert (str_len shown = 4) as Hshown
      by (rewrite Hskip, drop_chars_len; lia).
    assert (str_len hidden = str_len key - 4) as Hhidden.
    { apply (f_equal str_len) in Hsplit. rewrite str_len_app in Hsplit. lia. }
    exists hidden, shown. split_and!; try done.
    - rewrite Hskip. apply drop_chars_aligned.
    - intros ->. simpl in Hhidden. lia. }
  split_and!; [|intros Hlen|done|].
  - destruct (decide (4 < str_len key)) as [Hlen|Hlen].
    + destruct (Hlong Hlen) as (hidden & shown & _ & Hshown & _ & _ & _ & ->).
      rewrite str_len_app, Hshown. simpl. lia.
    + unfold masked_key.
      replace (4 <? str_len key) with false
        by (symmetry; apply Nat.ltb_ge; lia).
      simpl. lia.
  - unfold masked_key.
    by replace (4 <? str_len key) with false
      by (symmetry; apply Nat.ltb_ge; lia).
  - intros hidden shown Hh Hne Hs Hlen. unfold masked_key, str_last.
    pose proof (str_len_aligned_nonempty hidden Hh Hne) as Hpos.
    rewrite str_len_app, Hlen.
    replace (4 <? str_len hidden + 4) with true
      by (symmetry; apply Nat.ltb_lt; lia).
    replace (str_len hidden + 4 - 4) with (str_len hidden) by lia.
    rewrite <- (skip_continuation_of_aligned (hidden +:+ shown))
      by (destruct hidden; done).
    by rewrite drop_chars_app.
Qed.

Lemma list_api_keys_run guild s :
  list_api_keys guild s =
  let c := guild_conf guild s in
  match api_keys c with
  | [] => (SentText no_keys_listed_message, s, [])
  | _ :: _ =>
    (SentEmbed
       {| embed_title := "🔑 API Keys Overview";
          embed_description :=
            "Total: " +:+ str_of_nat (length (api_keys c)) +:+ "/8 Keys";
          embed_fields := imap (key_field (current_key_index c)) (api_keys c) |},
     s, [])
  end.
Proof.
  unfold list_api_keys, bind, get_api_keys, cfg_api_keys,
    cfg_current_key_index. cbv zeta.
  by destruct (api_keys (guild_conf guild s)).
Qed.

Lemma key_field_name_active i : key_field_name i true ≠ key_field_name i false.
Proof.
  unfold key_field_name. intros Heq.
  do 3 apply String.app_inj in Heq. discriminate.
Qed.

(** X8. The [ailistkeys] command changes nothing and, for a non-empty
    pool, lists one field per credential in pool order, each with the
    masked key as its value; the field marked ACTIVE is the one at the
    stored index, which is the credential [get_current_api_key] returns
    when that index is in range. With the stored index past the end no
    field is marked, although the next read would use the first
    credential. With an empty pool the answer is the no-keys text. *)
Theorem list_api_keys_marks_current guild s :
  let c := guild_conf guild s in
  let keys := api_keys c in
  let i := current_key_index c in
  let r := list_api_keys guild s in
  state_of r = s ∧ trace_of r = [] ∧
  (keys = [] → result_of r = SentText no_keys_listed_message) ∧
  (keys ≠ [] →
     ∃ e, result_of r = SentEmbed e ∧
       embed_description e =
         "Total: " +:+ str_of_nat (length keys) +:+ "/8 Keys" ∧
       length (embed_fields e) = length keys ∧
       (∀ j key, keys !! j = Some key →
          ∃ name,
            embed_fields e !! j =
              Some (name, "`" +:+ masked_key key +:+ "`", true) ∧
            (j = i → name = key_field_name (j + 1) true) ∧
            (j ≠ i → name = key_field_name (j + 1) false) ∧
            (name = key_field_name (j + 1) true ↔ j = i)) ∧
       (i < length keys →
          result_of (get_current_api_key guild s) = keys !! i) ∧
       (length keys ≤ i →
          result_of (get_current_api_key guild s) = keys !! 0)).
Proof.
  intros c keys i r. subst r keys i. rewrite list_api_keys_run. cbv zeta.
  fold c.
  destruct (api_keys c) as [|key0 keys0] eqn:Hkeys; [by repeat split|].
  split; [done|]. split; [done|]. split; [done|]. intros _.
  eexists. split; [reflexivity|]. cbn [embed_description embed_fields].
  split; [done|]. split; [apply length_imap|]. split; [|split].
  - intros j key Hj. rewrite list_lookup_imap, Hj.
    cbn [fmap option_fmap option_map].
    unfold key_field. eexists. split; [reflexivity|].
    replace (j + 1 - 1) with j by lia.
    destruct (decide (j = current_key_index c)) as [Heq|Hne].
    + rewrite bool_decide_eq_true_2 by done. by repeat split.
    + rewrite bool_decide_eq_false_2 by done. repeat split; try done.
      intros Heq. symmetry in Heq. by apply key_field_name_active in Heq.
  - intros Hi. rewrite get_current_api_key_run. cbv zeta. fold c.
    rewrite Hkeys. destruct (decide _); [simpl in *; lia|done].
  - intros Hi. rewrite get_current_api_key_run. cbv zeta. fold c.
    rewrite Hkeys. destruct (decide _); [done|simpl in *; lia].
Qed.

(** ** The message listener *)

Lemma add_message_to_history_conf guild channel_id author content s :
  guild_conf guild
    (state_of (add_message_to_history channel_id author content s)) =
  guild_conf guild s.
Proof. reflexivity. Qed.

(** [on_message] in closed form: nothing for a bot author or outside a
    guild; otherwise the message is recorded and the reply, if any, is
    generated from the cog with the message recorded. *)
Lemma on_message_run strip bot_user_id message s :
  on_message strip bot_user_id message s =
  if author_bot message then (NoReply, s, [])
  else
    match msg_guild message with
    | None => (NoReply, s, [])
    | Some guild =>
      let s1 :=
        state_of (add_message_to_history (msg_channel message)
                    (display_name message) (content message) s) in
      let freeroom_id := freeroom_channel (guild_conf guild s) in
      if truthy_id freeroom_id &&
         bool_decide (Some (msg_channel message) = freeroom_id)
      then
        let r :=
          generate_response guild (msg_channel message) (content message)
            (display_name message) s1 in
        (ChannelSend (msg_channel message) (result_of r), state_of r,
         trace_of r)
      else if mentions_bot message then
        match strip_mention strip bot_user_id (content message) with
        | String c text =>
          let r :=
            generate_response guild (msg_channel message) (String c text)
              (display_name message) s1 in
          (MessageReply (result_of r), state_of r, trace_of r)
        | EmptyString => (NoReply, s1, [])
        end
      else (NoReply, s1, [])
    end.
Proof.
  unfold on_message.
  destruct (author_bot message); [done|].
  destruct (msg_guild message) as [guild|]; [|done].
  unfold bind at 1. unfold add_message_to_history at 1.
  unfold bind at 1. unfold cfg_freeroom_channel at 1.
  cbv zeta. cbn [app].
  change (guild_conf guild _) with (guild_conf guild s).
  destruct (truthy_id _ && bool_decide _).
  - unfold bind, ret.
    destruct (generate_response _ _ _ _ _) as [[res st] tr].
    by rewrite app_nil_r.
  - destruct (mentions_bot message); [|done].
    destruct (strip_mention _ _ _) as [|c text]; [done|].
    unfold bind, ret.
    destruct (generate_response _ _ _ _ _) as [[res st] tr].
    by rewrite app_nil_r.
Qed.

(** ** More on the response engine *)

(** Every request of the loop is the one built from the state on entry,
    up to the credential. *)
Lemma retry_loop_requests remaining guild channel_id user_message author_name :
  ∀ s api_key,
    Forall
      (λ a, a.1 = request_of s (req_api_key a.1) channel_id user_message
                    author_name)
      (attempts
         (trace_of
            (retry_loop remaining guild channel_id user_message author_name
               api_key s))).
Proof.
  induction remaining as [|remaining IH]; intros s api_key.
  - rewrite retry_loop_0. apply Forall_nil_2.
  - destruct (retry_loop_cases remaining guild channel_id user_message
                author_name api_key s)
      as [(content & _ & Hr)|[(e & _ & _ & Hr)|(e & _ & _ & _ & Hr)]];
      rewrite Hr, trace_of_run; cbn [attempts].
    + by apply Forall_singleton.
    + by apply Forall_singleton.
    + apply Forall_cons. split; [done|].
      eapply Forall_impl; [apply IH|]. intros a Ha. cbn beta in Ha.
      rewrite Ha at 1. by apply request_of_ext.
Qed.

Lemma last_cons_nonempty {A} (x : A) l : l ≠ [] → last (x :: l) = last l.
Proof. by destruct l. Qed.

(** How the loop ends: with no attempt at all only when it has no turn;
    otherwise the result is read off the last attempt. *)
Lemma retry_loop_last remaining guild channel_id user_message author_name :
  ∀ s api_key,
    let r :=
      retry_loop remaining guild channel_id user_message author_name
        api_key s in
    let atts := attempts (trace_of r) in
    (atts = [] ∧ remaining = 0 ∧ result_of r = all_keys_exhausted_message) ∨
    (∃ req resp,
       last atts = Some (req, resp) ∧
       match resp with
       | Completion content =>
         result_of r = content ∧ rotations (trace_of r) + 1 = length atts
       | Raised e =>
         (result_of r = error_prefix +:+ e ∧
          rotations (trace_of r) + 1 = length atts) ∨
         (result_of r = all_keys_exhausted_message ∧
          rotations (trace_of r) = length atts ∧
          length atts = remaining ∧
          is_rate_limit_error e = true)
       end).
Proof.
  induction remaining as [|remaining IH]; intros s api_key r atts.
  - left. subst atts r. by rewrite retry_loop_0.
  - right.
    destruct (retry_loop_cases remaining guild channel_id user_message
                author_name api_key s)
      as [(content & _ & Hr)|[(e & _ & _ & Hr)|(e & _ & Hrate & _ & Hr)]];
      subst atts r; rewrite Hr, result_of_run, trace_of_run;
      cbn [attempts rotations].
    + eexists _, (Completion content). by repeat split.
    + eexists _, (Raised e). split; [done|]. by left.
    + match goal with
      | |- context [retry_loop remaining _ _ _ _ ?k ?s'] =>
        destruct (IH s' k) as [(Hnil & -> & Hres)|(req & resp & Hlast & Hresp)]
      end.
      * rewrite Hnil. eexists _, (Raised e). split; [done|]. right.
        rewrite Hres. cbn [length].
        rewrite retry_loop_0, trace_of_run. done.
      * exists req, resp. split.
        { rewrite last_cons_nonempty; [done|]. intros Hnil.
          by rewrite Hnil in Hlast. }
        cbn [length]. destruct resp as [content|e'].
        -- destruct Hresp as [-> Hcount]. split; [done|lia].
        -- destruct Hresp as [[-> Hcount]|(-> & Hcount & Hlen & Hrate')].
           ++ left. split; [done|lia].
           ++ right. repeat split; try done; lia.
Qed.

(** A call in two cases: no usable credential, or the loop run from the
    state the initial read leaves. *)
Lemma generate_response_split guild channel_id user_message author_name s :
  let c := guild_conf guild s in
  let k := get_current_api_key guild s in
  let r := generate_response guild channel_id user_message author_name s in
  (truthy (result_of k) = false ∧
   r = (no_key_message, state_of k, trace_of k)) ∨
  (truthy (result_of k) = true ∧ api_keys c ≠ [] ∧
   let l :=
     retry_loop (length (api_keys c)) guild channel_id user_message
       author_name (api_keys c !! start_index c) (state_of k) in
   r = (result_of l, state_of l, trace_of k ++ trace_of l)).
Proof.
  intros c k r.
  destruct (decide (api_keys c = [])) as [Hnil|Hne].
  - left. subst r k.
    rewrite (generate_response_empty_pool _ _ _ _ _ Hnil).
    rewrite get_current_api_key_run. cbv zeta. fold c. by rewrite Hnil.
  - destruct (generate_response_loop guild channel_id user_message
                author_name s Hne) as [[Hf Hr]|[Ht Hr]]; [by left|right].
    split; [done|]. split; [done|].
    destruct (get_current_api_key_start guild s Hne) as (Hc0 & _).
    cbv zeta in Hr. rewrite Hc0 in Hr.
    by cbn [api_keys current_key_index with_current_key_index] in Hr.
Qed.

(** The initial read, whatever the pool. *)
Lemma get_current_api_key_quiet guild s :
  let k := get_current_api_key guild s in
  attempts (trace_of k) = [] ∧ rotations (trace_of k) = 0 ∧
  message_history (state_of k) = message_history s ∧
  backend (state_of k) = backend s ∧
  (∀ guild', guild' ≠ guild →
     guild_conf guild' (state_of k) = guild_conf guild' s) ∧
  (api_keys (guild_conf guild s) = [] → state_of k = s) ∧
  (api_keys (guild_conf guild s) ≠ [] →
     guild_conf guild (state_of k) =
       with_current_key_index (guild_conf guild s)
         (start_index (guild_conf guild s)) ∧
     start_index (guild_conf guild s) < length (api_keys (guild_conf guild s)) ∧
     result_of k = api_keys (guild_conf guild s)
                     !! start_index (guild_conf guild s)).
Proof.
  intros k. destruct (decide (api_keys (guild_conf guild s) = [])) as [Hnil|Hne].
  - subst k. rewrite get_current_api_key_run. cbv zeta. rewrite Hnil.
    by repeat split.
  - destruct (get_current_api_key_start guild s Hne)
      as (H1 & H2 & H3 & H4 & H5 & _ & H7 & H8 & H9).
    by repeat split.
Qed.

(** A read with the stored index in range changes nothing. *)
Lemma get_current_api_key_in_range guild s :
  current_key_index (guild_conf guild s) < length (api_keys (guild_conf guild s)) →
  get_current_api_key guild s =
    (api_keys (guild_conf guild s) !! current_key_index (guild_conf guild s),
     s, []).
Proof.
  intros Hlt. rewrite get_current_api_key_run. cbv zeta.
  destruct (api_keys (guild_conf guild s)) as [|key keys] eqn:Hkeys;
    [simpl in Hlt; lia|].
  destruct (decide _); [lia|done].
Qed.

(** After a last attempt that ended in an error, what the loop returns is
    decided by the classification of the error and the size of the pool. *)
Lemma retry_loop_last_error remaining guild channel_id user_message
    author_name :
  ∀ s api_key req e,
    let k := length (api_keys (guild_conf guild s)) in
    let r :=
      retry_loop remaining guild channel_id user_message author_name
        api_key s in
    let atts := attempts (trace_of r) in
    last atts = Some (req, Raised e) →
    (is_rate_limit_error e = true → 2 ≤ k →
       result_of r = all_keys_exhausted_message ∧
       length atts = remaining ∧ rotations (trace_of r) = remaining) ∧
    (is_rate_limit_error e = false ∨ k ≤ 1 →
       result_of r = error_prefix +:+ e ∧
       rotations (trace_of r) + 1 = length atts).
Proof.
  induction remaining as [|remaining IH]; intros s api_key req e k r atts;
    subst k.
  - subst atts r. by rewrite retry_loop_0.
  - destruct (retry_loop_cases remaining guild channel_id user_message
                author_name api_key s)
      as [(content & _ & Hr)|[(e0 & _ & Hfatal & Hr)
                             |(e0 & _ & Hrate & Hlen & Hr)]];
      subst atts r;
      rewrite Hr, result_of_run, trace_of_run; cbn [attempts rotations last].
    + intros [=].
    + intros [= _ ->]. split; [|done].
      intros Hrate Hk. destruct Hfatal as [Hf|Hf]; [congruence|lia].
    + set (s' := put_guild_conf guild _ _).
      set (key' := api_keys (guild_conf guild s) !! _).
      assert (length (api_keys (guild_conf guild s')) =
              length (api_keys (guild_conf guild s))) as Hk'
        by (unfold s'; by rewrite guild_conf_put_eq).
      destruct (retry_loop_last remaining guild channel_id user_message
                  author_name s' key')
        as [(Hnil & -> & Hres)|(req' & resp' & Hlast & _)].
      * rewrite Hnil, retry_loop_0, result_of_run, trace_of_run.
        cbn [attempts rotations last length].
        intros [= _ <-]. split; [done|].
        intros [Hf|Hf]; [congruence|lia].
      * intros Hl.
        rewrite last_cons_nonempty in Hl
          by (intros Hnil; by rewrite Hnil in Hlast).
        destruct (IH s' key' req e Hl) as [Hex Herr]. rewrite Hk' in Hex, Herr.
        cbn [length]. split.
        -- intros Hr' Hk. destruct (Hex Hr' Hk) as (-> & -> & ->). done.
        -- intros Hf. destruct (Herr Hf) as (-> & <-). split; [done|lia].
Qed.

(** X9. The text a call returns is decided by its last backend attempt.
    Without any attempt it is the no-key text. After a completion it is
    that completion. After an error that is not classified as a rate limit,
    or with a pool of one credential, it is the prefixed error text, and
    the attempt was not followed by a rotation. After an error classified
    as a rate limit with at least 2 credentials stored it is the
    all-keys-exhausted text, and there have been as many attempts and as
    many rotations as credentials. *)
Theorem generate_response_outcome guild channel_id user_message author_name s :
  let c := guild_conf guild s in
  let N := length (api_keys c) in
  let r := generate_response guild channel_id user_message author_name s in
  let atts := attempts (trace_of r) in
  (atts = [] → result_of r = no_key_message) ∧
  (∀ req content,
     last atts = Some (req, Completion content) → result_of r = content) ∧
  (∀ req e,
     last atts = Some (req, Raised e) →
     (is_rate_limit_error e = true → 2 ≤ N →
        result_of r = all_keys_exhausted_message ∧
        length atts = N ∧ rotations (trace_of r) = N) ∧
     (is_rate_limit_error e = false ∨ N ≤ 1 →
        result_of r = error_prefix +:+ e ∧
        rotations (trace_of r) + 1 = length atts)).
Proof.
  intros c N r atts.
  destruct (get_current_api_key_quiet guild s)
    as (Hatt0 & Hrot0 & _ & _ & _ & _ & Hstart).
  destruct (generate_response_split guild channel_id user_message author_name
              s) as [[_ Hr]|(_ & Hne & Hr)]; fold c r in Hr; cbv zeta in Hr;
    apply run_eq in Hr as (Hres & _ & Htr); subst atts;
    rewrite Htr, ?attempts_app, ?rotations_app, Hatt0, Hrot0, Hres;
    cbn [app plus].
  - by repeat split.
  - destruct (Hstart Hne) as (Hc0 & _). fold c in Hc0.
    set (s0 := state_of (get_current_api_key guild s)) in *.
    assert (length (api_keys (guild_conf guild s0)) = N) as HN
      by (by rewrite Hc0).
    fold N.
    set (key := api_keys c !! start_index c).
    destruct (retry_loop_last N guild channel_id user_message author_name
                s0 key)
      as [(_ & Hzero & _)|(req & resp & Hlast & Hresp)].
    { apply nonempty_length in Hne. unfold N, c in *. exfalso. lia. }
    split_and!.
    + intros Hnil. by rewrite Hnil in Hlast.
    + intros req' content Hlast'. rewrite Hlast in Hlast'.
      injection Hlast' as -> ->. by destruct Hresp.
    + intros req' e Hlast'.
      pose proof (retry_loop_last_error N guild channel_id user_message
                    author_name s0 key req' e Hlast') as Herr.
      by rewrite HN in Herr.
Qed.

(** X10. Failover is sticky. When the last attempt of a call was not
    followed by a rotation, which is always so after a completion, the
    credentials are unchanged and the stored index designates the
    credential of that attempt: the next read of the current credential
    returns it, with no write. *)
Theorem generate_response_sticky guild channel_id user_message author_name s :
  let c := guild_conf guild s in
  let r := generate_response guild channel_id user_message author_name s in
  let atts := attempts (trace_of r) in
  let c' := guild_conf guild (state_of r) in
  (∀ req content,
     last atts = Some (req, Completion content) →
     rotations (trace_of r) < length atts) ∧
  (∀ req resp,
     last atts = Some (req, resp) →
     rotations (trace_of r) < length atts →
     api_keys c' = api_keys c ∧
     api_keys c !! current_key_index c' = req_api_key req ∧
     get_current_api_key guild (state_of r) =
       (req_api_key req, state_of r, [])).
Proof.
  intros c r atts c'.
  destruct (get_current_api_key_quiet guild s)
    as (Hatt0 & Hrot0 & _ & _ & _ & _ & Hstart).
  destruct (generate_response_split guild channel_id user_message author_name
              s) as [[_ Hr]|(_ & Hne & Hr)]; fold c r in Hr; cbv zeta in Hr;
    apply run_eq in Hr as (Hres & Hsta & Htr).
  { subst atts. rewrite Htr, Hatt0. by split. }
  destruct (Hstart Hne) as (Hc0 & Hlt & _). fold c in Hc0, Hlt.
  set (s0 := state_of (get_current_api_key guild s)) in *.
  set (N := length (api_keys c)) in *.
  set (l := retry_loop N guild channel_id user_message author_name
              (api_keys c !! start_index c) s0) in *.
  assert (atts = attempts (trace_of l)) as Hatts
    by (subst atts; by rewrite Htr, attempts_app, Hatt0).
  assert (rotations (trace_of r) = rotations (trace_of l)) as Hrots
    by (by rewrite Htr, rotations_app, Hrot0).
  pose proof (retry_loop_last N guild channel_id user_message author_name s0
                (api_keys c !! start_index c)) as Hlast.
  pose proof (retry_loop_state N guild channel_id user_message author_name s0)
    as Hstate.
  pose proof (retry_loop_keys N guild channel_id user_message author_name s0)
    as Hkeys.
  cbv zeta in Hlast, Hstate, Hkeys. rewrite Hc0 in Hstate, Hkeys.
  cbn [api_keys current_key_index with_current_key_index] in Hstate, Hkeys.
  fold N l in Hlast, Hstate, Hkeys.
  destruct (Hstate Hlt) as (Hconf & _). specialize (Hkeys Hlt).
  rewrite Hatts, Hrots.
  split.
  - intros req content Hl.
    destruct Hlast as [(Hnil & _)|(req' & resp' & Hl' & Hresp)];
      [by rewrite Hnil in Hl|].
    rewrite Hl in Hl'. injection Hl' as <- <-. destruct Hresp as [_ Hcount].
    lia.
  - intros req resp Hl Hrot.
    assert (rotations (trace_of l) + 1 = length (attempts (trace_of l)))
      as Hcount.
    { destruct Hlast as [(Hnil & _)|(req' & resp' & Hl' & Hresp)];
        [by rewrite Hnil in Hl|].
      destruct resp' as [content|e]; [by destruct Hresp|].
      destruct Hresp as [[_ Hc]|(_ & Hc & _)]; [done|lia]. }
    assert (api_keys c !! ((start_index c + rotations (trace_of l)) `mod` N) =
            req_api_key req) as Hkey.
    { assert (last (keys_used (trace_of l)) = Some (req_api_key req)) as Hlk
        by (unfold keys_used; by rewrite fmap_last, Hl).
      rewrite Hkeys, fmap_last, last_lookup, length_seq in Hlk.
      rewrite lookup_seq_lt in Hlk by lia. cbn in Hlk.
      injection Hlk as Hlk. rewrite <- Hlk. do 2 f_equal. lia. }
    subst c'. rewrite Hsta, Hconf.
    cbn [api_keys current_key_index with_current_key_index].
    split; [done|]. split; [done|].
    assert ((start_index c + rotations (trace_of l)) `mod` N < N) as Hmod
      by (apply Nat.mod_upper_bound; unfold N, c in *; clear -Hlt; lia).
    rewrite get_current_api_key_in_range; rewrite Hconf;
      cbn [api_keys current_key_index with_current_key_index];
      [by rewrite Hkey|done].
Qed.

(** Every attempt of a call sends the request built from the cog the call
    started in. *)
Lemma generate_response_requests guild channel_id user_message author_name s :
  Forall
    (λ a, a.1 = request_of s (req_api_key a.1) channel_id user_message
                  author_name)
    (attempts
       (trace_of
          (generate_response guild channel_id user_message author_name s))).
Proof.
  destruct (get_current_api_key_quiet guild s) as (Hatt0 & _ & Hhist & _).
  destruct (generate_response_split guild channel_id user_message author_name
              s) as [[_ Hr]|(_ & _ & Hr)]; cbv zeta in Hr;
    apply run_eq in Hr as (_ & _ & Htr); rewrite Htr, ?attempts_app, Hatt0.
  { apply Forall_nil_2. }
  cbn [app].
  eapply Forall_impl; [apply retry_loop_requests|].
  intros [req resp] Hreq. cbn [fst] in *.
  by rewrite (request_of_ext _ s) in Hreq.
Qed.

(** X11. All backend attempts of one call send the same prompt and differ
    only in the credential: the model is mistral-large-latest, at most 300
    tokens are asked for, the user text is "<author> asks: <message>", and
    the system prompt is built from the owner's name and the channel context
    as it was when the call started. *)
Theorem generate_response_same_prompt guild channel_id user_message
    author_name s :
  let r := generate_response guild channel_id user_message author_name s in
  Forall
    (λ a,
       req_model a.1 = "mistral-large-latest" ∧
       req_max_tokens a.1 = 300 ∧
       req_user a.1 = author_name +:+ " asks: " +:+ user_message ∧
       req_system a.1 =
         system_prompt (default "Unknown" bot_owner)
           (result_of (get_channel_context channel_id s)))
    (attempts (trace_of r)).
Proof.
  intros r.
  eapply Forall_impl; [apply generate_response_requests|].
  intros [req resp] Hreq. cbn [fst] in *.
  rewrite Hreq. unfold request_of.
  cbn [req_model req_max_tokens req_user req_system]. by destruct bot_owner.
Qed.

(** X12. What a call to [generate_response] may change: nothing but the
    stored index of its own guild. The histories, the other guilds, the
    credentials and the free-room channel are as before; with an empty pool
    the cog is untouched; otherwise the index ends at the start index moved
    on by the number of rotations, modulo the number of credentials, and
    there are at most as many rotations as credentials. *)
Theorem generate_response_frame guild channel_id user_message author_name s :
  let c := guild_conf guild s in
  let N := length (api_keys c) in
  let r := generate_response guild channel_id user_message author_name s in
  let c' := guild_conf guild (state_of r) in
  message_history (state_of r) = message_history s ∧
  (∀ guild', guild' ≠ guild →
     guild_conf guild' (state_of r) = guild_conf guild' s) ∧
  api_keys c' = api_keys c ∧
  freeroom_channel c' = freeroom_channel c ∧
  (N = 0 → state_of r = s) ∧
  (0 < N →
     current_key_index c' =
       (start_index c + rotations (trace_of r)) `mod` N) ∧
  rotations (trace_of r) ≤ N.
Proof.
  intros c N r c'.
  destruct (get_current_api_key_quiet guild s)
    as (Hatt0 & Hrot0 & Hhist & _ & Hother & Hempty & Hstart).
  fold c in Hempty, Hstart.
  destruct (decide (api_keys c = [])) as [Hnil|Hne].
  { subst c' r.
    rewrite (generate_response_empty_pool _ _ _ _ _ Hnil), state_of_run,
      trace_of_run.
    subst N. rewrite Hnil. cbn [length rotations]. split_and!; (done || lia). }
  destruct (Hstart Hne) as (Hc0 & Hlt & Hres).
  assert (0 < N) as HN by (by apply nonempty_length).
  destruct (generate_response_split guild channel_id user_message author_name
              s) as [[_ Hr]|(_ & _ & Hr)]; fold c r in Hr; cbv zeta in Hr;
    apply run_eq in Hr as (_ & Hsta & Htr).
  - subst c'. rewrite Hsta, Htr, Hrot0, Hhist, Hc0, Nat.add_0_r.
    cbn [api_keys freeroom_channel current_key_index with_current_key_index].
    split_and!; try (done || lia).
    intros _. by rewrite Nat.mod_small.
  - set (s0 := state_of (get_current_api_key guild s)) in *.
    fold N in Hsta, Htr.
    set (l := retry_loop N guild channel_id user_message author_name
                (api_keys c !! start_index c) s0) in *.
    pose proof (retry_loop_state N guild channel_id user_message author_name
                  s0) as Hstate.
    pose proof (retry_loop_counts N guild channel_id user_message author_name
                  s0 (api_keys c !! start_index c)) as Hcounts.
    cbv zeta in Hstate. rewrite Hc0 in Hstate.
    cbn [api_keys current_key_index with_current_key_index] in Hstate.
    fold N l in Hstate, Hcounts.
    destruct (Hstate Hlt) as (Hconf & Hh & Ho).
    subst c'. rewrite Hsta, Htr, rotations_app, Hrot0, Hconf, Hh, Hhist.
    cbn [api_keys freeroom_channel current_key_index with_current_key_index
         plus].
    split_and!; try (done || lia).
    + intros guild' Hg. rewrite Ho by done. by apply Hother.
    + destruct Hcounts as (H1 & H2 & _). clear -H1 H2. lia.
Qed.

(** X13. An empty string stored as the current credential counts as no
    credential: the call returns the no-key text without contacting the
    backend and without rotating, even if the pool holds other
    credentials. *)
Theorem generate_response_blank_key guild channel_id user_message author_name
    s :
  let c := guild_conf guild s in
  let r := generate_response guild channel_id user_message author_name s in
  api_keys c !! start_index c = Some "" →
  result_of r = no_key_message ∧
  attempts (trace_of r) = [] ∧
  rotations (trace_of r) = 0 ∧
  guild_conf guild (state_of r) = with_current_key_index c (start_index c).
Proof.
  intros c r Hblank.
  assert (api_keys c ≠ []) as Hne.
  { intros Hnil. by rewrite Hnil in Hblank. }
  destruct (get_current_api_key_quiet guild s)
    as (Hatt0 & Hrot0 & _ & _ & _ & _ & Hstart).
  destruct (Hstart Hne) as (Hc0 & _ & Hres). fold c in Hc0, Hres.
  destruct (generate_response_split guild channel_id user_message author_name
              s) as [[_ Hr]|(Ht & _)].
  - fold c r in Hr. apply run_eq in Hr as (-> & -> & ->). by rewrite Hatt0, Hrot0, Hc0.
  - by rewrite Hres, Hblank in Ht.
Qed.

(** ** The message listener and the free-room commands *)

Lemma last_drop_lt {A} n (l : list A) :
  n < length l → last (drop n l) = last l.
Proof.
  intros Hlt. rewrite !last_lookup, lookup_drop, length_drop. f_equal. lia.
Qed.

Lemma last_last_n {A} n (l : list A) : 0 < n → last (last_n n l) = last l.
Proof.
  intros Hn. destruct l as [|x l]; [done|].
  unfold last_n. apply last_drop_lt. simpl. lia.
Qed.

Lemma last_deque_append d x :
  last (deque_append history_maxlen d x) = Some x.
Proof.
  unfold deque_append. cbv zeta.
  destruct (decide _) as [Hlt|_]; [|apply last_snoc].
  rewrite last_drop_lt, last_snoc; [done|].
  unfold history_maxlen in Hlt. lia.
Qed.

Lemma set_freeroom_run guild channel s :
  set_freeroom guild channel s =
  (freeroom_set_message (mention channel),
   put_guild_conf guild
     (with_freeroom_channel (guild_conf guild s) (Some (channel_id_of channel)))
     s, []).
Proof. reflexivity. Qed.

Lemma remove_freeroom_run guild s :
  remove_freeroom guild s =
  (freeroom_removed_message,
   put_guild_conf guild (with_freeroom_channel (guild_conf guild s) None) s,
   []).
Proof. reflexivity. Qed.

(** What [on_message] leaves in the histories. *)
Lemma on_message_history strip bot_user_id message s :
  message_history (state_of (on_message strip bot_user_id message s)) =
  if author_bot message then message_history s
  else
    match msg_guild message with
    | None => message_history s
    | Some _ =>
      <[msg_channel message :=
          deque_append history_maxlen
            (default [] (message_history s !! msg_channel message))
            (history_line (display_name message) (content message))]>
        (message_history s)
    end.
Proof.
  rewrite on_message_run.
  destruct (author_bot message); [done|].
  destruct (msg_guild message) as [guild|]; [|done].
  cbv zeta.
  destruct (truthy_id _ && bool_decide _).
  - rewrite state_of_run.
    by destruct (generate_response_effect guild guild (msg_channel message)
                   (content message) (display_name message)
                   (state_of (add_message_to_history (msg_channel message)
                      (display_name message) (content message) s)))
      as [-> _].
  - destruct (mentions_bot message); [|done].
    destruct (strip_mention _ _ _) as [|ch text]; [done|].
    rewrite state_of_run.
    by destruct (generate_response_effect guild guild (msg_channel message)
                   (String ch text) (display_name message)
                   (state_of (add_message_to_history (msg_channel message)
                      (display_name message) (content message) s)))
      as [-> _].
Qed.

(** X14. A message from a bot, or one outside any guild, is ignored: no
    reply, no backend call, and the cog is unchanged. Every other message is
    recorded, whether or not it is answered: after the listener has run, the
    channel's history is the old one (empty if there was none) with the line
    "<display name>: <content>" appended under the 50-line bound, and the
    other channels' histories are as before. *)
Theorem on_message_records strip bot_user_id message s :
  let r := on_message strip bot_user_id message s in
  let channel_id := msg_channel message in
  let line := history_line (display_name message) (content message) in
  (author_bot message = true ∨ msg_guild message = None →
     r = (NoReply, s, [])) ∧
  (author_bot message = false → is_Some (msg_guild message) →
     message_history (state_of r) !! channel_id =
       Some (deque_append history_maxlen
               (default [] (message_history s !! channel_id)) line) ∧
     ∀ channel_id', channel_id' ≠ channel_id →
       message_history (state_of r) !! channel_id' =
       message_history s !! channel_id').
Proof.
  intros r channel_id line. split.
  - intros Hignored. subst r. rewrite on_message_run.
    destruct (author_bot message); [done|].
    destruct Hignored as [?|Hnone]; [done|by rewrite Hnone].
  - intros Hbot [guild Hguild]. subst r.
    rewrite on_message_history, Hbot, Hguild. split.
    + by rewrite lookup_insert_eq.
    + intros channel_id' Hne. by rewrite lookup_insert_ne.
Qed.

(** X15. Once [aisetfreeroom] has set a channel (with a non-zero id), every
    message a non-bot member writes there is answered in the channel, with
    the response generated from the raw content after the message has been
    recorded, whether or not the bot is mentioned. The command answers with
    the confirmation naming the channel and leaves the credentials, the
    index and the histories alone. *)
Theorem set_freeroom_enables strip bot_user_id guild channel message s :
  let s1 := state_of (set_freeroom guild channel s) in
  let recorded :=
    state_of (add_message_to_history (msg_channel message)
                (display_name message) (content message) s1) in
  let r :=
    generate_response guild (msg_channel message) (content message)
      (display_name message) recorded in
  channel_id_of channel ≠ 0%Z →
  author_bot message = false →
  msg_guild message = Some guild →
  msg_channel message = channel_id_of channel →
  on_message strip bot_user_id message s1 =
    (ChannelSend (channel_id_of channel) (result_of r), state_of r,
     trace_of r) ∧
  result_of (set_freeroom guild channel s) =
    freeroom_set_message (mention channel) ∧
  api_keys (guild_conf guild s1) = api_keys (guild_conf guild s) ∧
  current_key_index (guild_conf guild s1) =
    current_key_index (guild_conf guild s) ∧
  message_history s1 = message_history s.
Proof.
  intros s1 recorded r Hid Hbot Hguild Hchannel.
  assert (guild_conf guild s1 =
          with_freeroom_channel (guild_conf guild s)
            (Some (channel_id_of channel))) as Hconf.
  { subst s1. by rewrite set_freeroom_run, state_of_run, guild_conf_put_eq. }
  split_and!; [|done|by rewrite Hconf..|done].
  rewrite on_message_run, Hbot, Hguild. cbv zeta. rewrite Hconf.
  cbn [freeroom_channel with_freeroom_channel truthy_id].
  rewrite Hchannel, bool_decide_eq_true_2 by done.
  apply Z.eqb_neq in Hid. rewrite Hid. cbn [negb andb].
  subst r recorded. by rewrite Hchannel.
Qed.

(** X16. After [airemovefreeroom], a message of that guild that does not
    mention the bot gets no reply and causes no backend call. The command
    clears the stored channel and leaves the credentials and the index
    alone. *)
Theorem remove_freeroom_silences strip bot_user_id guild message s :
  let s1 := state_of (remove_freeroom guild s) in
  let r := on_message strip bot_user_id message s1 in
  msg_guild message = Some guild →
  mentions_bot message = false →
  result_of r = NoReply ∧ trace_of r = [] ∧
  api_keys (guild_conf guild s1) = api_keys (guild_conf guild s) ∧
  current_key_index (guild_conf guild s1) =
    current_key_index (guild_conf guild s) ∧
  freeroom_channel (guild_conf guild s1) = None.
Proof.
  intros s1 r Hguild Hmention.
  assert (guild_conf guild s1 =
          with_freeroom_channel (guild_conf guild s) None) as Hconf.
  { subst s1. by rewrite remove_freeroom_run, state_of_run, guild_conf_put_eq. }
  split_and!; [| |by rewrite Hconf..]; subst r;
    rewrite on_message_run, Hguild, Hmention; cbv zeta; rewrite Hconf;
    cbn [freeroom_channel with_freeroom_channel truthy_id andb];
    by destruct (author_bot message).
Qed.

(** X17. Whenever the listener contacts the backend, the message that
    triggered it is already part of the context. The system prompt of every
    request is built from the last 30 lines of the channel's history as it
    is after the message has been recorded: these are the last 30 of the
    old lines followed by the line of the triggering message, which is
    therefore the last line of the context, preceded by at most 29 older
    ones. *)
Theorem on_message_context_has_message strip bot_user_id message s :
  let r := on_message strip bot_user_id message s in
  let line := history_line (display_name message) (content message) in
  let d := default [] (message_history s !! msg_channel message) in
  let lines := last_n 30 (deque_append history_maxlen d line) in
  Forall
    (λ a, req_system a.1 =
            system_prompt (default "Unknown" bot_owner) (join newline lines))
    (attempts (trace_of r)) ∧
  last lines = Some line ∧
  (length d ≤ 50 →
     lines = last_n 30 (d ++ [line]) ∧
     length lines = 30 `min` (length d + 1)).
Proof.
  intros r line d lines. split_and!.
  - subst r. rewrite on_message_run.
    destruct (author_bot message); [apply Forall_nil_2|].
    destruct (msg_guild message) as [guild|]; [|apply Forall_nil_2].
    cbv zeta.
    set (s1 := state_of (add_message_to_history (msg_channel message)
                           (display_name message) (content message) s)).
    assert (∀ user_message,
              Forall
                (λ a, req_system a.1 =
                        system_prompt (default "Unknown" bot_owner)
                          (join newline lines))
                (attempts
                   (trace_of
                      (generate_response guild (msg_channel message)
                         user_message (display_name message) s1)))) as Hgen.
    { intros user_message.
      eapply Forall_impl; [apply generate_response_requests|].
      intros [req resp] Hreq. cbn [fst] in *.
      rewrite Hreq. unfold request_of. cbn [req_system].
      unfold get_channel_context. subst s1.
      rewrite add_message_to_history_lookup, decide_True by done.
      rewrite result_of_run. by destruct bot_owner. }
    destruct (truthy_id _ && bool_decide _).
    + rewrite trace_of_run. apply Hgen.
    + destruct (mentions_bot message); [|apply Forall_nil_2].
      destruct (strip_mention _ _ _) as [|ch text]; [apply Forall_nil_2|].
      rewrite trace_of_run. apply Hgen.
  - subst lines. rewrite last_last_n by lia. apply last_deque_append.
  - intros Hlen. subst lines.
    rewrite deque_append_last_n by done.
    unfold history_maxlen. rewrite last_n_last_n by lia. split; [done|].
    rewrite length_last_n, length_app. cbn [length]. done.
Qed.

(** ** All handlers together *)

Lemma pool_inv_with_freeroom c ch :
  pool_inv c → pool_inv (with_freeroom_channel c ch).
Proof. done. Qed.

Lemma list_api_keys_state guild s : state_of (list_api_keys guild s) = s.
Proof.
  rewrite list_api_keys_run. cbv zeta.
  by destruct (api_keys (guild_conf guild s)).
Qed.

(** The cog [on_message] leaves: untouched, or with the message recorded,
    or with a response generated after that. *)
Lemma on_message_state strip bot_user_id message s :
  let s' := state_of (on_message strip bot_user_id message s) in
  let s1 :=
    state_of (add_message_to_history (msg_channel message)
                (display_name message) (content message) s) in
  s' = s ∨ s' = s1 ∨
  ∃ guild user_message,
    msg_guild message = Some guild ∧
    s' = state_of (generate_response guild (msg_channel message) user_message
                     (display_name message) s1).
Proof.
  intros s' s1. subst s'. rewrite on_message_run.
  destruct (author_bot message); [by left|].
  destruct (msg_guild message) as [guild|]; [|by left].
  cbv zeta. right.
  destruct (truthy_id _ && bool_decide _); [right; by eexists _, _|].
  destruct (mentions_bot message); [|by left].
  destruct (strip_mention _ _ _) as [|ch text]; [by left|].
  right. by eexists _, _.
Qed.

Lemma handle_inv strip bot_user_id a s :
  cog_inv s → cog_inv (handle strip bot_user_id a s).
Proof.
  intros Hinv.
  destruct a as [message|guild channel|guild|guild api_key|guild key_number
                |guild|guild|channel_id]; cbn [handle].
  - destruct (on_message_state strip bot_user_id message s)
      as [->|[->|(guild & user_message & _ & ->)]]; [done| |].
    + apply (run_op_inv (OpMessage _ _ _)), Hinv.
    + apply (run_op_inv (OpGenerate _ _ _ _)), (run_op_inv (OpMessage _ _ _)),
        Hinv.
  - rewrite set_freeroom_run, state_of_run. destruct Hinv as [Hpool Hhist].
    split; [|done]. intros guild'.
    destruct (decide (guild = guild')) as [->|Hne].
    + rewrite guild_conf_put_eq. apply pool_inv_with_freeroom, Hpool.
    + rewrite guild_conf_put_ne by done. apply Hpool.
  - rewrite remove_freeroom_run, state_of_run. destruct Hinv as [Hpool Hhist].
    split; [|done]. intros guild'.
    destruct (decide (guild = guild')) as [->|Hne].
    + rewrite guild_conf_put_eq. apply pool_inv_with_freeroom, Hpool.
    + rewrite guild_conf_put_ne by done. apply Hpool.
  - apply (run_op_inv (OpAddKey _ _)), Hinv.
  - apply (run_op_inv (OpRemoveKey _ _)), Hinv.
  - by rewrite list_api_keys_state.
  - apply (run_op_inv (OpSwitchKey _)), Hinv.
  - apply (run_op_inv (OpClear _)), Hinv.
Qed.

Lemma handle_all_inv strip bot_user_id actions s :
  cog_inv s → cog_inv (handle_all strip bot_user_id actions s).
Proof.
  revert s. induction actions as [|a actions IH]; intros s Hinv; [done|].
  simpl. by apply IH, handle_inv.
Qed.

(** X18. Whatever messages arrive and whatever commands are run, starting
    from the cog as [__init__] leaves it: every guild holds at most 8
    credentials, all different, with the stored index inside the pool (or 0
    when the pool is empty), so that reading the current credential never
    has to repair the index; and every channel history that exists holds
    between 1 and 50 lines, none of them empty. *)
Theorem handlers_keep_invariant strip bot_user_id actions w guild :
  let s := handle_all strip bot_user_id actions (fresh_cog w) in
  let c := guild_conf guild s in
  length (api_keys c) ≤ 8 ∧ NoDup (api_keys c) ∧
  (current_key_index c < length (api_keys c) ∨
   (api_keys c = [] ∧ current_key_index c = 0)) ∧
  get_current_api_key guild s = (api_keys c !! current_key_index c, s, []) ∧
  (∀ channel_id d,
     message_history s !! channel_id = Some d →
     1 ≤ length d ≤ 50 ∧ Forall (λ l, l ≠ "") d).
Proof.
  intros s c.
  destruct (handle_all_inv strip bot_user_id actions (fresh_cog w)
              (fresh_cog_inv w)) as [Hpool Hhist].
  fold s in Hpool, Hhist. destruct (Hpool guild) as (Hsize & Huniq & Hindex).
  fold c in Hsize, Huniq, Hindex. split_and!; [done..| |].
  - destruct Hindex as [Hlt|[Hnil Hzero]].
    + by apply get_current_api_key_in_range.
    + rewrite get_current_api_key_run. cbv zeta. fold c.
      by rewrite Hnil, Hzero.
  - intros channel_id d Hd. destruct (Hhist channel_id d Hd) as (Hne & Hlen & Hall).
    split; [|done]. apply nonempty_length in Hne.
    unfold history_maxlen in Hlen. lia.
Qed.

Lemma generate_response_other_guild guild guild' channel_id user_message
    author_name s :
  guild' ≠ guild →
  guild_conf guild'
    (state_of (generate_response guild channel_id user_message author_name s)) =
  guild_conf guild' s.
Proof.
  intros Hne.
  destruct (get_current_api_key_quiet guild s)
    as (_ & _ & _ & _ & Hother & _ & Hstart).
  destruct (generate_response_split guild channel_id user_message author_name
              s) as [[_ Hr]|(_ & Hkeys & Hr)]; cbv zeta in Hr;
    apply run_eq in Hr as (_ & -> & _); [by apply Hother|].
  destruct (Hstart Hkeys) as (Hc0 & Hlt & _).
  pose proof (retry_loop_state (length (api_keys (guild_conf guild s))) guild
                channel_id user_message author_name
                (state_of (get_current_api_key guild s))) as Hstate.
  cbv zeta in Hstate. rewrite Hc0 in Hstate.
  cbn [api_keys current_key_index with_current_key_index] in Hstate.
  destruct (Hstate Hlt) as (_ & _ & Ho). rewrite Ho by done. by apply Hother.
Qed.

Lemma remove_api_key_other_guild guild guild' key_number s :
  guild' ≠ guild →
  guild_conf guild' (state_of (remove_api_key guild key_number s)) =
  guild_conf guild' s.
Proof.
  intros Hne. rewrite remove_api_key_run. cbv zeta.
  destruct (_ || _); [done|].
  destruct (_ && _); rewrite state_of_run, !guild_conf_put_ne; done.
Qed.

Lemma switch_to_next_key_other_guild guild guild' s :
  guild' ≠ guild →
  guild_conf guild' (state_of (switch_to_next_key guild s)) =
  guild_conf guild' s.
Proof.
  intros Hne. rewrite switch_to_next_key_run. cbv zeta.
  destruct (decide _); [done|]. by rewrite state_of_run, guild_conf_put_ne.
Qed.

(** X19. Guilds and channels are isolated. Handling a message or a command
    leaves the configuration of every guild other than its own exactly as
    it was, and the history of every channel other than its own exactly as
    it was; the key and free-room commands touch no history at all, and
    [aiclear] touches no configuration. *)
Theorem handlers_are_isolated strip bot_user_id a s :
  let s' := handle strip bot_user_id a s in
  (∀ guild', action_guild a ≠ Some guild' →
     guild_conf guild' s' = guild_conf guild' s) ∧
  (∀ channel_id', action_channel a ≠ Some channel_id' →
     message_history s' !! channel_id' = message_history s !! channel_id').
Proof.
  intros s'. subst s'.
  destruct a as [message|guild channel|guild|guild api_key|guild key_number
                |guild|guild|channel_id]; cbn [handle action_guild action_channel].
  - split.
    + intros guild' Hne.
      destruct (on_message_state strip bot_user_id message s)
        as [->|[->|(guild & user_message & Hguild & ->)]]; [done..|].
      rewrite generate_response_other_guild; [done|].
      congruence.
    + intros channel_id' Hne. rewrite on_message_history.
      destruct (author_bot message); [done|].
      destruct (msg_guild message); [|done].
      rewrite lookup_insert_ne; [done|]. congruence.
  - rewrite set_freeroom_run, state_of_run. split; [|done].
    intros guild' Hne. rewrite guild_conf_put_ne; [done|]. congruence.
  - rewrite remove_freeroom_run, state_of_run. split; [|done].
    intros guild' Hne. rewrite guild_conf_put_ne; [done|]. congruence.
  - split; [|by rewrite add_api_key_history].
    intros guild' Hne.
    destruct (add_api_key_conf guild guild' api_key s) as [->|(-> & _)]; done.
  - split.
    + intros guild' Hne. apply remove_api_key_other_guild. congruence.
    + by destruct (remove_api_key_effect guild guild key_number s) as [-> _].
  - by rewrite list_api_keys_state.
  - rewrite switch_key_state. split.
    + intros guild' Hne. apply switch_to_next_key_other_guild. congruence.
    + by destruct (switch_to_next_key_effect guild guild s) as [-> _].
  - unfold clear_history.
    destruct (message_history s !! channel_id); rewrite state_of_run; [|done].
    split; [done|]. intros channel_id' Hne.
    cbn [message_history]. rewrite lookup_delete_ne; [done|]. congruence.
Qed.

(** ** The error classifier *)

Lemma lower_app s1 s2 : lower (s1 +:+ s2) = lower s1 +:+ lower s2.
Proof.
  induction s1 as [|a s1 IH]; [done|].
  rewrite append_String. cbn [lower]. by rewrite append_String, IH.
Qed.

Lemma lower_char_idemp a : lower_char (lower_char a) = lower_char a.
Proof. by destruct a as [[] [] [] [] [] [] [] []]. Qed.

Lemma lower_idemp s : lower (lower s) = lower s.
Proof.
  induction s as [|a s IH]; [done|].
  cbn [lower]. by rewrite lower_char_idemp, IH.
Qed.

(** X20. The classifier looks for the three words anywhere in the error
    text and in any casing, also inside a longer word: a text in which a
    word spelled, up to case, rate, limit or quota occurs at any position is
    classified as a rate limit. The casing of the whole text is irrelevant
    to the verdict. *)
Theorem is_rate_limit_error_any_casing pre word suf e :
  (lower word ∈ ["rate"; "limit"; "quota"] →
   is_rate_limit_error (pre +:+ word +:+ suf) = true) ∧
  is_rate_limit_error (lower e) = is_rate_limit_error e.
Proof.
  split.
  - intros Hword. apply is_rate_limit_error_spec.
    unfold mentions_limit, occurs. rewrite !lower_app.
    apply elem_of_cons in Hword as [->|Hword]; [left; by eexists _, _|].
    apply elem_of_cons in Hword as [->|Hword]; [right; left; by eexists _, _|].
    apply list_elem_of_singleton in Hword as ->. right; right. by eexists _, _.
  - unfold is_rate_limit_error. cbv zeta. by rewrite lower_idemp.
Qed.

(** ** Removing the mention *)

Lemma replace_from_skip old new pre s :
  replace_from old new (String.length pre) (pre +:+ s) =
  replace_from old new 0 s.
Proof.
  induction pre as [|a pre IH]; [by destruct s|].
  rewrite append_String. cbn [String.length replace_from]. apply IH.
Qed.

(** An occurrence at the front is replaced, and the scan goes on behind
    it. *)
Lemma replace_occurrence old new s :
  old ≠ "" → replace old new (old +:+ s) = new +:+ replace old new s.
Proof.
  destruct old as [|a old]; [done|]. intros _.
  unfold replace.
  assert (String.prefix (String a old) (String a old +:+ s) = true) as Hp
    by (apply prefix_spec; eauto).
  rewrite append_String in *. cbn [replace_from]. rewrite Hp.
  replace (String.length (String a old) - 1) with (String.length old)
    by (cbn [String.length]; lia).
  by rewrite replace_from_skip.
Qed.

Lemma replace_self old new : old ≠ "" → replace old new old = new.
Proof.
  intros Hne.
  assert (old = old +:+ "") as Heq
    by (clear; induction old as [|a old IH]; [done|];
        by rewrite append_String, <- IH).
  rewrite Heq at 2. rewrite replace_occurrence by done.
  destruct old; [done|]. cbn [replace replace_from].
  clear. induction new as [|a new IH]; [done|]. by rewrite append_String, IH.
Qed.

Lemma replace_from_0_cons old new c s :
  replace_from old new 0 (String c s) =
  if String.prefix old (String c s)
  then new +:+ replace_from old new (String.length old - 1) s
  else String c (replace_from old new 0 s).
Proof. reflexivity. Qed.

(** Nothing is replaced in a string in which the first character of [old]
    does not occur. *)
Lemma replace_from_absent a old new s :
  a ∉ list_ascii_of_string s →
  replace_from (String a old) new 0 s = s.
Proof.
  induction s as [|b s IH]; [done|].
  cbn [list_ascii_of_string]. intros Hnot.
  apply not_elem_of_cons in Hnot as [Hne Hnot].
  cbn [replace_from String.prefix].
  destruct (ascii_dec a b) as [->|_]; [done|]. by rewrite IH.
Qed.

Lemma list_ascii_of_string_app s1 s2 :
  list_ascii_of_string (s1 +:+ s2) =
  list_ascii_of_string s1 ++ list_ascii_of_string s2.
Proof.
  induction s1 as [|a s1 IH]; [done|].
  rewrite append_String. cbn [list_ascii_of_string]. by rewrite IH.
Qed.

(** [str(n)] consists of decimal digits and, for a negative [n], a
    leading minus sign. *)
Lemma string_of_uint_chars d :
  Forall (λ a, a ∈ list_ascii_of_string "0123456789-")
    (list_ascii_of_string (NilEmpty.string_of_uint d)).
Proof.
  induction d; cbn [NilEmpty.string_of_uint list_ascii_of_string];
    [apply Forall_nil_2|apply Forall_cons; (split; [|done]);
                        by apply (bool_decide_unpack _)..].
Qed.

Lemma str_of_Z_chars z :
  Forall (λ a, a ∈ list_ascii_of_string "0123456789-")
    (list_ascii_of_string (str_of_Z z)).
Proof.
  unfold str_of_Z, str_of_nat. destruct (z <? 0)%Z.
  - rewrite list_ascii_of_string_app. apply Forall_app. split.
    + apply Forall_singleton. by apply (bool_decide_unpack _).
    + apply string_of_uint_chars.
  - apply string_of_uint_chars.
Qed.

Lemma mention_token_nonempty user_id :
  mention_token user_id ≠ "" ∧ nick_mention_token user_id ≠ "".
Proof. done. Qed.

(** The plain form of the mention does not occur in the nickname form. *)
Lemma replace_mention_in_nick user_id new :
  replace (mention_token user_id) new (nick_mention_token user_id) =
  nick_mention_token user_id.
Proof.
  unfold mention_token, nick_mention_token.
  pose proof (str_of_Z_chars user_id) as Hchars.
  set (d := str_of_Z user_id) in *.
  change ("<@" +:+ d +:+ ">") with (String "<" (String "@" (d +:+ ">"))).
  change ("<@!" +:+ d +:+ ">")
    with (String "<" (String "@" (String "!" (d +:+ ">")))).
  assert (String.prefix (String "<" (String "@" (d +:+ ">")))
            (String "<" (String "@" (String "!" (d +:+ ">")))) = false) as Hp.
  { cbn [String.prefix].
    destruct (ascii_dec "<" "<") as [_|]; [|done].
    destruct (ascii_dec "@" "@") as [_|]; [|done].
    destruct d as [|a d]; [done|].
    rewrite append_String. cbn [String.prefix].
    destruct (ascii_dec a "!") as [->|_]; [|done].
    apply Forall_cons in Hchars as [Hbang%(bool_decide_pack _) _].
    by vm_compute in Hbang. }
  unfold replace. rewrite replace_from_0_cons, Hp. f_equal.
  apply (replace_from_absent "<").
  cbn [list_ascii_of_string]. rewrite list_ascii_of_string_app.
  cbn [list_ascii_of_string].
  rewrite !not_elem_of_cons, not_elem_of_app, not_elem_of_cons.
  split_and!; try done; [|apply not_elem_of_nil].
  intros Hin. rewrite Forall_forall in Hchars.
  apply Hchars, (bool_decide_pack _) in Hin. by vm_compute in Hin.
Qed.

(** X21. A message that mentions the bot and consists of nothing but the
    mention, in either of its two forms, gets no reply and causes no backend
    call, though it is recorded. Of [strip] only two values are used: it
    maps the empty string to itself and leaves the nickname form of the
    mention, which holds no white space, as it is. This is outside the
    free-room channel, where the raw content is answered. *)
Theorem on_message_bare_mention strip bot_user_id guild message s :
  let recorded :=
    state_of (add_message_to_history (msg_channel message)
                (display_name message) (content message) s) in
  strip "" = "" →
  strip (nick_mention_token bot_user_id) = nick_mention_token bot_user_id →
  author_bot message = false →
  msg_guild message = Some guild →
  freeroom_channel (guild_conf guild s) ≠ Some (msg_channel message) →
  mentions_bot message = true →
  content message = mention_token bot_user_id ∨
  content message = nick_mention_token bot_user_id →
  on_message strip bot_user_id message s = (NoReply, recorded, []).
Proof.
  intros recorded Hempty Hnick Hbot Hguild Hroom Hmention Hcontent.
  rewrite on_message_run, Hbot, Hguild, Hmention. cbv zeta.
  rewrite (bool_decide_eq_false_2 (Some (msg_channel message) = _))
    by congruence.
  rewrite andb_false_r.
  assert (strip_mention strip bot_user_id (content message) = "") as ->; [|done].
  unfold strip_mention. cbv zeta.
  destruct (mention_token_nonempty bot_user_id) as [Hm Hn].
  destruct Hcontent as [->| ->].
  - rewrite replace_self, Hempty by done.
    destruct (nick_mention_token bot_user_id); [done|].
    by cbn [replace replace_from].
  - by rewrite replace_mention_in_nick, Hnick, replace_self, Hempty.
Qed.

End Cog.

(** * Worked instances *)

Lemma get_current_api_key_correct_witness :
  get_current_api_key demo_guild (demo_cog [] 0) = (None, demo_cog [] 0, []) ∧
  get_current_api_key demo_guild (demo_cog ["key-a"; "key-b"] 1) =
    (Some "key-b", demo_cog ["key-a"; "key-b"] 1, []) ∧
  result_of (get_current_api_key demo_guild (demo_cog ["key-a"; "key-b"] 5)) =
    Some "key-a" ∧
  current_key_index
    (guild_conf demo_guild
       (state_of (get_current_api_key demo_guild
                    (demo_cog ["key-a"; "key-b"] 5)))) = 0.
Proof.
  split; [|split; [|split]].
  - pose proof (get_current_api_key_correct demo_guild (demo_cog [] 0))
      as (H & _ & _).
    apply H. reflexivity.
  - pose proof (get_current_api_key_correct demo_guild
                  (demo_cog ["key-a"; "key-b"] 1)) as (_ & H & _).
    apply H. vm_compute. lia.
  - pose proof (get_current_api_key_correct demo_guild
                  (demo_cog ["key-a"; "key-b"] 5)) as (_ & _ & H).
    destruct H as (H & _); [vm_compute; discriminate|vm_compute; lia|].
    exact H.
  - pose proof (get_current_api_key_correct demo_guild
                  (demo_cog ["key-a"; "key-b"] 5)) as (_ & _ & H).
    destruct H as (_ & _ & _ & H & _); [vm_compute; discriminate|vm_compute; lia|].
    rewrite H. reflexivity.
Defined.

Lemma switch_to_next_key_correct_witness :
  switch_to_next_key demo_guild (demo_cog ["key-a"] 0) =
    (false, demo_cog ["key-a"] 0, []) ∧
  result_of (switch_to_next_key demo_guild
               (demo_cog ["key-a"; "key-b"; "key-c"] 2)) = true ∧
  current_key_index
    (guild_conf demo_guild
       (state_of (switch_to_next_key demo_guild
                    (demo_cog ["key-a"; "key-b"; "key-c"] 2)))) = 0 ∧
  guild_conf demo_guild
    (rotate_times 3 demo_guild (demo_cog ["key-a"; "key-b"; "key-c"] 1)) =
  guild_conf demo_guild (demo_cog ["key-a"; "key-b"; "key-c"] 1).
Proof.
  split; [|split; [|split]].
  - pose proof (switch_to_next_key_correct demo_guild (demo_cog ["key-a"] 0))
      as (H & _ & _).
    apply H. vm_compute. lia.
  - pose proof (switch_to_next_key_correct demo_guild
                  (demo_cog ["key-a"; "key-b"; "key-c"] 2)) as (_ & H & _).
    destruct H as (H & _); [vm_compute; lia|]. exact H.
  - pose proof (switch_to_next_key_correct demo_guild
                  (demo_cog ["key-a"; "key-b"; "key-c"] 2)) as (_ & H & _).
    destruct H as (_ & _ & H & _); [vm_compute; lia|]. rewrite H.
    reflexivity.
  - pose proof (switch_to_next_key_correct demo_guild
                  (demo_cog ["key-a"; "key-b"; "key-c"] 1)) as (_ & _ & H).
    apply H; vm_compute; lia.
Defined.

Lemma add_api_key_correct_witness :
  add_api_key demo_guild "k9" (demo_cog eight_keys 0) =
    (max_keys_message, demo_cog eight_keys 0, []) ∧
  add_api_key demo_guild "key-a" (demo_cog ["key-a"; "key-b"] 0) =
    (duplicate_key_message, demo_cog ["key-a"; "key-b"] 0, []) ∧
  api_keys
    (guild_conf demo_guild
       (state_of (add_api_key demo_guild "key-c"
                    (demo_cog ["key-a"; "key-b"] 0)))) =
    ["key-a"; "key-b"; "key-c"] ∧
  length
    (api_keys
       (guild_conf demo_guild
          (add_all [(demo_guild, "x"); (demo_guild, "x"); (demo_guild, "y")]
             (demo_cog eight_keys 0)))) ≤ 8 ∧
  NoDup
    (api_keys
       (guild_conf 8
          (add_all [(8%Z, "x"); (8%Z, "x"); (8%Z, "y")]
             (demo_cog eight_keys 0)))).
Proof.
  split; [|split; [|split; [|split]]].
  - pose proof (add_api_key_correct demo_guild "k9" (demo_cog eight_keys 0))
      as (H & _).
    apply H. vm_compute. lia.
  - pose proof (add_api_key_correct demo_guild "key-a"
                  (demo_cog ["key-a"; "key-b"] 0)) as (_ & H & _).
    apply H; [vm_compute; lia|]. vm_compute. apply list_elem_of_here.
  - pose proof (add_api_key_correct demo_guild "key-c"
                  (demo_cog ["key-a"; "key-b"] 0)) as (_ & _ & H & _).
    destruct H as (_ & H); [vm_compute; lia| |exact H].
    vm_compute. intros Hin.
    by repeat (inversion_clear Hin as [|? ? ? Hin']; rename Hin' into Hin).
  - pose proof (add_api_key_correct demo_guild "k9" (demo_cog eight_keys 0))
      as (_ & _ & _ & _ & H).
    destruct (H [(demo_guild, "x"); (demo_guild, "x"); (demo_guild, "y")])
      as (Hlen & _).
    apply Hlen. vm_compute. lia.
  - pose proof (add_api_key_correct 8 "k9" (demo_cog eight_keys 0))
      as (_ & _ & _ & _ & H).
    destruct (H [(8%Z, "x"); (8%Z, "x"); (8%Z, "y")]) as (_ & _ & Hfresh).
    apply Hfresh. reflexivity.
Defined.

Lemma remove_api_key_correct_witness :
  remove_api_key demo_guild 0 (demo_cog ["key-a"; "key-b"; "key-c"] 2) =
    (invalid_key_number_message 3, demo_cog ["key-a"; "key-b"; "key-c"] 2, []) ∧
  api_keys
    (guild_conf demo_guild
       (state_of (remove_api_key demo_guild 3
                    (demo_cog ["key-a"; "key-b"; "key-c"] 2)))) =
    ["key-a"; "key-b"] ∧
  current_key_index
    (guild_conf demo_guild
       (state_of (remove_api_key demo_guild 3
                    (demo_cog ["key-a"; "key-b"; "key-c"] 2)))) = 0.
Proof.
  split; [|split].
  - pose proof (remove_api_key_correct demo_guild 0
                  (demo_cog ["key-a"; "key-b"; "key-c"] 2)) as (H & _).
    apply H. vm_compute. left. reflexivity.
  - pose proof (remove_api_key_correct demo_guild 3
                  (demo_cog ["key-a"; "key-b"; "key-c"] 2)) as (_ & H).
    destruct H as (_ & H & _); [vm_compute; split; discriminate|].
    rewrite H. reflexivity.
  - pose proof (remove_api_key_correct demo_guild 3
                  (demo_cog ["key-a"; "key-b"; "key-c"] 2)) as (_ & H).
    destruct H as (_ & _ & _ & H & _); [vm_compute; split; discriminate|].
    rewrite H. reflexivity.
Defined.

Lemma get_channel_context_correct_witness :
  result_of
    (get_channel_context demo_channel
       (record_all [(demo_channel, "ann", "hi all"); (5%Z, "bob", "elsewhere");
                    (demo_channel, "cy", "yo")]
          (demo_cog [] 0))) =
    join newline ["ann: hi all"; "cy: yo"] ∧
  result_of (get_channel_context demo_channel (record_all [] (demo_cog [] 0))) =
    no_history_message.
Proof.
  split.
  - pose proof (get_channel_context_correct demo_channel
                  [(demo_channel, "ann", "hi all"); (5%Z, "bob", "elsewhere");
                   (demo_channel, "cy", "yo")]
                  (demo_cog [] 0) eq_refl) as (_ & H & _).
    rewrite H; [reflexivity|vm_compute; lia].
  - pose proof (get_channel_context_correct demo_channel [] (demo_cog [] 0)
                  eq_refl) as (H & _).
    apply H. reflexivity.
Defined.

Lemma generate_response_no_credentials_witness :
  api_keys (guild_conf demo_guild (demo_cog [] 0)) = [] ∧
  generate_response demo_backend None demo_guild demo_channel "hello" "ann"
    (demo_cog [] 0) = (no_key_message, demo_cog [] 0, []).
Proof.
  split; [reflexivity|].
  apply (generate_response_no_credentials demo_backend None demo_guild
           demo_channel "hello" "ann" (demo_cog [] 0)).
  reflexivity.
Defined.

Lemma generate_response_failover_witness :
  let r :=
    generate_response demo_backend None demo_guild demo_channel "hello" "ann"
      (demo_cog three_keys 0) in
  ∃ req1 req2 req3 e1 e2 content,
    attempts (trace_of r) =
      [(req1, Raised e1); (req2, Raised e2); (req3, Completion content)] ∧
    req_api_key req1 = Some "key-a" ∧ req_api_key req2 = Some "key-b" ∧
    req_api_key req3 = Some "key-c" ∧
    is_rate_limit_error e1 = true ∧ is_rate_limit_error e2 = true ∧
    rotations (trace_of r) = 2 ∧
    result_of r = content ∧
    api_keys (guild_conf demo_guild (state_of r)) = three_keys ∧
    current_key_index (guild_conf demo_guild (state_of r)) = 2 ∧
    api_keys (guild_conf demo_guild (state_of r))
      !! current_key_index (guild_conf demo_guild (state_of r)) =
      Some "key-c".
Proof.
  apply (generate_response_failover demo_backend None demo_guild demo_channel
           "hello" "ann" (demo_cog three_keys 0) "key-a" "key-b" "key-c").
  - reflexivity.
  - reflexivity.
  - discriminate.
  - intros w req Hkey. unfold demo_backend. rewrite Hkey. simpl.
    eexists. split; reflexivity.
  - intros w req Hkey. unfold demo_backend. rewrite Hkey. simpl.
    eexists. split; reflexivity.
  - intros w req Hkey. unfold demo_backend. rewrite Hkey. simpl.
    eexists. reflexivity.
Defined.

Lemma generate_response_bounded_witness :
  let r :=
    generate_response limited_backend None demo_guild demo_channel "hello"
      "ann" (demo_cog ["key-a"; "key-b"] 1) in
  length (attempts (trace_of r)) ≤ 2 ∧
  keys_used (trace_of r) = [Some "key-b"; Some "key-a"] ∧
  NoDup (keys_used (trace_of r)) ∧
  result_of r = all_keys_exhausted_message.
Proof.
  intros r. subst r.
  pose proof (generate_response_bounded limited_backend None demo_guild
                demo_channel "hello" "ann" (demo_cog ["key-a"; "key-b"] 1))
    as H.
  destruct H as (Hm & Hkeys & _ & Hnd & _ & Hex); [vm_compute; lia|].
  split; [exact Hm|]. split; [rewrite Hkeys; reflexivity|].
  split.
  - apply Hnd.
    change (NoDup ["key-a"; "key-b"]).
    apply (bool_decide_unpack (NoDup ["key-a"; "key-b"])). vm_compute. exact I.
  - apply Hex. reflexivity.
Defined.

Lemma generate_response_fatal_witness :
  (let r :=
     generate_response broken_backend None demo_guild demo_channel "hello"
       "ann" (demo_cog three_keys 0) in
   result_of r = error_prefix +:+ "401 Unauthorized" ∧
   length (attempts (trace_of r)) = 1 ∧
   rotations (trace_of r) = 0 ∧
   current_key_index (guild_conf demo_guild (state_of r)) = 0) ∧
  (let r :=
     generate_response demo_backend None demo_guild demo_channel "hello"
       "ann" (demo_cog ["key-a"] 0) in
   result_of r = error_prefix +:+ "429: Rate limit exceeded" ∧
   length (attempts (trace_of r)) = 1 ∧
   rotations (trace_of r) = 0) ∧
  result_of
    (retry_loop broken_backend None 2 demo_guild demo_channel "hello" "ann"
       (Some "key-b") (demo_cog three_keys 1)) =
    error_prefix +:+ "401 Unauthorized".
Proof.
  split; [|split].
  - intros r. subst r.
    pose proof (generate_response_fatal broken_backend None demo_guild
                  demo_channel "hello" "ann" (demo_cog three_keys 0))
      as (_ & H).
    destruct (H "401 Unauthorized" 1 eq_refl eq_refl
                (or_introl
                   (proj1 (is_rate_limit_error_false "401 Unauthorized")
                      eq_refl)))
      as (Hres & Hatt & Hrot & _ & _ & Hidx).
    split; [exact Hres|]. split; [by rewrite Hatt|].
    split; [exact Hrot|]. rewrite Hidx. reflexivity.
  - intros r. subst r.
    pose proof (generate_response_fatal demo_backend None demo_guild
                  demo_channel "hello" "ann" (demo_cog ["key-a"] 0))
      as (_ & H).
    destruct (H "429: Rate limit exceeded" 1 eq_refl eq_refl
                (or_intror eq_refl))
      as (Hres & Hatt & Hrot & _).
    split; [exact Hres|]. split; [by rewrite Hatt|exact Hrot].
  - pose proof (generate_response_fatal broken_backend None demo_guild
                  demo_channel "hello" "ann" (demo_cog three_keys 1))
      as (H & _).
    rewrite (H 1 (Some "key-b") "401 Unauthorized" 1 eq_refl
               (or_introl
                  (proj1 (is_rate_limit_error_false "401 Unauthorized")
                     eq_refl))).
    reflexivity.
Defined.

Lemma generate_response_full_cycle_witness :
  let r :=
    generate_response limited_backend None demo_guild demo_channel "hello"
      "ann" (demo_cog three_keys 1) in
  rotations (trace_of r) = 3 ∧
  result_of r = all_keys_exhausted_message ∧
  keys_used (trace_of r) = [Some "key-b"; Some "key-c"; Some "key-a"] ∧
  switched_to (trace_of r) = [2; 0; 1] ∧
  guild_conf demo_guild (state_of r) =
    guild_conf demo_guild (demo_cog three_keys 1).
Proof.
  intros r. subst r.
  pose proof (generate_response_full_cycle limited_backend None demo_guild
                demo_channel "hello" "ann" (demo_cog three_keys 1))
    as H.
  destruct H as (Hrot & Hres & Hused & Hsw & _ & _ & Hidx).
  - vm_compute. lia.
  - reflexivity.
  - vm_compute. repeat constructor; eexists; split; reflexivity.
  - split; [exact Hrot|]. split; [exact Hres|].
    split; [exact Hused|]. split; [exact Hsw|].
    apply Hidx. vm_compute. lia.
Defined.

Lemma history_keeps_last_50_witness :
  let msgs := (λ n, (demo_channel, "ann", str_of_nat n)) <$> seq 0 52 in
  let d' :=
    default []
      (message_history (record_all msgs (demo_cog [] 0)) !! demo_channel) in
  length d' = 50 ∧ head d' = Some "ann: 2" ∧ last d' = Some "ann: 51".
Proof.
  intros msgs d'.
  pose proof (history_keeps_last_50 demo_channel msgs (demo_cog [] 0)) as H.
  destruct H as (H & _); [vm_compute; lia|].
  subst d'. rewrite H. vm_compute. repeat split.
Defined.

Lemma clear_history_resets_witness :
  let s := record_all [(demo_channel, "ann", "hi all")] (demo_cog [] 0) in
  let r := clear_history demo_channel s in
  message_history s !! demo_channel = Some ["ann: hi all"] ∧
  message_history (state_of r) !! demo_channel = None ∧
  result_of (get_channel_context demo_channel
               (record_all [(demo_channel, "cy", "yo")] (state_of r))) =
    "cy: yo".
Proof.
  intros s r.
  pose proof (clear_history_resets demo_channel [(demo_channel, "cy", "yo")] s)
    as (H1 & _ & _ & _ & _ & _ & _ & H8).
  split; [reflexivity|]. split; [exact H1|]. subst r. rewrite H8. reflexivity.
Defined.

Lemma add_then_remove_restores_witness :
  let s := demo_cog three_keys 1 in
  let s1 := state_of (add_api_key demo_guild "key-d" s) in
  api_keys (guild_conf demo_guild s1) =
    ["key-a"; "key-b"; "key-c"; "key-d"] ∧
  guild_conf demo_guild (state_of (remove_api_key demo_guild 4 s1)) =
    guild_conf demo_guild s.
Proof.
  intros s s1.
  pose proof (add_then_remove_restores demo_guild "key-d" s) as H.
  destruct H as (H1 & _ & H3 & _);
    [vm_compute; lia|apply (bool_decide_unpack _); vm_compute; exact I|].
  split; [exact H1|]. apply H3. right. vm_compute. lia.
Defined.

Lemma remove_api_key_current_witness :
  result_of
    (get_current_api_key demo_guild
       (state_of (remove_api_key demo_guild 1 (demo_cog three_keys 1)))) =
    Some "key-c" ∧
  result_of
    (get_current_api_key demo_guild
       (state_of (remove_api_key demo_guild 3 (demo_cog three_keys 2)))) =
    Some "key-a".
Proof.
  split.
  - pose proof (remove_api_key_current demo_guild 1 (demo_cog three_keys 1))
      as H.
    destruct H as (_ & H & _); [vm_compute; split; discriminate|vm_compute; lia|].
    destruct H as [H _]; [vm_compute; lia..|]. rewrite H. reflexivity.
  - pose proof (remove_api_key_current demo_guild 3 (demo_cog three_keys 2))
      as H.
    destruct H as (_ & _ & H & _);
      [vm_compute; split; discriminate|vm_compute; lia|].
    destruct H as [H _]; [vm_compute; lia..|]. rewrite H. reflexivity.
Defined.

Lemma switch_key_announces_witness :
  result_of (switch_key demo_guild (demo_cog three_keys 2)) =
    "✅ Switched to API key #1" ∧
  result_of
    (get_current_api_key demo_guild
       (state_of (switch_key demo_guild (demo_cog three_keys 2)))) =
    Some "key-a" ∧
  switch_key demo_guild (demo_cog ["key-a"] 0) =
    ("❌ Only one API key available, cannot switch!", demo_cog ["key-a"] 0, []).
Proof.
  pose proof (switch_key_announces demo_guild (demo_cog three_keys 2))
    as (_ & H).
  destruct H as (H1 & _ & H3 & _); [vm_compute; lia|].
  pose proof (switch_key_announces demo_guild (demo_cog ["key-a"] 0))
    as (H & _).
  split; [rewrite H1; reflexivity|]. split; [rewrite H3; reflexivity|].
  apply H. vm_compute. lia.
Defined.

Lemma rotation_round_robin_witness :
  (λ j, current_after j demo_guild (demo_cog three_keys 1)) <$> seq 0 3 =
  [Some "key-b"; Some "key-c"; Some "key-a"].
Proof.
  pose proof (rotation_round_robin demo_guild (demo_cog three_keys 1)) as H.
  destruct H as (H & _); [vm_compute; lia..|]. exact H.
Defined.

Lemma masked_key_hides_witness :
  masked_key "abcd" = "****" ∧
  masked_key "ключ" = "****" ∧
  masked_key "sk-live-1234" = "...1234" ∧
  masked_key "мой-ключ" = "...ключ".
Proof.
  split; [|split; [|split]].
  - pose proof (masked_key_hides "abcd" eq_refl) as (_ & H & _).
    apply H. vm_compute. lia.
  - pose proof (masked_key_hides "ключ" eq_refl) as (_ & H & _).
    apply H. vm_compute. lia.
  - pose proof (masked_key_hides "" eq_refl) as (_ & _ & _ & H).
    apply (H "sk-live-" "1234"); [reflexivity|discriminate|reflexivity..].
  - pose proof (masked_key_hides "" eq_refl) as (_ & _ & _ & H).
    apply (H "мой-" "ключ"); [reflexivity|discriminate|reflexivity..].
Defined.

Lemma list_api_keys_marks_current_witness :
  let s := demo_cog ["key-a"; "ключ"; "sk-live-1234"] 1 in
  state_of (list_api_keys demo_guild s) = s ∧
  ∃ e, result_of (list_api_keys demo_guild s) = SentEmbed e ∧
       embed_fields e !! 1 = Some ("Key #2 🟢 ACTIVE", "`****`", true) ∧
       embed_fields e !! 2 = Some ("Key #3 ⚪", "`...1234`", true).
Proof.
  intros s.
  pose proof (list_api_keys_marks_current demo_guild s) as (H1 & _ & _ & H).
  destruct H as (e & He & _ & _ & Hfields & _); [vm_compute; discriminate|].
  split; [exact H1|]. exists e. split; [exact He|].
  destruct (Hfields 1 "ключ" eq_refl) as (name1 & Hf1 & Hactive & _).
  destruct (Hfields 2 "sk-live-1234" eq_refl) as (name2 & Hf2 & _ & Hother & _).
  rewrite Hf1, (Hactive eq_refl), Hf2, (Hother ltac:(discriminate)).
  split; reflexivity.
Defined.

Lemma generate_response_outcome_witness :
  result_of
    (generate_response demo_backend None demo_guild demo_channel "hello" "ann"
       (demo_cog three_keys 0)) = "sure thing" ∧
  result_of
    (generate_response broken_backend None demo_guild demo_channel "hello"
       "ann" (demo_cog three_keys 0)) = error_prefix +:+ "401 Unauthorized" ∧
  result_of
    (generate_response limited_backend None demo_guild demo_channel "hello"
       "ann" (demo_cog three_keys 0)) = all_keys_exhausted_message ∧
  result_of
    (generate_response limited_backend None demo_guild demo_channel "hello"
       "ann" (demo_cog ["key-a"] 0)) =
    error_prefix +:+ "Monthly QUOTA used up" ∧
  result_of
    (generate_response demo_backend None demo_guild demo_channel "hello" "ann"
       (demo_cog [] 0)) = no_key_message.
Proof.
  split; [|split; [|split; [|split]]].
  - pose proof (generate_response_outcome demo_backend None demo_guild
                  demo_channel "hello" "ann" (demo_cog three_keys 0))
      as (_ & H & _).
    refine (H _ _ _). reflexivity.
  - pose proof (generate_response_outcome broken_backend None demo_guild
                  demo_channel "hello" "ann" (demo_cog three_keys 0))
      as (_ & _ & H).
    destruct (H _ "401 Unauthorized" eq_refl) as [_ Herr].
    apply Herr. left. reflexivity.
  - pose proof (generate_response_outcome limited_backend None demo_guild
                  demo_channel "hello" "ann" (demo_cog three_keys 0))
      as (_ & _ & H).
    destruct (H _ "Monthly QUOTA used up" eq_refl) as [Hex _].
    apply Hex; [reflexivity|vm_compute; lia].
  - pose proof (generate_response_outcome limited_backend None demo_guild
                  demo_channel "hello" "ann" (demo_cog ["key-a"] 0))
      as (_ & _ & H).
    destruct (H _ "Monthly QUOTA used up" eq_refl) as [_ Herr].
    apply Herr. right. vm_compute. lia.
  - pose proof (generate_response_outcome demo_backend None demo_guild
                  demo_channel "hello" "ann" (demo_cog [] 0)) as (H & _).
    apply H. reflexivity.
Defined.

Lemma generate_response_sticky_witness :
  let r :=
    generate_response demo_backend None demo_guild demo_channel "hello" "ann"
      (demo_cog three_keys 0) in
  current_key_index (guild_conf demo_guild (state_of r)) = 2 ∧
  get_current_api_key demo_guild (state_of r) =
    (Some "key-c", state_of r, []).
Proof.
  intros r.
  pose proof (generate_response_sticky demo_backend None demo_guild
                demo_channel "hello" "ann" (demo_cog three_keys 0))
    as (Hlt & H).
  split; [reflexivity|].
  destruct (H _ _ eq_refl) as (_ & _ & Hnext); [exact (Hlt _ _ eq_refl)|].
  exact Hnext.
Defined.

Lemma generate_response_same_prompt_witness :
  Forall
    (λ a, req_user a.1 = "ann asks: hello" ∧ req_max_tokens a.1 = 300)
    (attempts
       (trace_of
          (generate_response demo_backend None demo_guild demo_channel "hello"
             "ann" (demo_cog three_keys 0)))).
Proof.
  eapply Forall_impl;
    [exact (generate_response_same_prompt demo_backend None demo_guild
              demo_channel "hello" "ann" (demo_cog three_keys 0))|].
  intros a (_ & Htokens & Huser & _). split; [exact Huser|exact Htokens].
Defined.

Lemma generate_response_frame_witness :
  let s := demo_cog three_keys 1 in
  let r :=
    generate_response limited_backend None demo_guild demo_channel "hello"
      "ann" s in
  rotations (trace_of r) = 3 ∧
  current_key_index (guild_conf demo_guild (state_of r)) = 1 ∧
  api_keys (guild_conf demo_guild (state_of r)) = three_keys.
Proof.
  intros s r.
  pose proof (generate_response_frame limited_backend None demo_guild
                demo_channel "hello" "ann" s)
    as (_ & _ & Hkeys & _ & _ & Hindex & _).
  split; [reflexivity|]. split; [|exact Hkeys].
  subst r. rewrite Hindex; [reflexivity|vm_compute; lia].
Defined.

Lemma generate_response_blank_key_witness :
  let r :=
    generate_response demo_backend None demo_guild demo_channel "hello" "ann"
      (demo_cog [""; "key-c"] 0) in
  result_of r = no_key_message ∧ attempts (trace_of r) = [].
Proof.
  intros r.
  pose proof (generate_response_blank_key demo_backend None demo_guild
                demo_channel "hello" "ann" (demo_cog [""; "key-c"] 0) eq_refl)
    as (Hres & Hatt & _).
  split; [exact Hres|exact Hatt].
Defined.

Lemma on_message_records_witness :
  let s := demo_cog three_keys 0 in
  let bot_message :=
    {| author_bot := true; msg_guild := Some demo_guild;
       msg_channel := demo_channel; display_name := "other bot";
       content := "beep"; mentions_bot := true |} in
  on_message demo_backend None strip_ascii demo_bot_id bot_message s =
    (NoReply, s, []) ∧
  message_history
    (state_of (on_message demo_backend None strip_ascii demo_bot_id
                 (demo_message "hi all" false) s)) !! demo_channel =
    Some ["ann: hi all"].
Proof.
  intros s bot_message. split.
  - pose proof (on_message_records demo_backend None strip_ascii demo_bot_id
                  bot_message s) as (H & _).
    apply H. left. reflexivity.
  - pose proof (on_message_records demo_backend None strip_ascii demo_bot_id
                  (demo_message "hi all" false) s) as (_ & H).
    destruct H as (H & _); [reflexivity|exists demo_guild; reflexivity|].
    etrans; [exact H|reflexivity].
Defined.

Lemma set_freeroom_enables_witness :
  let s1 :=
    state_of (set_freeroom demo_guild demo_text_channel
                (demo_cog three_keys 0)) in
  result_of (on_message demo_backend None strip_ascii demo_bot_id
               (demo_message "hello" false) s1) =
    ChannelSend demo_channel "sure thing".
Proof.
  intros s1.
  pose proof (set_freeroom_enables demo_backend None strip_ascii demo_bot_id
                demo_guild demo_text_channel (demo_message "hello" false)
                (demo_cog three_keys 0)) as H.
  destruct H as (H & _); [discriminate|reflexivity..|].
  subst s1. rewrite H. reflexivity.
Defined.

Lemma remove_freeroom_silences_witness :
  let s :=
    state_of (set_freeroom demo_guild demo_text_channel
                (demo_cog three_keys 0)) in
  let s1 := state_of (remove_freeroom demo_guild s) in
  freeroom_channel (guild_conf demo_guild s) = Some demo_channel ∧
  result_of (on_message demo_backend None strip_ascii demo_bot_id
               (demo_message "hello" false) s1) = NoReply.
Proof.
  intros s s1.
  pose proof (remove_freeroom_silences demo_backend None strip_ascii
                demo_bot_id demo_guild (demo_message "hello" false) s
                eq_refl eq_refl) as (H & _).
  split; [reflexivity|exact H].
Defined.

Lemma on_message_context_has_message_witness :
  let s :=
    record_all ((λ n, (demo_channel, "bob", str_of_nat n)) <$> seq 0 40)
      (demo_cog three_keys 0) in
  let r :=
    on_message demo_backend None strip_ascii demo_bot_id
      (demo_message "<@99> hello" true) s in
  length (attempts (trace_of r)) = 3 ∧
  Forall
    (λ a, req_system a.1 =
            system_prompt "Unknown"
              (join newline
                 (((λ n, "bob: " +:+ str_of_nat n) <$> seq 11 29) ++
                  ["ann: <@99> hello"])))
    (attempts (trace_of r)).
Proof.
  intros s r. split; [reflexivity|].
  pose proof (on_message_context_has_message demo_backend None strip_ascii
                demo_bot_id (demo_message "<@99> hello" true) s)
    as (H & _ & _).
  exact H.
Defined.

Lemma handlers_keep_invariant_witness :
  let s :=
    handle_all demo_backend None strip_ascii demo_bot_id
      [ActAddKey demo_guild "key-a"; ActAddKey demo_guild "key-a";
       ActAddKey demo_guild "key-c";
       ActMessage (demo_message "<@99> hello" true);
       ActRemoveKey demo_guild 2] (fresh_cog 0) in
  api_keys (guild_conf demo_guild s) = ["key-a"] ∧
  NoDup (api_keys (guild_conf demo_guild s)) ∧
  get_current_api_key demo_guild s = (Some "key-a", s, []).
Proof.
  intros s.
  pose proof (handlers_keep_invariant demo_backend None strip_ascii
                demo_bot_id
                [ActAddKey demo_guild "key-a"; ActAddKey demo_guild "key-a";
                 ActAddKey demo_guild "key-c";
                 ActMessage (demo_message "<@99> hello" true);
                 ActRemoveKey demo_guild 2] 0 demo_guild)
    as (_ & Hnodup & _ & Hcurrent & _).
  split; [reflexivity|]. split; [exact Hnodup|exact Hcurrent].
Defined.

Lemma handlers_are_isolated_witness :
  let s := demo_cog three_keys 1 in
  guild_conf demo_guild
    (handle demo_backend None strip_ascii demo_bot_id (ActRemoveKey 8 1) s) =
    guild_conf demo_guild s ∧
  message_history
    (handle demo_backend None strip_ascii demo_bot_id
       (ActMessage (demo_message "hi" false)) s) !! 5%Z =
    message_history s !! 5%Z.
Proof.
  intros s. split.
  - pose proof (handlers_are_isolated demo_backend None strip_ascii
                  demo_bot_id (ActRemoveKey 8 1) s) as (H & _).
    apply H. discriminate.
  - pose proof (handlers_are_isolated demo_backend None strip_ascii
                  demo_bot_id (ActMessage (demo_message "hi" false)) s)
      as (_ & H).
    apply H. discriminate.
Defined.

Lemma is_rate_limit_error_any_casing_witness :
  is_rate_limit_error "Failed to geneRATE a reply" = true ∧
  is_rate_limit_error "UNLIMITED PLAN REQUIRED" = true.
Proof.
  split.
  - pose proof (is_rate_limit_error_any_casing "Failed to gene" "RATE"
                  " a reply" "") as (H & _).
    apply H. apply list_elem_of_here.
  - pose proof (is_rate_limit_error_any_casing "UN" "LIMIT"
                  "ED PLAN REQUIRED" "") as (H & _).
    apply H. apply list_elem_of_further, list_elem_of_here.
Defined.

Lemma on_message_bare_mention_witness :
  result_of
    (on_message demo_backend None strip_ascii demo_bot_id
       (demo_message "<@99>" true) (demo_cog three_keys 0)) = NoReply ∧
  result_of
    (on_message demo_backend None strip_ascii demo_bot_id
       (demo_message "<@!99>" true) (demo_cog three_keys 0)) = NoReply.
Proof.
  split.
  - rewrite (on_message_bare_mention demo_backend None strip_ascii demo_bot_id
               demo_guild (demo_message "<@99>" true) (demo_cog three_keys 0));
      [reflexivity..|discriminate|reflexivity|left; reflexivity].
  - rewrite (on_message_bare_mention demo_backend None strip_ascii demo_bot_id
               demo_guild (demo_message "<@!99>" true) (demo_cog three_keys 0));
      [reflexivity..|discriminate|reflexivity|right; reflexivity].
Defined.

End AdaptiveAI.

